(** * Continuous collision detection and response of the bounce sandbox

    Shallow embedding of [src/src/objects.c] and [src/src/main.c].
    Floating-point [float] values are modelled by real numbers ([R]): the
    development is about the algorithm in exact arithmetic, every
    [EPSILON2] threshold of the source is kept as written.  The vector
    helpers of raylib's [raymath.h] used by the source are transcribed
    from raylib. *)

From Stdlib Require Import Reals Lra Psatz ZArith List Bool.
Import ListNotations.

Open Scope R_scope.

(** ** Numeric helpers *)

(** [#define EPSILON2 0.0001f] (common.h). *)
Definition EPSILON2 : R := 1 / 10000.

Definition Rltb (a b : R) : bool := if Rlt_dec a b then true else false.
Definition Rleb (a b : R) : bool := if Rle_dec a b then true else false.

(** [fmaxf]. *)
Definition fmaxf (a b : R) : R := Rmax a b.

(** raymath [Clamp(value, min, max)]. *)
Definition Clamp (value lo hi : R) : R :=
  let result := if Rltb value lo then lo else value in
  if Rltb hi result then hi else result.

(** ** raymath [Vector2] *)

Record Vector2 := mkVector2 { x : R; y : R }.

Definition Vector2Zero : Vector2 := mkVector2 0 0.

Definition Vector2Add (v1 v2 : Vector2) : Vector2 :=
  mkVector2 (x v1 + x v2) (y v1 + y v2).

Definition Vector2Subtract (v1 v2 : Vector2) : Vector2 :=
  mkVector2 (x v1 - x v2) (y v1 - y v2).

Definition Vector2Scale (v : Vector2) (scale : R) : Vector2 :=
  mkVector2 (x v * scale) (y v * scale).

Definition Vector2Negate (v : Vector2) : Vector2 := mkVector2 (- x v) (- y v).

Definition Vector2DotProduct (v1 v2 : Vector2) : R := x v1 * x v2 + y v1 * y v2.

Definition Vector2LengthSqr (v : Vector2) : R := x v * x v + y v * y v.

Definition Vector2Length (v : Vector2) : R := sqrt (x v * x v + y v * y v).

Definition Vector2Distance (v1 v2 : Vector2) : R :=
  sqrt ((x v1 - x v2) * (x v1 - x v2) + (y v1 - y v2) * (y v1 - y v2)).

(** [Vector2Normalize]: the zero vector is returned unchanged. *)
Definition Vector2Normalize (v : Vector2) : Vector2 :=
  let length := sqrt (x v * x v + y v * y v) in
  if Rltb 0 length then
    let ilength := 1 / length in mkVector2 (x v * ilength) (y v * ilength)
  else Vector2Zero.

(** [Vector2Reflect(v, normal)]. *)
Definition Vector2Reflect (v normal : Vector2) : Vector2 :=
  let dotProduct := x v * x normal + y v * y normal in
  mkVector2 (x v - (2 * x normal) * dotProduct) (y v - (2 * y normal) * dotProduct).

(** The recurring pattern
    [if (Vector2LengthSqr(n) < EPSILON2) n = fallback;]. *)
Definition ifDegenerate (n fallback : Vector2) : Vector2 :=
  if Rltb (Vector2LengthSqr n) EPSILON2 then fallback else n.

(** [(Vector2){0,-1}], the last fallback normal of the sweeps. *)
Definition defaultNormal : Vector2 := mkVector2 0 (-1).

(** The window test [t >= -EPSILON2 && t <= dt_max + EPSILON2]. *)
Definition inWindow (t dt_max : R) : bool :=
  Rleb (- EPSILON2) t && Rleb t (dt_max + EPSILON2).

(** ** [sweptBallToStaticPointCollision] (objects.c, 22-78)

    The result [Some (toi, normal)] is the [true] return with the two
    out-parameters; [None] is the [false] return. *)
Definition sweptBallToStaticPointCollision (point ballPos ballVel : Vector2)
    (ballRadius dt_max : R) : option (R * Vector2) :=
  let relPos := Vector2Subtract ballPos point in
  let a := Vector2DotProduct ballVel ballVel in
  let b := 2 * Vector2DotProduct relPos ballVel in
  let c := Vector2DotProduct relPos relPos - ballRadius * ballRadius in
  if Rltb (Rabs a) EPSILON2 then
    if Rleb c 0 then
      if Rltb b 0 || Rltb (Rabs b) EPSILON2 then
        let normDir :=
          ifDegenerate (Vector2Normalize relPos)
            (ifDegenerate (Vector2Normalize (Vector2Negate ballVel)) defaultNormal) in
        Some (0, normDir)
      else None
    else None
  else
    let discriminant := b * b - 4 * a * c in
    if Rltb discriminant 0 then None
    else
      let sqrt_d := sqrt discriminant in
      let t1 := (- b - sqrt_d) / (2 * a) in
      let t2 := (- b + sqrt_d) / (2 * a) in
      let t_collision := if inWindow t1 dt_max then t1 else -1 in
      let t_collision :=
        if inWindow t2 dt_max then
          if Rltb t_collision (- EPSILON2) || Rltb t2 t_collision then t2 else t_collision
        else t_collision in
      if Rleb (- EPSILON2) t_collision then
        let toi := fmaxf 0 t_collision in
        let ball_center_at_toi := Vector2Add ballPos (Vector2Scale ballVel toi) in
        let normal :=
          ifDegenerate (Vector2Normalize (Vector2Subtract ball_center_at_toi point))
            (ifDegenerate (Vector2Normalize (Vector2Subtract ballPos point)) defaultNormal) in
        Some (toi, normal)
      else None.

(** ** [sweptBallToStaticSegmentCollision] (objects.c, 81-184) *)

(** Running state of the segment sweep:
    [(min_valid_toi, collided, final_normal)]. *)
Definition SweepAcc : Type := (R * bool * Vector2)%type.

(** Lines 92-105: keep an endpoint hit if it is earlier than the running
    minimum. *)
Definition keepEarlier (hit : option (R * Vector2)) (acc : SweepAcc) : SweepAcc :=
  match hit with
  | Some (t, n) => let '(m, _, _) := acc in if Rltb t m then (t, true, n) else acc
  | None => acc
  end.

(** The early exits of lines 111-115 and 131-135 write the running
    minimum and normal unchanged. *)
Definition earlyExit (acc : SweepAcc) : option (R * Vector2) :=
  let '(m, collided, n) := acc in if collided then Some (m, n) else None.

(** Lines 154-159: ball centre at [t], its orthogonal projection on the
    segment line, and the parameter of that point along the segment
    direction. *)
Definition segDirNormalized (segP1 segP2 : Vector2) : Vector2 :=
  Vector2Normalize (Vector2Subtract segP2 segP1).

Definition segPerpDir (segP1 segP2 : Vector2) : Vector2 :=
  let d := segDirNormalized segP1 segP2 in mkVector2 (- y d) (x d).

Definition collisionPointOnLine (segP1 segP2 ballPos ballVel : Vector2) (t : R) : Vector2 :=
  let ballCenterAtToi := Vector2Add ballPos (Vector2Scale ballVel t) in
  let perp := segPerpDir segP1 segP2 in
  Vector2Subtract ballCenterAtToi
    (Vector2Scale perp (Vector2DotProduct (Vector2Subtract ballCenterAtToi segP1) perp)).

Definition contactProjection (segP1 segP2 ballPos ballVel : Vector2) (t : R) : R :=
  Vector2DotProduct
    (Vector2Subtract (collisionPointOnLine segP1 segP2 ballPos ballVel t) segP1)
    (segDirNormalized segP1 segP2).

Definition sweptBallToStaticSegmentCollision (segP1 segP2 ballPos ballVel : Vector2)
    (ballRadius dt_max : R) : option (R * Vector2) :=
  let acc0 : SweepAcc := (dt_max + EPSILON2, false, Vector2Zero) in
  let acc1 := keepEarlier
      (sweptBallToStaticPointCollision segP1 ballPos ballVel ballRadius dt_max) acc0 in
  let acc2 := keepEarlier
      (sweptBallToStaticPointCollision segP2 ballPos ballVel ballRadius dt_max) acc1 in
  let segmentVec := Vector2Subtract segP2 segP1 in
  let segmentLenSq := Vector2LengthSqr segmentVec in
  if Rltb segmentLenSq EPSILON2 then earlyExit acc2
  else
    let relPos := Vector2Subtract ballPos segP1 in
    let perp := segPerpDir segP1 segP2 in
    let distToLine := Vector2DotProduct relPos perp in
    let velCompTowardsLine := Vector2DotProduct ballVel perp in
    if Rltb (Rabs velCompTowardsLine) EPSILON2 then earlyExit acc2
    else
      let t_line1 := (ballRadius - distToLine) / velCompTowardsLine in
      let t_line2 := (- ballRadius - distToLine) / velCompTowardsLine in
      let t_line_collision := if inWindow t_line1 dt_max then t_line1 else -1 in
      let t_line_collision :=
        if inWindow t_line2 dt_max then
          if Rltb t_line_collision (- EPSILON2) || Rltb t_line2 t_line_collision
          then t_line2 else t_line_collision
        else t_line_collision in
      let '(m2, _, _) := acc2 in
      let acc3 :=
        if Rleb (- EPSILON2) t_line_collision && Rltb t_line_collision m2 then
          let ballCenterAtToi := Vector2Add ballPos (Vector2Scale ballVel t_line_collision) in
          let pointOnLine :=
            collisionPointOnLine segP1 segP2 ballPos ballVel t_line_collision in
          let projection :=
            contactProjection segP1 segP2 ballPos ballVel t_line_collision in
          if Rleb (- EPSILON2) projection && Rleb projection (sqrt segmentLenSq + EPSILON2)
          then
            let final_normal :=
              ifDegenerate (Vector2Normalize (Vector2Subtract ballCenterAtToi pointOnLine))
                (if Rltb 0 distToLine then perp else Vector2Negate perp) in
            (t_line_collision, true, final_normal)
          else acc2
        else acc2 in
      let '(m3, collided, n3) := acc3 in
      if collided then
        Some (fmaxf 0 m3,
              ifDegenerate n3
                (ifDegenerate (Vector2Normalize (Vector2Negate ballVel)) defaultNormal))
      else None.

(** ** Angles (objects.c, 457-490) *)

(** [RAD2DEG] and [DEG2RAD] (raylib). *)
Definition RAD2DEG : R := 180 / PI.
Definition DEG2RAD : R := PI / 180.

(** C [atan2f] on the reals (signed zeros are not modelled). *)
Definition atan2f (dy dx : R) : R :=
  if Rltb 0 dx then atan (dy / dx)
  else if Rltb dx 0 then
    (if Rleb 0 dy then atan (dy / dx) + PI else atan (dy / dx) - PI)
  else if Rltb 0 dy then PI / 2
  else if Rltb dy 0 then - (PI / 2)
  else 0.

(** C truncation toward zero and [fmodf]: [a - trunc(a/b) * b]. *)
Definition truncR (z : R) : Z :=
  if Rleb 0 z then Int_part z else (- Int_part (- z))%Z.

Definition fmodf (a b : R) : R := a - IZR (truncR (a / b)) * b.

(** Lines 472-477: the angle of [point] about [center] in degrees,
    shifted into [0, 360]. *)
Definition pointAngleDeg (point center : Vector2) : R :=
  let dx := x point - x center in
  let dy := y point - y center in
  let pointAngle := atan2f dy dx * RAD2DEG in
  if Rltb pointAngle 0 then pointAngle + 360 else pointAngle.

(** Lines 480-481. *)
Definition effectiveAngle (angle currentRotation : R) : R :=
  fmodf (angle + currentRotation) 360.

Definition isPointWithinArcAngles (point center : Vector2)
    (startAngle endAngle currentRotation : R) : bool :=
  let pointAngle := pointAngleDeg point center in
  let effectiveStart := effectiveAngle startAngle currentRotation in
  let effectiveEnd := effectiveAngle endAngle currentRotation in
  if Rleb effectiveStart effectiveEnd then
    Rleb effectiveStart pointAngle && Rleb pointAngle effectiveEnd
  else
    Rleb effectiveStart pointAngle || Rleb pointAngle effectiveEnd.

Definition isBallInsideCircle (ballPos circlePos : Vector2) (circleRadius thickness : R) : bool :=
  let distance := Vector2Distance ballPos circlePos in
  let outerRadius := circleRadius + thickness / 2 in
  Rleb distance outerRadius.

(** ** Data model (common.h) *)

(** raylib [Color]: four bytes. *)
Record Color := mkColor { cr : Z; cg : Z; cb : Z; ca : Z }.

(** raylib [Sound] handles are opaque to the core. *)
Definition Sound : Type := nat.

(** [EffectType] with the matching member of the [params] union. *)
Inductive EffectParams :=
| EFFECT_COLOR_CHANGE (color : Color)
| EFFECT_VELOCITY_BOOST (factor : R)
| EFFECT_VELOCITY_DAMPEN (factor : R)
| EFFECT_SIZE_CHANGE (factor : R)
| EFFECT_SOUND_PLAY (sound : Sound)
| EFFECT_BALL_DISAPPEAR (particleCount : Z) (particleColor : Color)
| EFFECT_BALL_SPAWN (spawnPosition : Vector2) (spawnRadius : R) (spawnColor : Color).

(** [struct CollisionEffect]; the [next] link is the enclosing list. *)
Record CollisionEffect := mkEffect { params : EffectParams; continuous : bool }.

(** [struct BouncingObject]; the [next] link is the enclosing list. *)
Record BouncingObject := mkBouncingObject {
  position : Vector2;
  velocity : Vector2;
  radius : R;
  color : Color;
  mass : R;
  restitution : R;
  interactWithOtherBouncingObjects : bool;
  markedForDeletion : bool;
  onCollisionEffects : list CollisionEffect
}.

Definition set_position (b : BouncingObject) (p : Vector2) : BouncingObject :=
  mkBouncingObject p (velocity b) (radius b) (color b) (mass b) (restitution b)
    (interactWithOtherBouncingObjects b) (markedForDeletion b) (onCollisionEffects b).
Definition set_velocity (b : BouncingObject) (v : Vector2) : BouncingObject :=
  mkBouncingObject (position b) v (radius b) (color b) (mass b) (restitution b)
    (interactWithOtherBouncingObjects b) (markedForDeletion b) (onCollisionEffects b).
Definition set_radius (b : BouncingObject) (r : R) : BouncingObject :=
  mkBouncingObject (position b) (velocity b) r (color b) (mass b) (restitution b)
    (interactWithOtherBouncingObjects b) (markedForDeletion b) (onCollisionEffects b).
Definition set_color (b : BouncingObject) (c : Color) : BouncingObject :=
  mkBouncingObject (position b) (velocity b) (radius b) c (mass b) (restitution b)
    (interactWithOtherBouncingObjects b) (markedForDeletion b) (onCollisionEffects b).
Definition set_markedForDeletion (b : BouncingObject) (m : bool) : BouncingObject :=
  mkBouncingObject (position b) (velocity b) (radius b) (color b) (mass b) (restitution b)
    (interactWithOtherBouncingObjects b) m (onCollisionEffects b).

(** Registered arc callbacks are C function pointers supplied by the
    application; they are identified here by a handle. *)
Definition ArcCircleCallback : Type := nat.

(** [ShapeDataArcCircle] as used by objects.c (with its two callback
    lists). *)
Record ShapeDataArcCircle := mkArcData {
  arcRadius : R;
  startAngle : R;
  endAngle : R;
  thickness : R;
  arcColor : Color;
  rotation : R;
  rotationSpeed : R;
  removeEscapedBalls : bool;
  onCollisionCallbacks : list ArcCircleCallback;
  onEscapeCallbacks : list ArcCircleCallback
}.

(** [type] together with the [shapeData] it selects. *)
Inductive ShapeData :=
| SHAPE_RECTANGLE (width height : R) (rectColor : Color)
| SHAPE_DIAMOND (halfWidth halfHeight : R) (diamondColor : Color)
| SHAPE_CIRCLE_ARC (data : ShapeDataArcCircle).

(** [struct GameObject]; the function pointers are fixed by [type]
    (see the constructors) and are dispatched on [shapeData]. *)
Record GameObject := mkGameObject {
  objPosition : Vector2;
  objVelocity : Vector2;
  shapeData : ShapeData;
  isStatic : bool;
  objOnCollisionEffects : list CollisionEffect;
  objMarkedForDeletion : bool
}.

(** Observable audio calls. *)
Inductive SoundEvent :=
| ToggleSound (s : Sound)   (* IsSoundPlaying ? StopSound : PlaySound *)
| PlaySound (s : Sound).

(** The memory the physics core touches: the bouncing object being
    simulated, the obstacle list, and the audio calls made so far. *)
Record World := mkWorld {
  wBall : BouncingObject;
  wObjects : list GameObject;
  wSounds : list SoundEvent
}.

(** ** [applyEffects] (objects.c, 1080-1163) *)

(** One effect of the bouncing object's own list (lines 1084-1121). *)
Definition applyBallEffect (isOngoingCollision : bool) (st : BouncingObject * list SoundEvent)
    (effect : CollisionEffect) : BouncingObject * list SoundEvent :=
  let '(b, snd) := st in
  if isOngoingCollision && negb (continuous effect) then st
  else match params effect with
  | EFFECT_COLOR_CHANGE c => (set_color b c, snd)
  | EFFECT_VELOCITY_BOOST f => (set_velocity b (Vector2Scale (velocity b) f), snd)
  | EFFECT_VELOCITY_DAMPEN f => (set_velocity b (Vector2Scale (velocity b) f), snd)
  | EFFECT_SIZE_CHANGE f => (set_radius b (Clamp (radius b * f) 2 100), snd)
  | EFFECT_SOUND_PLAY s =>
      if negb isOngoingCollision || continuous effect then (b, snd ++ [ToggleSound s])
      else st
  | EFFECT_BALL_DISAPPEAR _ _ => (set_markedForDeletion b true, snd)
  | EFFECT_BALL_SPAWN _ _ _ => st
  end.

(** One effect of the game object's list (lines 1129-1159). *)
Definition applyObjectEffect (isOngoingCollision : bool) (st : BouncingObject * list SoundEvent)
    (effect : CollisionEffect) : BouncingObject * list SoundEvent :=
  let '(b, snd) := st in
  if isOngoingCollision && negb (continuous effect) then st
  else match params effect with
  | EFFECT_COLOR_CHANGE c => (set_color b c, snd)
  | EFFECT_VELOCITY_BOOST f => (set_velocity b (Vector2Scale (velocity b) f), snd)
  | EFFECT_VELOCITY_DAMPEN f => (set_velocity b (Vector2Scale (velocity b) f), snd)
  | EFFECT_SIZE_CHANGE f => (set_radius b (Clamp (radius b * f) 2 100), snd)
  | EFFECT_SOUND_PLAY s =>
      if negb isOngoingCollision || continuous effect then (b, snd ++ [PlaySound s])
      else st
  | EFFECT_BALL_DISAPPEAR _ _ => st
  | EFFECT_BALL_SPAWN _ _ _ => st
  end.

Definition applyEffects (bouncingObj : BouncingObject) (gameObj : option GameObject)
    (isOngoingCollision : bool) (snd : list SoundEvent) : BouncingObject * list SoundEvent :=
  let st := fold_left (applyBallEffect isOngoingCollision)
              (onCollisionEffects bouncingObj) (bouncingObj, snd) in
  match gameObj with
  | Some g => fold_left (applyObjectEffect isOngoingCollision) (objOnCollisionEffects g) st
  | None => st
  end.

(** ** Shape colliders *)

(** What a [checkCollision] call leaves to its caller: [false], [true]
    with both out-parameters written, or [true] with the out-parameters
    left unwritten (the early [return collided;] of the arc, line 736). *)
Inductive CollisionResult :=
| NoCollision
| Collision (toi : R) (normal : Vector2)
| CollisionOutUnset.

(** The loop shared by [checkCollisionRectangleObj] (293-331) and
    [checkCollisionDiamondObj] (365-393) over the four boundary segments. *)
Definition segmentsCollision (segments : list (Vector2 * Vector2))
    (ballPos relBallVel : Vector2) (ballRadius dt_step : R) : CollisionResult :=
  let '(min_toi, collided_overall, normal) :=
    fold_left
      (fun (acc : SweepAcc) (seg : Vector2 * Vector2) =>
         let '(m, _, _) := acc in
         match sweptBallToStaticSegmentCollision (fst seg) (snd seg)
                 ballPos relBallVel ballRadius dt_step with
         | Some (t, n) =>
             if Rleb (- EPSILON2) t && Rltb t m then (t, true, n) else acc
         | None => acc
         end)
      segments (dt_step + EPSILON2, false, Vector2Zero) in
  if collided_overall then Collision min_toi normal else NoCollision.

Definition checkCollisionRectangleObj (self : GameObject) (width height : R)
    (bouncingObj : BouncingObject) (dt_step : R) : CollisionResult :=
  let relBallVel := Vector2Subtract (velocity bouncingObj) (objVelocity self) in
  let hw := width / 2 in
  let hh := height / 2 in
  let objPos := objPosition self in
  let p1 := mkVector2 (x objPos - hw) (y objPos - hh) in
  let p2 := mkVector2 (x objPos + hw) (y objPos - hh) in
  let p3 := mkVector2 (x objPos + hw) (y objPos + hh) in
  let p4 := mkVector2 (x objPos - hw) (y objPos + hh) in
  segmentsCollision [(p1, p2); (p2, p3); (p3, p4); (p4, p1)]
    (position bouncingObj) relBallVel (radius bouncingObj) dt_step.

Definition checkCollisionDiamondObj (self : GameObject) (halfWidth halfHeight : R)
    (bouncingObj : BouncingObject) (dt_step : R) : CollisionResult :=
  let relBallVel := Vector2Subtract (velocity bouncingObj) (objVelocity self) in
  let p := objPosition self in
  let topV := mkVector2 (x p) (y p - halfHeight) in
  let rightV := mkVector2 (x p + halfWidth) (y p) in
  let bottomV := mkVector2 (x p) (y p + halfHeight) in
  let leftV := mkVector2 (x p - halfWidth) (y p) in
  segmentsCollision [(topV, rightV); (rightV, bottomV); (bottomV, leftV); (leftV, topV)]
    (position bouncingObj) relBallVel (radius bouncingObj) dt_step.

(** The root choice of the arc's circle tests (lines 557-563, 602-608):
    unlike the point sweep, [t2] is taken only when [t1] was rejected. *)
Definition arcRootChoice (t1 t2 dt_step : R) : R :=
  let t_collision := if inWindow t1 dt_step then t1 else -1 in
  if inWindow t2 dt_step && Rltb t_collision (- EPSILON2) then t2 else t_collision.

(** Lines 500-724 of [checkCollisionArcCircleObj]: the geometric part,
    which yields [(min_toi, collided, final_normal)]. *)
Definition arcGeometry (arcCenter objVel : Vector2) (data : ShapeDataArcCircle)
    (bouncingObj : BouncingObject) (dt_step : R) : SweepAcc :=
  let relBallVel := Vector2Subtract (velocity bouncingObj) objVel in
  let acc0 : SweepAcc := (dt_step + EPSILON2, false, Vector2Zero) in
  let innerRadius := arcRadius data - thickness data / 2 in
  let outerRadius := arcRadius data + thickness data / 2 in
  let relPos := Vector2Subtract (position bouncingObj) arcCenter in
  let inArc p := isPointWithinArcAngles p arcCenter (startAngle data) (endAngle data)
                   (rotation data) in
  (* 1. outer boundary *)
  let acc1 :=
    let combinedRadius := radius bouncingObj + outerRadius in
    let a := Vector2DotProduct relBallVel relBallVel in
    let b := 2 * Vector2DotProduct relPos relBallVel in
    let c := Vector2DotProduct relPos relPos - combinedRadius * combinedRadius in
    if Rltb (Rabs a) EPSILON2 then
      if Rleb c 0 then
        let distance := Vector2Length relPos in
        if Rleb distance (combinedRadius + EPSILON2) then
          let final_normal :=
            if Rltb distance EPSILON2 then
              let n := Vector2Normalize relBallVel in
              if Rltb (Vector2LengthSqr n) EPSILON2 then mkVector2 1 0 else Vector2Negate n
            else Vector2Normalize relPos in
          (0, true, final_normal)
        else acc0
      else acc0
    else
      let discriminant := b * b - 4 * a * c in
      if Rleb 0 discriminant then
        let sqrt_d := sqrt discriminant in
        let t_collision :=
          arcRootChoice ((- b - sqrt_d) / (2 * a)) ((- b + sqrt_d) / (2 * a)) dt_step in
        let '(m, _, _) := acc0 in
        if Rleb (- EPSILON2) t_collision && Rltb t_collision m then
          let ballPosAtToi :=
            Vector2Add (position bouncingObj) (Vector2Scale relBallVel t_collision) in
          if inArc ballPosAtToi
          then (t_collision, true, Vector2Normalize (Vector2Subtract ballPosAtToi arcCenter))
          else acc0
        else acc0
      else acc0 in
  (* 2. inner boundary *)
  let acc2 :=
    if Rltb EPSILON2 innerRadius then
      let combinedRadius := innerRadius - radius bouncingObj in
      if Rltb EPSILON2 combinedRadius then
        let a := Vector2DotProduct relBallVel relBallVel in
        let b := 2 * Vector2DotProduct relPos relBallVel in
        let c := Vector2DotProduct relPos relPos - combinedRadius * combinedRadius in
        if Rleb EPSILON2 (Rabs a) then
          let discriminant := b * b - 4 * a * c in
          if Rleb 0 discriminant then
            let sqrt_d := sqrt discriminant in
            let t_collision :=
              arcRootChoice ((- b - sqrt_d) / (2 * a)) ((- b + sqrt_d) / (2 * a)) dt_step in
            let '(m, _, _) := acc1 in
            if Rleb (- EPSILON2) t_collision && Rltb t_collision m then
              let ballPosAtToi :=
                Vector2Add (position bouncingObj) (Vector2Scale relBallVel t_collision) in
              if inArc ballPosAtToi
              then (t_collision, true, Vector2Normalize (Vector2Subtract arcCenter ballPosAtToi))
              else acc1
            else acc1
          else acc1
        else acc1
      else acc1
    else acc1 in
  (* 3. end points and end caps *)
  if Rltb (endAngle data - startAngle data) 360 then
    let startRad := (startAngle data + rotation data) * DEG2RAD in
    let endRad := (endAngle data + rotation data) * DEG2RAD in
    let onCircle rr ang := mkVector2 (x arcCenter + rr * cos ang) (y arcCenter + rr * sin ang) in
    let startOuter := onCircle outerRadius startRad in
    let endOuter := onCircle outerRadius endRad in
    let startInner := onCircle innerRadius startRad in
    let endInner := onCircle innerRadius endRad in
    let pointHit p :=
      sweptBallToStaticPointCollision p (position bouncingObj) relBallVel
        (radius bouncingObj) dt_step in
    let segHit p q :=
      sweptBallToStaticSegmentCollision p q (position bouncingObj) relBallVel
        (radius bouncingObj) dt_step in
    let acc3 := keepEarlier (pointHit endOuter) (keepEarlier (pointHit startOuter) acc2) in
    if Rltb EPSILON2 innerRadius then
      keepEarlier (segHit endInner endOuter)
        (keepEarlier (segHit startInner startOuter)
           (keepEarlier (pointHit endInner) (keepEarlier (pointHit startInner) acc3)))
    else acc3
  else acc2.

Section Callbacks.

(** The application-supplied arc callbacks: [callback(self, bouncingObj)]
    may act on anything reachable; [self] is given by its index in the
    obstacle list. *)
Variable runArcCallback : ArcCircleCallback -> nat -> World -> World.

(** The indeterminate contents of an out-parameter that the callee left
    unwritten. *)
Variable indeterminateOut : R * Vector2.

Definition runCallbacks (cbs : list ArcCircleCallback) (selfIdx : nat) (w : World) : World :=
  fold_left (fun w cb => runArcCallback cb selfIdx w) cbs w.

Definition markBall (w : World) : World :=
  mkWorld (set_markedForDeletion (wBall w) true) (wObjects w) (wSounds w).

(** Lines 725-786: the collision callbacks and the out-parameters. *)
Definition arcFinish (selfIdx : nat) (data : ShapeDataArcCircle) (acc : SweepAcc)
    (w : World) : World * CollisionResult :=
  let '(min_toi, collided, final_normal) := acc in
  if collided then (runCallbacks (onCollisionCallbacks data) selfIdx w,
                    Collision min_toi final_normal)
  else (w, NoCollision).

Definition checkCollisionArcCircleObj (selfIdx : nat) (self : GameObject)
    (data : ShapeDataArcCircle) (w : World) (dt_step : R) : World * CollisionResult :=
  let bouncingObj := wBall w in
  let arcCenter := objPosition self in
  let acc := arcGeometry arcCenter (objVelocity self) data bouncingObj dt_step in
  match onEscapeCallbacks data with
  | [] => arcFinish selfIdx data acc w
  | escapeCbs =>
      let ballPosAfterStep :=
        Vector2Add (position bouncingObj) (Vector2Scale (velocity bouncingObj) dt_step) in
      let ballIsInsideNow :=
        isBallInsideCircle (position bouncingObj) arcCenter (arcRadius data) (thickness data) in
      let ballWillBeInsideAfter :=
        isBallInsideCircle ballPosAfterStep arcCenter (arcRadius data) (thickness data) in
      if negb ballIsInsideNow && negb ballWillBeInsideAfter then
        (w, let '(_, collided, _) := acc in
            if collided then CollisionOutUnset else NoCollision)
      else if ballIsInsideNow && negb ballWillBeInsideAfter then
        let ballRelPos := Vector2Subtract (position bouncingObj) arcCenter in
        let outerRadius := arcRadius data + thickness data / 2 in
        let escapePoint :=
          Vector2Add arcCenter (Vector2Scale (Vector2Normalize ballRelPos) outerRadius) in
        if negb (isPointWithinArcAngles escapePoint arcCenter (startAngle data)
                   (endAngle data) (rotation data)) then
          let w1 := runCallbacks escapeCbs selfIdx w in
          let w2 := if removeEscapedBalls data then markBall w1 else w1 in
          arcFinish selfIdx data acc w2
        else arcFinish selfIdx data acc w
      else arcFinish selfIdx data acc w
  end.

(** [obj->checkCollision(obj, bouncingObj, dt_step, ...)] *)
Definition checkCollision (i : nat) (obj : GameObject) (w : World) (dt_step : R)
    : World * CollisionResult :=
  match shapeData obj with
  | SHAPE_RECTANGLE wd ht _ => (w, checkCollisionRectangleObj obj wd ht (wBall w) dt_step)
  | SHAPE_DIAMOND hw hh _ => (w, checkCollisionDiamondObj obj hw hh (wBall w) dt_step)
  | SHAPE_CIRCLE_ARC data => checkCollisionArcCircleObj i obj data w dt_step
  end.

(** The values the caller reads from its out-parameters after a [true]
    return. *)
Definition readOutParams (r : CollisionResult) : option (R * Vector2) :=
  match r with
  | NoCollision => None
  | Collision t n => Some (t, n)
  | CollisionOutUnset => Some indeterminateOut
  end.

(** ** [handleBouncingObjectCollisions] (main.c, 117-216) *)

Definition moveBall (w : World) (p : Vector2) : World :=
  mkWorld (set_position (wBall w) p) (wObjects w) (wSounds w).

(** Lines 122-133, one obstacle of the depenetration pre-pass.  The
    obstacle visited at step [i] is the [i]-th of the current list. *)
Definition depenetrateStep (w : World) (i : nat) : World :=
  match nth_error (wObjects w) i with
  | None => w
  | Some obj =>
      let '(w1, r) := checkCollision i obj w EPSILON2 in
      match readOutParams r with
      | Some (dummy_toi, normal) =>
          if Rltb dummy_toi EPSILON2 && Rltb EPSILON2 (Vector2LengthSqr normal) then
            let b := wBall w1 in
            moveBall w1 (Vector2Add (position b) (Vector2Scale normal (radius b * (1 / 10))))
          else w1
      | None => w1
      end
  end.

Definition depenetrate (w : World) : World :=
  fold_left depenetrateStep (seq 0 (length (wObjects w))) w.

(** Lines 136-155: earliest collision over all obstacles, as
    [(world, timeToFirstCollision, (index of firstCollidingObject,
    firstCollisionNormal))]. *)
Definition earliestStep (remaining : R)
    (st : World * R * option (nat * Vector2)) (i : nat) : World * R * option (nat * Vector2) :=
  let '(w, timeToFirstCollision, first) := st in
  match nth_error (wObjects w) i with
  | None => st
  | Some obj =>
      let '(w1, r) := checkCollision i obj w remaining in
      match readOutParams r with
      | Some (toi_candidate, normal_candidate) =>
          if Rleb (- EPSILON2) toi_candidate && Rltb toi_candidate timeToFirstCollision
          then (w1, toi_candidate, Some (i, normal_candidate))
          else (w1, timeToFirstCollision, first)
      | None => (w1, timeToFirstCollision, first)
      end
  end.

Definition findEarliestCollision (w : World) (remaining : R)
    : World * R * option (nat * Vector2) :=
  fold_left (earliestStep remaining) (seq 0 (length (wObjects w))) (w, remaining, None).

(** Lines 171-210: response to the earliest collision. *)
Definition resolveCollision (w : World) (firstCollidingObject : GameObject)
    (firstCollisionNormal : Vector2) : World :=
  let ball := wBall w in
  let ball' :=
    if Rltb EPSILON2 (Vector2LengthSqr firstCollisionNormal) then
      let b1 := set_velocity ball
                  (Vector2Scale (Vector2Reflect (velocity ball) firstCollisionNormal)
                     (restitution ball)) in
      set_position b1 (Vector2Add (position b1)
                         (Vector2Scale firstCollisionNormal (radius b1 * (5 / 100))))
    else
      let pushDir := Vector2Normalize
                       (Vector2Subtract (position ball) (objPosition firstCollidingObject)) in
      if Rltb EPSILON2 (Vector2LengthSqr pushDir) then
        let b1 := set_position ball (Vector2Add (position ball)
                                       (Vector2Scale pushDir (radius ball * (1 / 10)))) in
        set_velocity b1 (Vector2Scale (Vector2Reflect (velocity b1) pushDir) (restitution b1))
      else ball in
  let '(ball'', snd) := applyEffects ball' (Some firstCollidingObject) false (wSounds w) in
  mkWorld ball'' (wObjects w) snd.

(** One iteration of the substep loop (lines 136-212, without the
    counter). *)
Definition substep (w : World) (remainingTimeThisFrame : R) : World * R :=
  let '(w1, timeToFirstCollision, first) := findEarliestCollision w remainingTimeThisFrame in
  let t := fmaxf 0 timeToFirstCollision in
  let b := wBall w1 in
  let w2 := moveBall w1 (Vector2Add (position b) (Vector2Scale (velocity b) t)) in
  let remaining' := remainingTimeThisFrame - t in
  match first with
  | Some (i, n) =>
      match nth_error (wObjects w2) i with
      | Some obj => (resolveCollision w2 obj n, remaining')
      | None => (w2, remaining')
      end
  | None => (w2, remaining')
  end.

(** Lines 135-213.  [fuel] only bounds the recursion: started at
    [Z.to_nat maxSubsteps] it never runs out before the loop condition
    fails (lemma [substepLoop_fuel_enough]). *)
Fixpoint substepLoop (fuel : nat) (maxSubsteps : Z) (w : World)
    (remainingTimeThisFrame : R) (substeps : Z) : World * R * Z :=
  match fuel with
  | O => (w, remainingTimeThisFrame, substeps)
  | S fuel' =>
      if Rltb EPSILON2 remainingTimeThisFrame && Z.ltb substeps maxSubsteps then
        let '(w', rem') := substep w remainingTimeThisFrame in
        substepLoop fuel' maxSubsteps w' rem' (substeps + 1)
      else (w, remainingTimeThisFrame, substeps)
  end.

(** The whole call, with the frame time left over when the loop exits
    (a local of the source, dropped on return). *)
Definition handleBouncingObjectCollisionsFull (w : World) (dt : R) (maxSubsteps : Z)
    : World * R * Z :=
  substepLoop (Z.to_nat maxSubsteps) maxSubsteps (depenetrate w) dt 0.

Definition handleBouncingObjectCollisions (w : World) (dt : R) (maxSubsteps : Z) : World * Z :=
  let '(w', _, substeps) := handleBouncingObjectCollisionsFull w dt maxSubsteps in
  (w', substeps).

End Callbacks.

(** ** [handleBallToBallCollisions] (main.c, 63-113) *)

(** Body of the inner loop for one pair (lines 74-110). *)
Definition resolveBallPair (ball1 ball2 : BouncingObject) : BouncingObject * BouncingObject :=
  let distance := Vector2Distance (position ball1) (position ball2) in
  let minDistance := radius ball1 + radius ball2 in
  if Rltb distance minDistance then
    let normal := Vector2Normalize (Vector2Subtract (position ball2) (position ball1)) in
    let overlap := minDistance - distance in
    let totalMass := mass ball1 + mass ball2 in
    let ball1Ratio := mass ball2 / totalMass in
    let ball2Ratio := mass ball1 / totalMass in
    let b1 := set_position ball1
                (Vector2Subtract (position ball1) (Vector2Scale normal (overlap * ball1Ratio))) in
    let b2 := set_position ball2
                (Vector2Add (position ball2) (Vector2Scale normal (overlap * ball2Ratio))) in
    let relativeVelocity := Vector2Subtract (velocity b1) (velocity b2) in
    let impulseMagnitude :=
      (- (1 + restitution b1 * restitution b2) * Vector2DotProduct relativeVelocity normal)
        / (1 / mass b1 + 1 / mass b2) in
    (set_velocity b1 (Vector2Add (velocity b1) (Vector2Scale normal (impulseMagnitude / mass b1))),
     set_velocity b2 (Vector2Subtract (velocity b2)
                        (Vector2Scale normal (impulseMagnitude / mass b2))))
  else (ball1, ball2).

(** The inner loop over [ball2] (lines 69-111), for a fixed [ball1]. *)
Fixpoint ballPairsWith (ball1 : BouncingObject) (rest : list BouncingObject)
    : BouncingObject * list BouncingObject :=
  match rest with
  | [] => (ball1, [])
  | ball2 :: rest' =>
      if interactWithOtherBouncingObjects ball2 then
        let '(b1, b2) := resolveBallPair ball1 ball2 in
        let '(b1', rest'') := ballPairsWith b1 rest' in (b1', b2 :: rest'')
      else
        let '(b1', rest'') := ballPairsWith ball1 rest' in (b1', ball2 :: rest'')
  end.

(** The outer loop over [ball1].  [ballPairsWith] keeps the length of
    the tail, so [fuel = length] is never exhausted before the list. *)
Fixpoint ballToBallLoop (fuel : nat) (bouncingObjectList : list BouncingObject)
    : list BouncingObject :=
  match fuel, bouncingObjectList with
  | O, l => l
  | S _, [] => []
  | S fuel', ball1 :: rest =>
      if interactWithOtherBouncingObjects ball1 then
        let '(b1, rest') := ballPairsWith ball1 rest in
        b1 :: ballToBallLoop fuel' rest'
      else ball1 :: ballToBallLoop fuel' rest
  end.

(** [dt] is unused by the source. *)
Definition handleBallToBallCollisions (bouncingObjectList : list BouncingObject) (dt : R)
    : list BouncingObject :=
  ballToBallLoop (length bouncingObjectList) bouncingObjectList.

(** ** Allocation and constructors *)

(** The C heap as far as the constructors see it: the live blocks, the
    next fresh address and the outcomes of the coming [malloc] calls
    ([false]: [malloc] returns [NULL]; an exhausted list succeeds). *)
Record Heap := mkHeap { live : list nat; nextAddr : nat; mallocOutcomes : list bool }.

Definition malloc (h : Heap) : option nat * Heap :=
  match mallocOutcomes h with
  | false :: rest => (None, mkHeap (live h) (nextAddr h) rest)
  | true :: rest => (Some (nextAddr h), mkHeap (nextAddr h :: live h) (S (nextAddr h)) rest)
  | [] => (Some (nextAddr h), mkHeap (nextAddr h :: live h) (S (nextAddr h)) [])
  end.

Fixpoint removeFirst (a : nat) (l : list nat) : list nat :=
  match l with
  | [] => []
  | b :: l' => if Nat.eqb a b then l' else b :: removeFirst a l'
  end.

Definition free (a : nat) (h : Heap) : Heap :=
  mkHeap (removeFirst a (live h)) (nextAddr h) (mallocOutcomes h).

(** Shape-independent part of the obstacle constructors: allocate the
    [GameObject], then the shape data; on the second failure free the
    first block.  [uninitEffects] is what [onCollisionEffects] holds
    when the constructor leaves it unwritten (rectangle, diamond). *)
Definition allocGameObject (h : Heap) (build : GameObject) : option GameObject * Heap :=
  let '(o, h1) := malloc h in
  match o with
  | None => (None, h1)
  | Some objAddr =>
      let '(d, h2) := malloc h1 in
      match d with
      | None => (None, free objAddr h2)
      | Some _ => (Some build, h2)
      end
  end.

Definition createRectangleObject (h : Heap) (position velocity : Vector2) (width height : R)
    (color : Color) (isStatic : bool) (uninitEffects : list CollisionEffect)
    : option GameObject * Heap :=
  allocGameObject h
    (mkGameObject position (if isStatic then Vector2Zero else velocity)
       (SHAPE_RECTANGLE width height color) isStatic uninitEffects false).

Definition createDiamondObject (h : Heap) (position velocity : Vector2) (diagWidth diagHeight : R)
    (color : Color) (isStatic : bool) (uninitEffects : list CollisionEffect)
    : option GameObject * Heap :=
  allocGameObject h
    (mkGameObject position (if isStatic then Vector2Zero else velocity)
       (SHAPE_DIAMOND (diagWidth / 2) (diagHeight / 2) color) isStatic uninitEffects false).

Definition createArcCircleObject (h : Heap) (position velocity : Vector2)
    (radius startAngle endAngle thickness : R) (color : Color) (isStatic : bool)
    (rotationSpeed : R) (removeEscapedBalls : bool) : option GameObject * Heap :=
  allocGameObject h
    (mkGameObject position (if isStatic then Vector2Zero else velocity)
       (SHAPE_CIRCLE_ARC (mkArcData radius startAngle endAngle thickness color 0
                            rotationSpeed removeEscapedBalls [] []))
       isStatic [] false).

(** [createBouncingObject] (objects.c, 872-888). *)
Definition createBouncingObject (h : Heap) (position velocity : Vector2) (radius : R)
    (color : Color) (mass restitution : R) (interactWithOtherBouncingObjects : bool)
    : option BouncingObject * Heap :=
  let '(o, h1) := malloc h in
  match o with
  | None => (None, h1)
  | Some _ =>
      (Some (mkBouncingObject position velocity radius color
               (if Rltb 0 mass then mass else 1)
               (Clamp restitution 0 1)
               interactWithOtherBouncingObjects false []), h1)
  end.

(** [addObjectToList] (188-192) and [addBouncingObjectToList] (891-895):
    push at the head, ignore [NULL]. *)
Definition addObjectToList (head : list GameObject) (newObject : option GameObject)
    : list GameObject :=
  match newObject with None => head | Some o => o :: head end.

Definition addBouncingObjectToList (head : list BouncingObject)
    (newObject : option BouncingObject) : list BouncingObject :=
  match newObject with None => head | Some o => o :: head end.

(** ** Sample scene used to exercise the statements *)

Definition red : Color := mkColor 230 41 55 255.

(** A ball at rest at the origin, radius 10, mass 1, restitution 1. *)
Definition sampleBall : BouncingObject :=
  mkBouncingObject (mkVector2 0 0) (mkVector2 0 0) 10 red 1 1 true false [].

Definition sampleRect : GameObject :=
  mkGameObject (mkVector2 100 100) Vector2Zero (SHAPE_RECTANGLE 20 20 red) true [] false.

Definition sampleWorld : World := mkWorld sampleBall [sampleRect] [].

(** No application callback, and a fixed value for unwritten
    out-parameters. *)
Definition noCallback : ArcCircleCallback -> nat -> World -> World := fun _ _ w => w.
Definition noOut : R * Vector2 := (0, Vector2Zero).

Definition origin : Vector2 := mkVector2 0 0.

(** The point at 350 degrees on the unit circle about the origin. *)
Definition point350 : Vector2 := mkVector2 (cos (- (PI / 18))) (sin (- (PI / 18))).

(** Ball and obstacle carrying one-shot effects only. *)
Definition ballWithEffects : BouncingObject :=
  mkBouncingObject (mkVector2 0 0) (mkVector2 3 4) 10 red 1 1 true false
    [mkEffect (EFFECT_COLOR_CHANGE (mkColor 0 0 0 255)) false;
     mkEffect (EFFECT_VELOCITY_BOOST 2) false;
     mkEffect (EFFECT_BALL_DISAPPEAR 5 red) false].

Definition rectWithEffects : GameObject :=
  mkGameObject (mkVector2 100 100) Vector2Zero (SHAPE_RECTANGLE 20 20 red) true
    [mkEffect (EFFECT_SOUND_PLAY 7%nat) false; mkEffect (EFFECT_SIZE_CHANGE 3) false] false.

(** Product of the factors of the velocity effects of a list
    ([EFFECT_VELOCITY_BOOST] and [EFFECT_VELOCITY_DAMPEN] scale the
    velocity; the other effects leave it alone). *)
Definition effectVelocityFactor (e : CollisionEffect) : R :=
  match params e with
  | EFFECT_VELOCITY_BOOST f => f
  | EFFECT_VELOCITY_DAMPEN f => f
  | _ => 1
  end.

Definition velocityFactor (effects : list CollisionEffect) : R :=
  fold_right (fun e acc => effectVelocityFactor e * acc) 1 effects.

(** A ball moving at unit speed that carries a one-shot dampen effect. *)
Definition dampenedBall : BouncingObject :=
  mkBouncingObject (mkVector2 0 0) (mkVector2 1 0) 10 red 1 1 true false
    [mkEffect (EFFECT_VELOCITY_DAMPEN (1 / 2)) false].

Definition dampenedWorld : World := mkWorld dampenedBall [sampleRect] [].

(** ** Screen boundaries and per-frame motion (main.c, objects.c) *)

(** [#define SCREEN_WIDTH 1080], [#define SCREEN_HEIGHT 720] (common.h). *)

Definition SCREEN_WIDTH : R := 1080.

Definition SCREEN_HEIGHT : R := 720.

(** [applyScreenBoundaryCollisions] (main.c, 34-60): the [x] and [y]
    tests are independent; [reflected] is the disjunction of the two. *)

Definition applyScreenBoundaryCollisions (obj : BouncingObject) : BouncingObject :=
  let p := position obj in
  let v := velocity obj in
  let r := radius obj in
  let '(px, vx, reflectedX) :=
    if Rltb (x p - r) 0 then
      (r + EPSILON2, (if Rltb (x v) 0 then x v * -1 else x v), true)
    else if Rltb SCREEN_WIDTH (x p + r) then
      (SCREEN_WIDTH - r - EPSILON2, (if Rltb 0 (x v) then x v * -1 else x v), true)
    else (x p, x v, false) in
  let '(py, vy, reflectedY) :=
    if Rltb (y p - r) 0 then
      (r + EPSILON2, (if Rltb (y v) 0 then y v * -1 else y v), true)
    else if Rltb SCREEN_HEIGHT (y p + r) then
      (SCREEN_HEIGHT - r - EPSILON2, (if Rltb 0 (y v) then y v * -1 else y v), true)
    else (y p, y v, false) in
  let v' := mkVector2 vx vy in
  set_velocity (set_position obj (mkVector2 px py))
    (if reflectedX || reflectedY then Vector2Scale v' (99 / 100) else v').

(** The four wrap tests shared by [updateGenericMovingObject],
    [updateArcCircleObj] and [updateBouncingObjectList], in source order. *)

Definition screenWrap (p : Vector2) : Vector2 :=
  let px := if Rltb (x p) (-50) then SCREEN_WIDTH + 40 else x p in
  let px := if Rltb (SCREEN_WIDTH + 50) px then -40 else px in
  let py := if Rltb (y p) (-50) then SCREEN_HEIGHT + 40 else y p in
  let py := if Rltb (SCREEN_HEIGHT + 50) py then -40 else py in
  mkVector2 px py.

Definition set_objPosition (o : GameObject) (p : Vector2) : GameObject :=
  mkGameObject p (objVelocity o) (shapeData o) (isStatic o) (objOnCollisionEffects o)
    (objMarkedForDeletion o).

(** [updateGenericMovingObject] (objects.c, 256-265). *)

Definition updateGenericMovingObject (self : GameObject) (dt : R) : GameObject :=
  if isStatic self then self
  else set_objPosition self
         (screenWrap (Vector2Add (objPosition self) (Vector2Scale (objVelocity self) dt))).

Definition set_rotation (d : ShapeDataArcCircle) (r : R) : ShapeDataArcCircle :=
  mkArcData (arcRadius d) (startAngle d) (endAngle d) (thickness d) (arcColor d) r
    (rotationSpeed d) (removeEscapedBalls d) (onCollisionCallbacks d) (onEscapeCallbacks d).

(** The two normalisation loops of [updateArcCircleObj]
    ([while (rotation > 360) rotation -= 360;] and
    [while (rotation < 0) rotation += 360;]), fuel-bounded;
    [rotationFuel] iterations are enough (see [rotationFuel_bound]). *)

Fixpoint rotationDownLoop (fuel : nat) (rotation : R) : R :=
  match fuel with
  | O => rotation
  | S fuel' => if Rltb 360 rotation then rotationDownLoop fuel' (rotation - 360) else rotation
  end.

Fixpoint rotationUpLoop (fuel : nat) (rotation : R) : R :=
  match fuel with
  | O => rotation
  | S fuel' => if Rltb rotation 0 then rotationUpLoop fuel' (rotation + 360) else rotation
  end.

Definition rotationFuel (rotation : R) : nat := Z.to_nat (up (Rabs rotation / 360)).

(** [updateArcCircleObj] (objects.c, 430-455), on an arc's shape data. *)

Definition updateArcCircleObj (self : GameObject) (dt : R) : GameObject :=
  match shapeData self with
  | SHAPE_CIRCLE_ARC data =>
      let rot := rotation data + rotationSpeed data * dt in
      let pos := if isStatic self then objPosition self
                 else Vector2Add (objPosition self) (Vector2Scale (objVelocity self) dt) in
      let rot := rotationDownLoop (rotationFuel rot) rot in
      let rot := rotationUpLoop (rotationFuel rot) rot in
      mkGameObject (screenWrap pos) (objVelocity self) (SHAPE_CIRCLE_ARC (set_rotation data rot))
        (isStatic self) (objOnCollisionEffects self) (objMarkedForDeletion self)
  | _ => self
  end.

(** The [update] pointer installed by the constructors: rectangles and
    diamonds get [updateGenericMovingObject], arcs [updateArcCircleObj]. *)

Definition updateObject (o : GameObject) (dt : R) : GameObject :=
  match shapeData o with
  | SHAPE_CIRCLE_ARC _ => updateArcCircleObj o dt
  | _ => updateGenericMovingObject o dt
  end.

(** [updateObjectList] (objects.c, 208-214). *)

Definition updateObjectList (head : list GameObject) (dt : R) : list GameObject :=
  map (fun o => updateObject o dt) head.

(** [updateBouncingObjectList] (objects.c, 942-953). *)

Definition updateBouncingObjectList (head : list BouncingObject) (dt : R) : list BouncingObject :=
  map (fun b => set_position b
         (screenWrap (Vector2Add (position b) (Vector2Scale (velocity b) dt)))) head.

(** The band every wrapped position lies in. *)

Definition onScreenBand (p : Vector2) : Prop :=
  -50 <= x p <= SCREEN_WIDTH + 50 /\ -50 <= y p <= SCREEN_HEIGHT + 50.

(** ** Conserved quantities of the ball-to-ball pass *)

Definition momentum (b : BouncingObject) : Vector2 := Vector2Scale (velocity b) (mass b).

Definition massMoment (b : BouncingObject) : Vector2 := Vector2Scale (position b) (mass b).

Definition kineticEnergy (b : BouncingObject) : R := mass b * Vector2LengthSqr (velocity b) / 2.

Definition totalMomentum (l : list BouncingObject) : Vector2 :=
  fold_right (fun b acc => Vector2Add (momentum b) acc) Vector2Zero l.

Definition totalKineticEnergy (l : list BouncingObject) : R :=
  fold_right (fun b acc => kineticEnergy b + acc) 0 l.

Definition totalMassMoment (l : list BouncingObject) : Vector2 :=
  fold_right (fun b acc => Vector2Add (massMoment b) acc) Vector2Zero l.

(** [b'] is [b] with only its position and velocity changed. *)

Definition sameBody (b b' : BouncingObject) : Prop :=
  b' = set_velocity (set_position b (position b')) (velocity b').

(** What [handleBallToBallCollisions] may do to one ball: move it and
    change its velocity, and only if it interacts with other balls. *)

Definition pairedBody (b b' : BouncingObject) : Prop :=
  sameBody b b' /\ (interactWithOtherBouncingObjects b = false -> b' = b).

Definition physicalBall (b : BouncingObject) : Prop := 0 < mass b /\ 0 <= restitution b <= 1.

(** ** Effects *)

(** The sounds of the [EFFECT_SOUND_PLAY] effects of a list, in order. *)

Definition soundsOf (effects : list CollisionEffect) : list Sound :=
  flat_map (fun e => match params e with EFFECT_SOUND_PLAY s => [s] | _ => [] end) effects.

(** The effects [applyEffects] does not skip
    ([if (isOngoingCollision && !effect->continuous) continue;]). *)

Definition firedEffects (isOngoingCollision : bool) (effects : list CollisionEffect)
    : list CollisionEffect :=
  filter (fun e => negb isOngoingCollision || continuous e) effects.

(** What one call of [applyEffects] may change on the ball. *)

Definition effectFrame (b b' : BouncingObject) : Prop :=
  position b' = position b /\ mass b' = mass b /\ restitution b' = restitution b /\
  interactWithOtherBouncingObjects b' = interactWithOtherBouncingObjects b /\
  onCollisionEffects b' = onCollisionEffects b /\
  (markedForDeletion b = true -> markedForDeletion b' = true) /\
  (radius b' = radius b \/ 2 <= radius b' <= 100).

(** The seven effect constructors (objects.c, 965-1056): [malloc], then
    fill the effect. *)

Definition allocEffect (h : Heap) (effect : CollisionEffect) : option CollisionEffect * Heap :=
  let '(o, h1) := malloc h in
  match o with
  | None => (None, h1)
  | Some _ => (Some effect, h1)
  end.

Definition createColorChangeEffect (h : Heap) (newColor : Color) (continuous : bool) :=
  allocEffect h (mkEffect (EFFECT_COLOR_CHANGE newColor) continuous).


Definition createVelocityDampenEffect (h : Heap) (factor : R) (continuous : bool) :=
  allocEffect h (mkEffect (EFFECT_VELOCITY_DAMPEN (Clamp factor (1 / 100) (99 / 100))) continuous).

Definition createSizeChangeEffect (h : Heap) (factor : R) (continuous : bool) :=
  allocEffect h (mkEffect (EFFECT_SIZE_CHANGE factor) continuous).

Definition createSoundPlayEffect (h : Heap) (sound : Sound) (continuous : bool) :=
  allocEffect h (mkEffect (EFFECT_SOUND_PLAY sound) continuous).

Definition createBallDisappearEffect (h : Heap) (particleCount : Z) (particleColor : Color)
    (continuous : bool) :=
  allocEffect h (mkEffect (EFFECT_BALL_DISAPPEAR particleCount particleColor) continuous).

Definition createBallSpawnEffect (h : Heap) (position : Vector2) (radius : R) (color : Color)
    (continuous : bool) :=
  allocEffect h (mkEffect (EFFECT_BALL_SPAWN position radius color) continuous).

(** ** Arc callbacks (objects.c, 840-867) *)

Definition set_shapeData (o : GameObject) (d : ShapeData) : GameObject :=
  mkGameObject (objPosition o) (objVelocity o) d (isStatic o) (objOnCollisionEffects o)
    (objMarkedForDeletion o).

Definition set_onCollisionCallbacks (d : ShapeDataArcCircle) (cbs : list ArcCircleCallback)
    : ShapeDataArcCircle :=
  mkArcData (arcRadius d) (startAngle d) (endAngle d) (thickness d) (arcColor d) (rotation d)
    (rotationSpeed d) (removeEscapedBalls d) cbs (onEscapeCallbacks d).

Definition set_onEscapeCallbacks (d : ShapeDataArcCircle) (cbs : list ArcCircleCallback)
    : ShapeDataArcCircle :=
  mkArcData (arcRadius d) (startAngle d) (endAngle d) (thickness d) (arcColor d) (rotation d)
    (rotationSpeed d) (removeEscapedBalls d) (onCollisionCallbacks d) cbs.

(** [NULL] pointers are [None]; the object passed is returned with its
    shape data updated.  The callback list is a list, most recent first. *)

Definition addCollisionCallbackToArcCircle (h : Heap) (arcCircle : option GameObject)
    (callback : option ArcCircleCallback) : option GameObject * Heap :=
  match arcCircle, callback with
  | Some o, Some cb =>
      match shapeData o with
      | SHAPE_CIRCLE_ARC data =>
          let '(newNode, h1) := malloc h in
          match newNode with
          | None => (arcCircle, h1)
          | Some _ =>
              (Some (set_shapeData o (SHAPE_CIRCLE_ARC
                       (set_onCollisionCallbacks data (cb :: onCollisionCallbacks data)))), h1)
          end
      | _ => (arcCircle, h)
      end
  | _, _ => (arcCircle, h)
  end.

Definition addEscapeCallbackToArcCircle (h : Heap) (arcCircle : option GameObject)
    (callback : option ArcCircleCallback) : option GameObject * Heap :=
  match arcCircle, callback with
  | Some o, Some cb =>
      match shapeData o with
      | SHAPE_CIRCLE_ARC data =>
          let '(newNode, h1) := malloc h in
          match newNode with
          | None => (arcCircle, h1)
          | Some _ =>
              (Some (set_shapeData o (SHAPE_CIRCLE_ARC
                       (set_onEscapeCallbacks data (cb :: onEscapeCallbacks data)))), h1)
          end
      | _ => (arcCircle, h)
      end
  | _, _ => (arcCircle, h)
  end.

Definition isArc (o : GameObject) : bool :=
  match shapeData o with SHAPE_CIRCLE_ARC _ => true | _ => false end.

(** ** [closestPointOnSegment] (objects.c, 10-18) *)

Definition closestPointOnSegment (p a b : Vector2) : Vector2 :=
  let ap := Vector2Subtract p a in
  let ab := Vector2Subtract b a in
  let ab2 := Vector2DotProduct ab ab in
  if Rltb ab2 EPSILON2 then a
  else
    let t := Vector2DotProduct ap ab / ab2 in
    let t := Clamp t 0 1 in
    Vector2Add a (Vector2Scale ab t).

(** ** Speed controller (main.c, 229-298) *)

(** [speedValues[]], written as the decimals of the source. *)

Definition speedValues : list R :=
  [0/100; 1/100; 2/100; 5/100; 10/100; 20/100; 30/100; 40/100; 50/100; 60/100;
   70/100; 80/100; 90/100; 100/100; 110/100; 120/100; 130/100; 140/100; 150/100;
   160/100; 170/100; 180/100; 190/100; 200/100; 220/100; 240/100; 260/100; 280/100;
   300/100; 400/100; 500/100; 600/100; 700/100; 800/100; 900/100; 1000/100].

Definition numSpeedValues : Z := Z.of_nat (length speedValues).

Definition speedAt (i : Z) : R := nth (Z.to_nat i) speedValues 0.

Record SpeedController := mkSpeedController {
  currentSpeedIndex : Z; timeMultiplier : R }.

Definition initSpeedController : SpeedController := mkSpeedController 13 (speedAt 13).

(** The two button handlers of one frame, decrease first. *)

Definition decreaseSpeed (s : SpeedController) : SpeedController :=
  if Z.gtb (currentSpeedIndex s) 0 then
    let i := (currentSpeedIndex s - 1)%Z in mkSpeedController i (speedAt i)
  else s.

Definition increaseSpeed (s : SpeedController) : SpeedController :=
  if Z.ltb (currentSpeedIndex s) (numSpeedValues - 1) then
    let i := (currentSpeedIndex s + 1)%Z in mkSpeedController i (speedAt i)
  else s.

Definition speedControllerFrame (s : SpeedController) (decreasePressed increasePressed : bool)
    : SpeedController :=
  let s := if decreasePressed then decreaseSpeed s else s in
  if increasePressed then increaseSpeed s else s.

(** The controller after a sequence of frames, each frame given by
    whether decrease and increase were pressed. *)

Definition runSpeedController (inputs : list (bool * bool)) : SpeedController :=
  fold_left (fun s '(d, i) => speedControllerFrame s d i) inputs initSpeedController.

Definition speedInvariant (s : SpeedController) : Prop :=
  (0 <= currentSpeedIndex s < numSpeedValues)%Z /\ timeMultiplier s = speedAt (currentSpeedIndex s).

(** ** The linked lists at pointer level

    The definitions above model a [next]-linked list by the list of its
    elements.  The list-management functions of objects.c walk and relink
    the [next] pointers themselves, so here they are modelled over a store
    of nodes: addresses are [nat], [0] is [NULL], a node holds the element
    and its [next] pointer, and [free] makes an address dangle.  The walks
    are bounded by a fuel argument; [None] is an exhausted fuel or a
    dangling pointer. *)
Module Linked.

Section LinkedList.
Context {A : Type}.
Local Open Scope nat_scope.

Record Node := mkNode { val : A; next : nat }.

Definition Store : Type := nat -> option Node.

Definition NULL : nat := 0.

(** The store after one write at address [p]. *)
Definition upd (s : Store) (p : nat) (v : option Node) : Store :=
  fun q => if Nat.eqb q p then v else s q.

Definition freeNode (s : Store) (p : nat) : Store := upd s p None.

(** [p->next = nxt;] *)
Definition set_next (s : Store) (p nxt : nat) : Store :=
  match s p with
  | Some n => upd s p (Some (mkNode (val n) nxt))
  | None => s
  end.

(** [lseg s p ps l]: from [p], the store holds a [NULL]-terminated list
    at the addresses [ps] with the elements [l]. *)
Inductive lseg (s : Store) : nat -> list nat -> list A -> Prop :=
| lseg_nil : lseg s NULL [] []
| lseg_cons : forall p n ps l, p <> NULL -> s p = Some n -> lseg s (next n) ps l ->
    lseg s p (p :: ps) (val n :: l).

Variable marked : A -> bool.

(** The loop of [removeMarkedBouncingObjects] (objects.c, 914-939) and
    [removeMarkedGameObjects] (225-253); [marked] reads the element's
    [markedForDeletion] flag.  [released] lists, in order, the elements
    whose resources were released before their node was freed
    ([freeEffectList(&current->onCollisionEffects)], and [destroy] for a
    [GameObject]). *)
Fixpoint removeMarkedLoop (fuel : nat) (head current prev : nat) (s : Store)
    (released : list A) : option (nat * Store * list A) :=
  match fuel with
  | O => None
  | S fuel' =>
      if Nat.eqb current NULL then Some (head, s, released) else
      match s current with
      | None => None
      | Some n =>
          let nxt := next n in
          if marked (val n) then
            let '(head, s) := if Nat.eqb prev NULL then (nxt, s) else (head, set_next s prev nxt) in
            removeMarkedLoop fuel' head nxt prev (freeNode s current) (released ++ [val n])
          else removeMarkedLoop fuel' head nxt current s released
      end
  end.

(** [current = *head; prev = NULL;] then the loop. *)
Definition removeMarked (fuel : nat) (s : Store) (head : nat) : option (nat * Store * list A) :=
  removeMarkedLoop fuel head head NULL s [].

(** The loop shared by [freeObjectList] (194-206),
    [freeArcCircleCallbackList] (826-837), [freeBouncingObjectList]
    (898-911) and [freeEffectList] (1066-1077); [released] lists the
    elements whose resources were released, in order. *)
Fixpoint freeListLoop (fuel : nat) (current : nat) (s : Store) (released : list A)
    : option (Store * list A) :=
  match fuel with
  | O => None
  | S fuel' =>
      if Nat.eqb current NULL then Some (s, released) else
      match s current with
      | None => None
      | Some n => freeListLoop fuel' (next n) (freeNode s current) (released ++ [val n])
      end
  end.

(** The loop, then [*head = NULL;]. *)
Definition freeList (fuel : nat) (s : Store) (head : nat) : option (nat * Store * list A) :=
  match freeListLoop fuel head s [] with
  | Some (s', released) => Some (NULL, s', released)
  | None => None
  end.



(** [addObjectToList] (188-192), [addBouncingObjectToList] (891-895) and
    [addEffectToList] (1059-1063):
    [if (!newObject) return; newObject->next = *head; *head = newObject;]. *)
Definition addToList (s : Store) (head newObject : nat) : nat * Store :=
  if Nat.eqb newObject NULL then (head, s) else (newObject, set_next s newObject head).

End LinkedList.

Arguments Node : clear implicits.
Arguments Store : clear implicits.

(** The instances of the source, one per element type. *)
Definition removeMarkedBouncingObjects (fuel : nat) (s : Store BouncingObject) (head : nat)
    : option (nat * Store BouncingObject * list BouncingObject) :=
  removeMarked markedForDeletion fuel s head.

Definition removeMarkedGameObjects (fuel : nat) (s : Store GameObject) (head : nat)
    : option (nat * Store GameObject * list GameObject) :=
  removeMarked objMarkedForDeletion fuel s head.

Definition freeBouncingObjectList (fuel : nat) (s : Store BouncingObject) (head : nat) :=
  freeList fuel s head.
Definition freeObjectList (fuel : nat) (s : Store GameObject) (head : nat) :=
  freeList fuel s head.
Definition freeEffectList (fuel : nat) (s : Store CollisionEffect) (head : nat) :=
  freeList fuel s head.
Definition freeArcCircleCallbackList (fuel : nat) (s : Store ArcCircleCallback) (head : nat) :=
  freeList fuel s head.


Definition addBouncingObjectToList (s : Store BouncingObject) (head newObject : nat) :=
  addToList s head newObject.
Definition addObjectToList (s : Store GameObject) (head newObject : nat) :=
  addToList s head newObject.
Definition addEffectToList (s : Store CollisionEffect) (head newEffect : nat) :=
  addToList s head newEffect.

End Linked.

(** The outcome of a [removeMarked*] call on the list [l] at the
    addresses [ps]: the marked elements are released in order, the
    unmarked ones stay linked in order from the new head, every marked
    node is freed and no other address is touched. *)
Definition removedMarked {A : Type} (marked : A -> bool) (s : Linked.Store A) (ps : list nat)
    (l : list A) (r : option (nat * Linked.Store A * list A)) : Prop :=
  exists head' s' ps',
    r = Some (head', s', filter marked l) /\
    Linked.lseg s' head' ps' (filter (fun v => negb (marked v)) l) /\ incl ps' ps /\
    (forall q, q <> Linked.NULL -> ~ In q ps -> s' q = s q) /\
    (forall q n, In q ps -> s q = Some n -> marked (Linked.val n) = true -> s' q = None).

(** The outcome of a [free*List] call: the head is [NULL], every element
    is released in order, every node is freed and no other address is
    touched. *)
Definition freedAll {A : Type} (s : Linked.Store A) (ps : list nat) (l : list A)
    (r : option (nat * Linked.Store A * list A)) : Prop :=
  exists s', r = Some (Linked.NULL, s', l) /\
    (forall q, In q ps -> s' q = None) /\ (forall q, ~ In q ps -> s' q = s q).

(** The outcome of an [add*ToList] call: nothing for [NULL], otherwise
    the new node heads the old list. *)
Definition pushedOnto {A : Type} (s : Linked.Store A) (head : nat) (ps : list nat) (l : list A)
    (newObject : nat) (r : nat * Linked.Store A) : Prop :=
  (newObject = Linked.NULL -> r = (head, s)) /\
  (forall n, newObject <> Linked.NULL -> s newObject = Some n -> ~ In newObject ps ->
     fst r = newObject /\ Linked.lseg (snd r) newObject (newObject :: ps) (Linked.val n :: l)).


(** ** Spawning balls on a click (main.c, 300-327) *)

(** [RAND_MAX] of glibc. *)

Definition RAND_MAX : Z := 2147483647.

(** The nine [rand()] results drawn for one ball, named by their use
    (the order in which C evaluates them is unspecified). *)

Record SpawnDraws := mkSpawnDraws {
  drawVxMag : Z; drawVxSign : Z; drawVyMag : Z; drawVySign : Z;
  drawRadius : Z; drawRed : Z; drawGreen : Z; drawBlue : Z; drawMass : Z }.

(** [rand()] returns a value in [[0, RAND_MAX]]. *)

Definition validDraws (d : SpawnDraws) : Prop :=
  Forall (fun r => (0 <= r <= RAND_MAX)%Z)
    [drawVxMag d; drawVxSign d; drawVyMag d; drawVySign d;
     drawRadius d; drawRed d; drawGreen d; drawBlue d; drawMass d].

Definition randomVelocity (d : SpawnDraws) : Vector2 :=
  mkVector2
    (IZR (100 + drawVxMag d mod 200) * (if Z.eqb (drawVxSign d mod 2) 0 then 1 else -1))
    (IZR (100 + drawVyMag d mod 200) * (if Z.eqb (drawVySign d mod 2) 0 then 1 else -1)).

(** The body of the [do ... while] loop of the click handler:
    [createBouncingObject] with the random parameters; [(float)rand() / RAND_MAX]
    is a real division. *)

Definition spawnBall (h : Heap) (mousePos : Vector2) (d : SpawnDraws)
    : option BouncingObject * Heap :=
  createBouncingObject h mousePos (randomVelocity d)
    (IZR (10 + drawRadius d mod 20))
    (mkColor (drawRed d mod 200 + 55) (drawGreen d mod 200 + 55) (drawBlue d mod 200 + 55) 255)
    (1 / 2 + (IZR (drawMass d) / IZR RAND_MAX) * (5 / 2))
    1 true.

(** A ball some click may spawn. *)

Definition spawnedBall (b : BouncingObject) : Prop :=
  exists h mousePos d, validDraws d /\ fst (spawnBall h mousePos d) = Some b.

(** ** Further sample inputs *)

(** The arc of the demo scene, as [createArcCircleObject] builds it. *)
Definition sampleArcData : ShapeDataArcCircle :=
  mkArcData 100 60 120 20 red 0 30 true [] [].

Definition sampleArc : GameObject :=
  mkGameObject (mkVector2 540 360) Vector2Zero (SHAPE_CIRCLE_ARC sampleArcData) true [] false.

Definition sampleDraws : SpawnDraws := mkSpawnDraws 50 0 150 1 5 10 20 30 0.

Definition sampleSpawned : BouncingObject :=
  mkBouncingObject origin (randomVelocity sampleDraws) 15
    (mkColor 65 75 85 255) (1 / 2) (Clamp 1 0 1) true false [].

(** * Properties *)

(** ** Generic helpers *)

Lemma Rltb_true : forall a b, Rltb a b = true <-> a < b.
Proof. intros a b; unfold Rltb; destruct (Rlt_dec a b); split; intros; auto; congruence. Qed.

Lemma Rltb_false : forall a b, Rltb a b = false <-> b <= a.
Proof.
  intros a b; unfold Rltb; destruct (Rlt_dec a b); split; intros; try congruence; lra.
Qed.

Lemma Rleb_true : forall a b, Rleb a b = true <-> a <= b.
Proof. intros a b; unfold Rleb; destruct (Rle_dec a b); split; intros; auto; congruence. Qed.

Lemma Rleb_false : forall a b, Rleb a b = false <-> b < a.
Proof.
  intros a b; unfold Rleb; destruct (Rle_dec a b); split; intros; try congruence; lra.
Qed.

(** Turn every decided comparison in the hypotheses into its
    proposition. *)
Ltac rcmp :=
  repeat match goal with
  | H : Rltb _ _ = true |- _ => apply Rltb_true in H
  | H : Rltb _ _ = false |- _ => apply Rltb_false in H
  | H : Rleb _ _ = true |- _ => apply Rleb_true in H
  | H : Rleb _ _ = false |- _ => apply Rleb_false in H
  | H : (_ && _)%bool = true |- _ => apply andb_true_iff in H; destruct H
  | H : (_ || _)%bool = false |- _ => apply orb_false_iff in H; destruct H
  end.

Lemma fold_left_invariant {A B : Type} (P : A -> Prop) (f : A -> B -> A) :
  (forall a b, P a -> P (f a b)) -> forall l a, P a -> P (fold_left f l a).
Proof. intros Hf l; induction l as [|b l IH]; intros a Ha; simpl; auto. Qed.

(** ** Effects *)

Definition notContinuous (e : CollisionEffect) : Prop := continuous e = false.

Lemma fold_ball_effects_skip : forall l st,
  Forall notContinuous l -> fold_left (applyBallEffect true) l st = st.
Proof.
  induction l as [|e l IH]; intros [b snd] H; cbn [fold_left]; auto.
  inversion H as [|? ? He Hl]; subst. unfold notContinuous in He.
  assert (applyBallEffect true (b, snd) e = (b, snd)) as ->
    by (unfold applyBallEffect; rewrite He; reflexivity).
  apply IH; auto.
Qed.

Lemma fold_object_effects_skip : forall l st,
  Forall notContinuous l -> fold_left (applyObjectEffect true) l st = st.
Proof.
  induction l as [|e l IH]; intros [b snd] H; cbn [fold_left]; auto.
  inversion H as [|? ? He Hl]; subst. unfold notContinuous in He.
  assert (applyObjectEffect true (b, snd) e = (b, snd)) as ->
    by (unfold applyObjectEffect; rewrite He; reflexivity).
  apply IH; auto.
Qed.

(** ** Allocation *)

Lemma allocGameObject_null_frees : forall h build,
  match fst (allocGameObject h build) with
  | None => live (snd (allocGameObject h build)) = live h
  | Some _ => True
  end.
Proof.
  intros [l n outs] build; unfold allocGameObject, malloc; simpl.
  destruct outs as [|[|] outs]; simpl; auto.
  destruct outs as [|[|] outs]; simpl; auto.
  rewrite Nat.eqb_refl; reflexivity.
Qed.

Lemma allocGameObject_fails : forall l n rest build,
  fst (allocGameObject (mkHeap l n (false :: rest)) build) = None /\
  fst (allocGameObject (mkHeap l n (true :: false :: rest)) build) = None.
Proof. intros; split; reflexivity. Qed.

(** ** Obstacles untouched by the integrator *)

(** An obstacle with no registered arc callback. *)
Definition noArcCallbacks (obj : GameObject) : Prop :=
  match shapeData obj with
  | SHAPE_CIRCLE_ARC d => onCollisionCallbacks d = [] /\ onEscapeCallbacks d = []
  | _ => True
  end.

Lemma checkCollision_world : forall cb i obj w dt,
  noArcCallbacks obj -> fst (checkCollision cb i obj w dt) = w.
Proof.
  intros cb i obj w dt H; unfold checkCollision, noArcCallbacks in *.
  destruct (shapeData obj) as [| |d]; simpl; auto.
  destruct H as [Hc He]; unfold checkCollisionArcCircleObj; rewrite He.
  unfold arcFinish. destruct (arcGeometry _ _ _ _ _) as [[m c] n].
  destruct c; simpl; auto. rewrite Hc; reflexivity.
Qed.

Lemma nth_error_noArc : forall objs i obj,
  Forall noArcCallbacks objs -> nth_error objs i = Some obj -> noArcCallbacks obj.
Proof.
  intros objs i obj H Hn. rewrite Forall_forall in H. apply H.
  eapply nth_error_In; eauto.
Qed.

Lemma depenetrateStep_objects : forall cb ind w i,
  Forall noArcCallbacks (wObjects w) -> wObjects (depenetrateStep cb ind w i) = wObjects w.
Proof.
  intros cb ind w i H; unfold depenetrateStep.
  destruct (nth_error (wObjects w) i) as [obj|] eqn:Hn; auto.
  pose proof (checkCollision_world cb i obj w EPSILON2 (nth_error_noArc _ _ _ H Hn)) as Hw.
  destruct (checkCollision cb i obj w EPSILON2) as [w1 r]; simpl in Hw; subst w1.
  destruct (readOutParams ind r) as [[t n]|]; auto.
  destruct (_ && _)%bool; reflexivity.
Qed.

Lemma depenetrate_objects : forall cb ind w,
  Forall noArcCallbacks (wObjects w) -> wObjects (depenetrate cb ind w) = wObjects w.
Proof.
  intros cb ind w H; unfold depenetrate.
  apply (fold_left_invariant (fun w' => wObjects w' = wObjects w)); auto.
  intros a b Ha. rewrite depenetrateStep_objects; auto. rewrite Ha; auto.
Qed.

Lemma findEarliest_world : forall cb ind w rem,
  Forall noArcCallbacks (wObjects w) ->
  fst (fst (findEarliestCollision cb ind w rem)) = w.
Proof.
  intros cb ind w rem H; unfold findEarliestCollision.
  apply (fold_left_invariant (fun st => fst (fst st) = w)); auto.
  intros [[w' t] f] i Hw; simpl in Hw; subst w'. unfold earliestStep.
  destruct (nth_error (wObjects w) i) as [obj|] eqn:Hn; auto.
  pose proof (checkCollision_world cb i obj w rem (nth_error_noArc _ _ _ H Hn)) as Hw.
  destruct (checkCollision cb i obj w rem) as [w1 r]; simpl in Hw; subst w1.
  destruct (readOutParams ind r) as [[t' n]|]; auto.
  destruct (_ && _)%bool; reflexivity.
Qed.

Lemma substep_objects : forall cb ind w rem,
  Forall noArcCallbacks (wObjects w) ->
  wObjects (fst (substep cb ind w rem)) = wObjects w.
Proof.
  intros cb ind w rem H; unfold substep.
  pose proof (findEarliest_world cb ind w rem H) as Hw.
  destruct (findEarliestCollision cb ind w rem) as [[w1 t] first]; simpl in Hw; subst w1.
  destruct first as [[i n]|]; simpl; auto.
  destruct (nth_error _ i) as [obj|]; simpl; auto.
  unfold resolveCollision. destruct (applyEffects _ _ _ _); reflexivity.
Qed.

Lemma substepLoop_objects : forall cb ind fuel maxS w rem s,
  Forall noArcCallbacks (wObjects w) ->
  wObjects (fst (fst (substepLoop cb ind fuel maxS w rem s))) = wObjects w.
Proof.
  intros cb ind fuel; induction fuel as [|f IH]; intros maxS w rem s H; simpl; auto.
  destruct (_ && _)%bool; simpl; auto.
  pose proof (substep_objects cb ind w rem H) as Hs.
  destruct (substep cb ind w rem) as [w' rem']; simpl in Hs.
  rewrite IH; auto. rewrite Hs; auto.
Qed.

(** ** The substep counter *)

Lemma substepLoop_count : forall cb ind fuel maxS w rem s,
  (0 <= s <= maxS)%Z -> fuel = Z.to_nat (maxS - s) ->
  let '(_, rem', n) := substepLoop cb ind fuel maxS w rem s in
  (s <= n <= maxS)%Z /\ (EPSILON2 < rem' -> n = maxS).
Proof.
  intros cb ind fuel; induction fuel as [|f IH]; intros maxS w rem s Hs Hf; simpl.
  - split; [lia|]. intros _. lia.
  - destruct (Rltb EPSILON2 rem) eqn:E1; destruct (Z.ltb s maxS) eqn:E2; simpl.
    + destruct (substep cb ind w rem) as [w' rem'].
      specialize (IH maxS w' rem' (s + 1)%Z ltac:(apply Z.ltb_lt in E2; lia) ltac:(lia)).
      destruct (substepLoop cb ind f maxS w' rem' (s + 1)) as [[w'' r''] n].
      destruct IH as [H1 H2]; split; [lia | auto].
    + apply Z.ltb_ge in E2; lia.
    + apply Rltb_false in E1. split; [lia|]. intros; lra.
    + apply Z.ltb_ge in E2; lia.
Qed.

(** Extra fuel changes nothing: the loop stops by its own condition. *)
Lemma substepLoop_fuel_enough : forall cb ind extra fuel maxS w rem s,
  fuel = Z.to_nat (maxS - s) ->
  substepLoop cb ind (fuel + extra) maxS w rem s = substepLoop cb ind fuel maxS w rem s.
Proof.
  intros cb ind extra fuel; induction fuel as [|f IH]; intros maxS w rem s Hf; simpl.
  - destruct extra; simpl; auto.
    assert (Z.ltb s maxS = false) as E by (apply Z.ltb_ge; lia).
    rewrite E, andb_false_r; reflexivity.
  - destruct (_ && _)%bool; auto.
    destruct (substep cb ind w rem) as [w' rem']. apply IH; lia.
Qed.

Lemma Clamp_unit : forall e, Clamp e 0 1 = Rmin 1 (Rmax 0 e).
Proof.
  intros e; unfold Clamp, Rmin, Rmax.
  destruct (Rltb e 0) eqn:E1; rcmp;
  destruct (Rle_dec 0 e); try lra;
  destruct (Rltb 1 _) eqn:E2; rcmp;
  destruct (Rle_dec 1 _); lra.
Qed.

(** ** Angles *)

(** Replace every decided comparison of the goal whose outcome [lra]
    settles. *)
Ltac rsimpl :=
  repeat match goal with
  | |- context [Rleb ?a ?b] =>
      (rewrite (proj2 (Rleb_true a b)) by lra) || (rewrite (proj2 (Rleb_false a b)) by lra)
  | |- context [Rltb ?a ?b] =>
      (rewrite (proj2 (Rltb_true a b)) by lra) || (rewrite (proj2 (Rltb_false a b)) by lra)
  end.

Lemma pointAngle_350 : pointAngleDeg point350 origin = 350.
Proof.
  unfold pointAngleDeg, point350, origin; cbn [x y].
  assert (Hpi := PI_RGT_0).
  assert (Hc : 0 < cos (- (PI / 18))) by (apply cos_gt_0; lra).
  replace (cos (- (PI / 18)) - 0) with (cos (- (PI / 18))) by ring.
  replace (sin (- (PI / 18)) - 0) with (sin (- (PI / 18))) by ring.
  unfold atan2f. rewrite (proj2 (Rltb_true 0 _) Hc).
  change (sin (- (PI / 18)) / cos (- (PI / 18))) with (tan (- (PI / 18))).
  rewrite atan_tan by lra.
  unfold RAD2DEG. replace (- (PI / 18) * (180 / PI)) with (-10) by (field; lra).
  rsimpl. lra.
Qed.

Lemma truncR_small : forall z, 0 <= z < 1 -> truncR z = 0%Z.
Proof.
  intros z Hz. unfold truncR. rewrite (proj2 (Rleb_true 0 z)) by lra.
  unfold Int_part. rewrite <- (up_tech z 0%Z) by (simpl; lra). reflexivity.
Qed.

Lemma effectiveAngle_small : forall a, 0 <= a < 360 -> effectiveAngle a 0 = a.
Proof.
  intros a Ha. unfold effectiveAngle, fmodf. rewrite Rplus_0_r.
  rewrite truncR_small by lra. simpl. ring.
Qed.

(** ** Point and segment sweeps *)

Ltac vnum :=
  unfold Vector2DotProduct, Vector2Subtract, Vector2Add, Vector2Scale, Vector2LengthSqr,
    origin, EPSILON2 in *; cbn [x y] in *; solve [lra | field | ring].

Lemma quad_factor : forall a b c s t, a <> 0 -> s * s = b * b - 4 * a * c ->
  a * t * t + b * t + c = a * (t - (- b - s) / (2 * a)) * (t - (- b + s) / (2 * a)).
Proof.
  intros a b c s t Ha Hs.
  assert (Hc : c = (b * b - s * s) / (4 * a)) by (rewrite Hs; field; auto).
  rewrite Hc. field. auto.
Qed.

Lemma quad_first_root : forall a b c dt t0,
  EPSILON2 <= a -> 0 < c -> 0 <= t0 <= dt -> a * t0 * t0 + b * t0 + c <= 0 ->
  0 <= b * b - 4 * a * c /\
  let t1 := (- b - sqrt (b * b - 4 * a * c)) / (2 * a) in
  let t2 := (- b + sqrt (b * b - 4 * a * c)) / (2 * a) in
  0 < t1 <= t0 /\ t1 <= t2 /\ a * t1 * t1 + b * t1 + c = 0 /\
  (forall t, 0 <= t < t1 -> 0 < a * t * t + b * t + c).
Proof.
  intros a b c dt t0 Ha Hc Ht0 Hf.
  assert (Hpos : 0 < a) by (unfold EPSILON2 in Ha; lra).
  assert (HD : 0 <= b * b - 4 * a * c).
  { assert (E : b * b - 4 * a * c = (2 * a * t0 + b) * (2 * a * t0 + b) - 4 * a * (a * t0 * t0 + b * t0 + c)) by ring.
    rewrite E.
    assert (0 <= (2 * a * t0 + b) * (2 * a * t0 + b)) by apply Rle_0_sqr.
    assert (0 <= (4 * a) * - (a * t0 * t0 + b * t0 + c)) by (apply Rmult_le_pos; lra).
    lra. }
  split; [exact HD |]. intros t1 t2.
  set (s := sqrt (b * b - 4 * a * c)) in *.
  assert (Hs : s * s = b * b - 4 * a * c) by (apply sqrt_sqrt; exact HD).
  assert (Hs0 : 0 <= s) by apply sqrt_pos.
  assert (Hfac : forall t, a * t * t + b * t + c = a * (t - t1) * (t - t2))
    by (intro t; apply quad_factor; lra).
  assert (H12 : t1 <= t2).
  { unfold t1, t2. unfold Rdiv. apply Rmult_le_compat_r; [|lra].
    left; apply Rinv_0_lt_compat; lra. }
  assert (Hprod : t1 * t2 * a = c).
  { specialize (Hfac 0). replace c with (a * 0 * 0 + b * 0 + c) by ring.
    rewrite Hfac. ring. }
  rewrite Hfac in Hf.
  assert (Ht02 : t1 <= t0 <= t2).
  { destruct (Rle_dec t1 t0) as [Ha1 | Ha1]; destruct (Rle_dec t0 t2) as [Ha2 | Ha2];
    try (split; assumption); exfalso.
    - assert (0 < (t0 - t1) * (t0 - t2)) by (apply Rmult_lt_0_compat; lra).
      assert (0 < a * ((t0 - t1) * (t0 - t2))) by (apply Rmult_lt_0_compat; lra).
      rewrite Rmult_assoc in Hf; lra.
    - replace (a * (t0 - t1) * (t0 - t2)) with (a * ((t1 - t0) * (t2 - t0))) in Hf by ring.
      assert (0 < (t1 - t0) * (t2 - t0)) by (apply Rmult_lt_0_compat; lra).
      assert (0 < a * ((t1 - t0) * (t2 - t0))) by (apply Rmult_lt_0_compat; lra). lra.
    - lra. }
  assert (Ht2 : 0 < t2).
  { destruct (Req_dec t2 0) as [E | E]; [rewrite E in Hprod; lra | lra]. }
  assert (Ht1 : 0 < t1).
  { assert (0 < t2 * a) by (apply Rmult_lt_0_compat; lra).
    destruct (Rle_dec t1 0) as [E | E]; [|lra].
    assert (t1 * (t2 * a) <= 0 * (t2 * a)) by (apply Rmult_le_compat_r; lra).
    rewrite <- Rmult_assoc in H0. lra. }
  split; [lra|]. split; [exact H12|]. split.
  - rewrite Hfac. ring.
  - intros t Ht. rewrite Hfac.
    replace (a * (t - t1) * (t - t2)) with (a * ((t1 - t) * (t2 - t))) by ring.
    apply Rmult_lt_0_compat; [lra|]. apply Rmult_lt_0_compat; lra.
Qed.

Lemma pointSweep_nonneg : forall point ballPos ballVel r dt t n,
  sweptBallToStaticPointCollision point ballPos ballVel r dt = Some (t, n) -> 0 <= t.
Proof.
  intros point ballPos ballVel r dt t n H.
  unfold sweptBallToStaticPointCollision in H; cbv zeta in H.
  repeat match type of H with
         | context [if ?c then _ else _] => destruct c
         end; try discriminate; injection H as <- _; unfold fmaxf;
    solve [apply Rmax_l | lra].
Qed.

Lemma keepEarlier_source : forall h1 h2 dt m n,
  keepEarlier h2 (keepEarlier h1 (dt + EPSILON2, false, Vector2Zero)) = (m, true, n) ->
  h1 = Some (m, n) \/ h2 = Some (m, n).
Proof.
  intros [[t1 n1]|] [[t2 n2]|] dt m n; unfold keepEarlier; cbv beta iota;
    repeat (match goal with
            | |- context [if ?c then _ else _] => destruct c
            end; cbv beta iota); intro H; inversion H; subst; auto.
Qed.

Lemma Vector2Normalize_x_axis : forall a b, b = 0 -> 0 < a ->
  Vector2Normalize (mkVector2 a b) = mkVector2 1 0.
Proof.
  intros a b -> Ha. unfold Vector2Normalize; cbn [x y].
  replace (a * a + 0 * 0) with (a * a) by ring. rewrite sqrt_square by lra.
  rewrite (proj2 (Rltb_true 0 a) Ha). f_equal; field; lra.
Qed.

Lemma pointSweep_hit : forall point ballPos ballVel r dt a b c s t1 t2,
  Vector2DotProduct ballVel ballVel = a ->
  2 * Vector2DotProduct (Vector2Subtract ballPos point) ballVel = b ->
  Vector2DotProduct (Vector2Subtract ballPos point) (Vector2Subtract ballPos point) - r * r = c ->
  EPSILON2 <= a -> 0 <= s -> s * s = b * b - 4 * a * c ->
  (- b - s) / (2 * a) = t1 -> (- b + s) / (2 * a) = t2 ->
  - EPSILON2 <= t1 <= dt + EPSILON2 -> t1 <= t2 ->
  sweptBallToStaticPointCollision point ballPos ballVel r dt =
    Some (fmaxf 0 t1,
          ifDegenerate
            (Vector2Normalize (Vector2Subtract (Vector2Add ballPos (Vector2Scale ballVel (fmaxf 0 t1))) point))
            (ifDegenerate (Vector2Normalize (Vector2Subtract ballPos point)) defaultNormal)).
Proof.
  intros point ballPos ballVel r dt a b c s t1 t2 Ha Hb Hc HaE Hs0 Hs Ht1 Ht2 Hw H12.
  assert (HE : 0 < EPSILON2) by (unfold EPSILON2; lra).
  assert (Hss : 0 <= s * s) by (apply Rmult_le_pos; lra).
  unfold sweptBallToStaticPointCollision; cbv zeta. rewrite Ha, Hb, Hc.
  rewrite <- Hs, sqrt_square by exact Hs0. rewrite Ht1, Ht2.
  rewrite (Rabs_right a) by lra. unfold inWindow. rsimpl. cbn [andb].
  destruct (Rleb t2 (dt + EPSILON2)); cbn [andb orb]; rsimpl; cbn [orb]; rsimpl; reflexivity.
Qed.

Lemma pointSweep_miss : forall point ballPos ballVel r dt a b c s t1 t2,
  Vector2DotProduct ballVel ballVel = a ->
  2 * Vector2DotProduct (Vector2Subtract ballPos point) ballVel = b ->
  Vector2DotProduct (Vector2Subtract ballPos point) (Vector2Subtract ballPos point) - r * r = c ->
  EPSILON2 <= a -> 0 <= s -> s * s = b * b - 4 * a * c ->
  (- b - s) / (2 * a) = t1 -> (- b + s) / (2 * a) = t2 ->
  dt + EPSILON2 < t1 -> dt + EPSILON2 < t2 ->
  sweptBallToStaticPointCollision point ballPos ballVel r dt = None.
Proof.
  intros point ballPos ballVel r dt a b c s t1 t2 Ha Hb Hc HaE Hs0 Hs Ht1 Ht2 Hw1 Hw2.
  assert (HE : 0 < EPSILON2) by (unfold EPSILON2; lra).
  assert (Hss : 0 <= s * s) by (apply Rmult_le_pos; lra).
  unfold sweptBallToStaticPointCollision; cbv zeta. rewrite Ha, Hb, Hc.
  rewrite <- Hs, sqrt_square by exact Hs0. rewrite Ht1, Ht2.
  rewrite (Rabs_right a) by lra. unfold inWindow.
  rewrite (proj2 (Rleb_false t1 _) Hw1), (proj2 (Rleb_false t2 _) Hw2), !andb_false_r.
  assert (HE1 : EPSILON2 < 1) by (unfold EPSILON2; lra). rsimpl. reflexivity.
Qed.

Lemma segDir_x_axis : segDirNormalized origin (mkVector2 10 0) = mkVector2 1 0.
Proof.
  unfold segDirNormalized, Vector2Subtract, origin; cbn [x y].
  apply Vector2Normalize_x_axis; lra.
Qed.

Lemma segPerp_x_axis : segPerpDir origin (mkVector2 10 0) = mkVector2 (- 0) 1.
Proof. unfold segPerpDir. rewrite segDir_x_axis. reflexivity. Qed.

Lemma segment_endpoint_hit : exists n,
  sweptBallToStaticSegmentCollision origin (mkVector2 10 0) (mkVector2 (-20) 0) (mkVector2 10 0) 5 2
    = Some (3 / 2, n).
Proof.
  assert (HE : 0 < EPSILON2) by (unfold EPSILON2; lra).
  assert (HE1 : EPSILON2 < 1) by (unfold EPSILON2; lra).
  eexists. unfold sweptBallToStaticSegmentCollision; cbv zeta.
  rewrite (pointSweep_hit origin (mkVector2 (-20) 0) (mkVector2 10 0) 5 2 100 (-400) 375 100 (3 / 2) (5 / 2))
    by vnum.
  rewrite (pointSweep_miss (mkVector2 10 0) (mkVector2 (-20) 0) (mkVector2 10 0) 5 2 100 (-600) 875 100 (5 / 2) (7 / 2))
    by vnum.
  unfold keepEarlier; cbv beta iota.
  replace (fmaxf 0 (3 / 2)) with (3 / 2) by (unfold fmaxf; rewrite Rmax_right; lra).
  rsimpl. cbv beta iota.
  replace (Vector2LengthSqr (Vector2Subtract (mkVector2 10 0) origin)) with 100 by vnum.
  rsimpl. rewrite segPerp_x_axis.
  replace (Vector2DotProduct (mkVector2 10 0) (mkVector2 (- 0) 1)) with 0 by vnum.
  rewrite Rabs_R0. rsimpl. cbv beta iota. unfold earlyExit. reflexivity.
Qed.

Lemma contactProjection_endpoint : 
  contactProjection origin (mkVector2 10 0) (mkVector2 (-20) 0) (mkVector2 10 0) (3 / 2) = -5.
Proof.
  unfold contactProjection, collisionPointOnLine. rewrite segDir_x_axis, segPerp_x_axis. vnum.
Qed.

(** ** Ball-to-ball *)

Lemma sqrt_zero_sum : forall a b, a = 0 -> b = 0 -> sqrt (a * a + b * b) = 0.
Proof. intros a b -> ->. replace (0 * 0 + 0 * 0) with 0 by ring. apply sqrt_0. Qed.

(** ** Velocity across a bounce *)

Lemma Vector2Scale_Scale : forall v a b,
  Vector2Scale (Vector2Scale v a) b = Vector2Scale v (a * b).
Proof. intros [vx vy] a b. unfold Vector2Scale; cbn [x y]. f_equal; ring. Qed.

Lemma Vector2Scale_1 : forall v, Vector2Scale v 1 = v.
Proof. intros [vx vy]. unfold Vector2Scale; cbn [x y]. f_equal; ring. Qed.

Lemma fold_ball_velocity : forall effs b snd,
  velocity (fst (fold_left (applyBallEffect false) effs (b, snd)))
    = Vector2Scale (velocity b) (velocityFactor effs).
Proof.
  induction effs as [|e effs IH]; intros b snd.
  - cbn [fold_left fst velocityFactor fold_right]. symmetry. apply Vector2Scale_1.
  - cbn [fold_left]. destruct (applyBallEffect false (b, snd) e) as [b1 s1] eqn:E.
    rewrite IH. cbn [velocityFactor fold_right]. fold (velocityFactor effs).
    rewrite <- Vector2Scale_Scale. f_equal.
    unfold applyBallEffect in E; cbn [andb] in E. unfold effectVelocityFactor.
    destruct (params e); try destruct (negb false || continuous e);
      injection E as <- _; cbn [velocity set_velocity set_color set_radius set_markedForDeletion];
      try reflexivity; symmetry; apply Vector2Scale_1.
Qed.

Lemma fold_object_velocity : forall effs b snd,
  velocity (fst (fold_left (applyObjectEffect false) effs (b, snd)))
    = Vector2Scale (velocity b) (velocityFactor effs).
Proof.
  induction effs as [|e effs IH]; intros b snd.
  - cbn [fold_left fst velocityFactor fold_right]. symmetry. apply Vector2Scale_1.
  - cbn [fold_left]. destruct (applyObjectEffect false (b, snd) e) as [b1 s1] eqn:E.
    rewrite IH. cbn [velocityFactor fold_right]. fold (velocityFactor effs).
    rewrite <- Vector2Scale_Scale. f_equal.
    unfold applyObjectEffect in E; cbn [andb] in E. unfold effectVelocityFactor.
    destruct (params e); try destruct (negb false || continuous e);
      injection E as <- _; cbn [velocity set_velocity set_color set_radius set_markedForDeletion];
      try reflexivity; symmetry; apply Vector2Scale_1.
Qed.

Lemma applyEffects_velocity : forall b g snd,
  velocity (fst (applyEffects b (Some g) false snd))
    = Vector2Scale (velocity b)
        (velocityFactor (onCollisionEffects b) * velocityFactor (objOnCollisionEffects g)).
Proof.
  intros b g snd. unfold applyEffects.
  pose proof (fold_ball_velocity (onCollisionEffects b) b snd) as Hv.
  destruct (fold_left (applyBallEffect false) (onCollisionEffects b) (b, snd)) as [b1 s1] eqn:E.
  cbn [fst] in Hv. rewrite fold_object_velocity, Hv. apply Vector2Scale_Scale.
Qed.

Lemma resolveCollision_velocity : forall w obj n,
  EPSILON2 < Vector2LengthSqr n ->
  velocity (wBall (resolveCollision w obj n)) =
    Vector2Scale (Vector2Scale (Vector2Reflect (velocity (wBall w)) n) (restitution (wBall w)))
      (velocityFactor (onCollisionEffects (wBall w)) * velocityFactor (objOnCollisionEffects obj)).
Proof.
  intros w obj n Hn. unfold resolveCollision; cbv zeta.
  rewrite (proj2 (Rltb_true _ _) Hn).
  match goal with
  | |- context [applyEffects ?b (Some obj) false ?s] =>
      pose proof (applyEffects_velocity b obj s) as Hv;
      destruct (applyEffects b (Some obj) false s) as [b2 s2]
  end.
  cbn [wBall]. cbn [fst] in Hv. rewrite Hv. reflexivity.
Qed.

Lemma LengthSqr_Scale : forall v k,
  Vector2LengthSqr (Vector2Scale v k) = k * k * Vector2LengthSqr v.
Proof. intros [vx vy] k. unfold Vector2LengthSqr, Vector2Scale; cbn [x y]. ring. Qed.

Lemma LengthSqr_Reflect_unit : forall v n, Vector2LengthSqr n = 1 ->
  Vector2LengthSqr (Vector2Reflect v n) = Vector2LengthSqr v.
Proof.
  intros [vx vy] [nx ny] Hn. unfold Vector2LengthSqr, Vector2Reflect in *; cbn [x y] in *.
  transitivity (vx * vx + vy * vy
                + 4 * (vx * nx + vy * ny) * (vx * nx + vy * ny) * (nx * nx + ny * ny - 1)).
  - ring.
  - rewrite Hn. ring.
Qed.

(** * Claims *)

(** ** C2 *)

(** (C2, amended) For a substep cap [maxSubsteps >= 0],
    [handleBouncingObjectCollisions] performs between 0 and [maxSubsteps]
    substeps and returns that count; if frame time above [EPSILON2] is
    still left when it returns (as when every substep's time of impact
    is 0), it performed exactly [maxSubsteps] substeps, and the leftover
    time is not returned. *)
Theorem handleBouncingObjectCollisions_substep_cap : forall cb ind w dt maxSubsteps,
  (0 <= maxSubsteps)%Z ->
  let '(w', rem, n) := handleBouncingObjectCollisionsFull cb ind w dt maxSubsteps in
  (0 <= n <= maxSubsteps)%Z /\ (EPSILON2 < rem -> n = maxSubsteps) /\
  handleBouncingObjectCollisions cb ind w dt maxSubsteps = (w', n).
Proof.
  intros cb ind w dt maxS Hm.
  unfold handleBouncingObjectCollisions, handleBouncingObjectCollisionsFull.
  pose proof (substepLoop_count cb ind (Z.to_nat maxS) maxS (depenetrate cb ind w) dt 0
                ltac:(lia) ltac:(f_equal; lia)) as H.
  destruct (substepLoop cb ind (Z.to_nat maxS) maxS (depenetrate cb ind w) dt 0)
    as [[w' rem] n].
  destruct H as [H1 H2]; split; [lia | split; auto].
Qed.

Lemma handleBouncingObjectCollisions_substep_cap_witness :
  (0 <= 10)%Z /\
  let '(w', rem, n) := handleBouncingObjectCollisionsFull noCallback noOut sampleWorld 1 10 in
  (0 <= n <= 10)%Z /\ (EPSILON2 < rem -> n = 10%Z) /\
  handleBouncingObjectCollisions noCallback noOut sampleWorld 1 10 = (w', n).
Proof.
  split; [lia |].
  apply (handleBouncingObjectCollisions_substep_cap noCallback noOut sampleWorld 1 10); lia.
Defined.

(** (C2, counterexample) With a negative cap the loop body never runs
    and the returned count 0 exceeds the cap. *)
Lemma handleBouncingObjectCollisions_negative_cap :
  snd (handleBouncingObjectCollisions noCallback noOut sampleWorld 1 (-1)) = 0%Z /\
  (0 > -1)%Z.
Proof. split; [reflexivity | lia]. Qed.

(** ** C7 *)

(** (C7) With [isOngoingCollision = true] and no continuous effect on the
    ball or on the obstacle, [applyEffects] returns the ball unchanged and
    makes no audio call. *)
Theorem applyEffects_ongoing_noncontinuous_noop : forall ball obj snd,
  Forall notContinuous (onCollisionEffects ball) ->
  Forall notContinuous (objOnCollisionEffects obj) ->
  applyEffects ball (Some obj) true snd = (ball, snd).
Proof.
  intros ball obj snd Hb Ho; unfold applyEffects.
  rewrite fold_ball_effects_skip by exact Hb.
  apply fold_object_effects_skip; exact Ho.
Qed.

Lemma applyEffects_ongoing_noncontinuous_noop_witness :
  Forall notContinuous (onCollisionEffects ballWithEffects) /\
  Forall notContinuous (objOnCollisionEffects rectWithEffects) /\
  applyEffects ballWithEffects (Some rectWithEffects) true [] = (ballWithEffects, []).
Proof.
  assert (Hb : Forall notContinuous (onCollisionEffects ballWithEffects))
    by (repeat constructor).
  assert (Ho : Forall notContinuous (objOnCollisionEffects rectWithEffects))
    by (repeat constructor).
  split; [exact Hb | split; [exact Ho |]].
  exact (applyEffects_ongoing_noncontinuous_noop ballWithEffects rectWithEffects [] Hb Ho).
Defined.

(** ** C8 *)

(** (C8) When its allocation succeeds, [createBouncingObject] stores the
    position, velocity, radius, colour and interaction flag unchanged, a
    mass equal to the argument if positive and 1 otherwise, the
    restitution clamped to [0,1], an unset deletion flag and an empty
    effect list; it returns [NULL] only when [malloc] fails. *)
Theorem createBouncingObject_fields : forall h pos vel r col m e inter,
  match fst (createBouncingObject h pos vel r col m e inter) with
  | Some o =>
      position o = pos /\ velocity o = vel /\ radius o = r /\ color o = col /\
      ((0 < m /\ mass o = m) \/ (m <= 0 /\ mass o = 1)) /\
      restitution o = Rmin 1 (Rmax 0 e) /\
      interactWithOtherBouncingObjects o = inter /\
      markedForDeletion o = false /\ onCollisionEffects o = []
  | None => hd_error (mallocOutcomes h) = Some false
  end.
Proof.
  intros [l n outs] pos vel r col m e inter.
  unfold createBouncingObject, malloc; simpl.
  assert (Hobj : forall o, o = mkBouncingObject pos vel r col (if Rltb 0 m then m else 1)
                                (Clamp e 0 1) inter false [] ->
      position o = pos /\ velocity o = vel /\ radius o = r /\ color o = col /\
      ((0 < m /\ mass o = m) \/ (m <= 0 /\ mass o = 1)) /\
      restitution o = Rmin 1 (Rmax 0 e) /\
      interactWithOtherBouncingObjects o = inter /\
      markedForDeletion o = false /\ onCollisionEffects o = []).
  { intros o ->; simpl. rewrite Clamp_unit.
    repeat split; auto.
    destruct (Rltb 0 m) eqn:E; rcmp; [left | right]; split; auto. }
  destruct outs as [|[|] outs]; simpl; auto; exact (Hobj _ eq_refl).
Qed.

(** ** C9 *)

(** (C9) Each constructor returns [NULL] when one of its allocations
    fails, and whenever it returns [NULL] the set of live heap blocks is
    the one it started from (the object block allocated before a failed
    shape-data allocation is freed); adding [NULL] to either registry
    leaves it unchanged. *)
Theorem constructors_null_on_alloc_failure :
  (forall h pos vel wd ht col st u,
     match fst (createRectangleObject h pos vel wd ht col st u) with
     | None => live (snd (createRectangleObject h pos vel wd ht col st u)) = live h
     | Some _ => True end) /\
  (forall h pos vel wd ht col st u,
     match fst (createDiamondObject h pos vel wd ht col st u) with
     | None => live (snd (createDiamondObject h pos vel wd ht col st u)) = live h
     | Some _ => True end) /\
  (forall h pos vel r sa ea th col st rs rm,
     match fst (createArcCircleObject h pos vel r sa ea th col st rs rm) with
     | None => live (snd (createArcCircleObject h pos vel r sa ea th col st rs rm)) = live h
     | Some _ => True end) /\
  (forall h pos vel r col m e i,
     match fst (createBouncingObject h pos vel r col m e i) with
     | None => live (snd (createBouncingObject h pos vel r col m e i)) = live h
     | Some _ => True end) /\
  (forall l n rest pos vel wd ht col st u,
     fst (createRectangleObject (mkHeap l n (false :: rest)) pos vel wd ht col st u) = None /\
     fst (createRectangleObject (mkHeap l n (true :: false :: rest)) pos vel wd ht col st u)
       = None /\
     fst (createDiamondObject (mkHeap l n (false :: rest)) pos vel wd ht col st u) = None /\
     fst (createDiamondObject (mkHeap l n (true :: false :: rest)) pos vel wd ht col st u)
       = None) /\
  (forall l n rest pos vel r sa ea th col st rs rm,
     fst (createArcCircleObject (mkHeap l n (false :: rest)) pos vel r sa ea th col st rs rm)
       = None /\
     fst (createArcCircleObject (mkHeap l n (true :: false :: rest))
            pos vel r sa ea th col st rs rm) = None) /\
  (forall l n rest pos vel r col m e i,
     fst (createBouncingObject (mkHeap l n (false :: rest)) pos vel r col m e i) = None) /\
  (forall head, addObjectToList head None = head) /\
  (forall head, addBouncingObjectToList head None = head).
Proof.
  repeat split; intros;
    try apply allocGameObject_null_frees; try reflexivity.
  destruct h as [l n [|[|] outs]]; reflexivity.
Qed.

(** ** C10 *)

(** (C10) When no arc callback is registered on any obstacle,
    [handleBouncingObjectCollisions] leaves the obstacle list exactly as
    it found it: position, velocity, static flag, shape data (arc
    rotation included) and effect list of every obstacle. *)
Theorem handleBouncingObjectCollisions_obstacles_unchanged : forall cb ind w dt maxSubsteps,
  Forall noArcCallbacks (wObjects w) ->
  wObjects (fst (handleBouncingObjectCollisions cb ind w dt maxSubsteps)) = wObjects w.
Proof.
  intros cb ind w dt maxS H.
  unfold handleBouncingObjectCollisions, handleBouncingObjectCollisionsFull.
  pose proof (depenetrate_objects cb ind w H) as Hd.
  pose proof (substepLoop_objects cb ind (Z.to_nat maxS) maxS (depenetrate cb ind w) dt 0
                ltac:(rewrite Hd; exact H)) as Hl.
  destruct (substepLoop cb ind (Z.to_nat maxS) maxS (depenetrate cb ind w) dt 0)
    as [[w' rem] n]; simpl in *. congruence.
Qed.

Lemma handleBouncingObjectCollisions_obstacles_unchanged_witness :
  Forall noArcCallbacks (wObjects sampleWorld) /\
  wObjects (fst (handleBouncingObjectCollisions noCallback noOut sampleWorld (1 / 60) 10))
    = [sampleRect].
Proof.
  assert (H : Forall noArcCallbacks (wObjects sampleWorld)) by (repeat constructor).
  split; [exact H |].
  exact (handleBouncingObjectCollisions_obstacles_unchanged
           noCallback noOut sampleWorld (1 / 60) 10 H).
Defined.

(** ** C6 *)

(** (C6) [isPointWithinArcAngles] accepts a point iff its angle lies
    between the effective start and end when start <= end, and iff it
    is >= start or <= end when start > end (the span crosses 0 degrees).
    So a point at 350 degrees is inside the effective span [340, 20]
    and outside the effective span [20, 340]. *)
Theorem isPointWithinArcAngles_wraparound :
  (forall point center startAngle endAngle rot,
     isPointWithinArcAngles point center startAngle endAngle rot = true <->
     (effectiveAngle startAngle rot <= effectiveAngle endAngle rot /\
      effectiveAngle startAngle rot <= pointAngleDeg point center <=
        effectiveAngle endAngle rot) \/
     (effectiveAngle endAngle rot < effectiveAngle startAngle rot /\
      (effectiveAngle startAngle rot <= pointAngleDeg point center \/
       pointAngleDeg point center <= effectiveAngle endAngle rot))) /\
  (forall point center startAngle endAngle rot,
     pointAngleDeg point center = 350 ->
     effectiveAngle startAngle rot = 340 -> effectiveAngle endAngle rot = 20 ->
     isPointWithinArcAngles point center startAngle endAngle rot = true) /\
  (forall point center startAngle endAngle rot,
     pointAngleDeg point center = 350 ->
     effectiveAngle startAngle rot = 20 -> effectiveAngle endAngle rot = 340 ->
     isPointWithinArcAngles point center startAngle endAngle rot = false).
Proof.
  split; [| split].
  - intros point center sa ea rot. unfold isPointWithinArcAngles; cbv zeta.
    destruct (Rleb (effectiveAngle sa rot) (effectiveAngle ea rot)) eqn:E; rcmp.
    + rewrite andb_true_iff, !Rleb_true. split.
      * intros [H1 H2]; left; repeat split; lra.
      * intros [[H1 [H2 H3]] | [H1 H2]]; [split; lra | lra].
    + rewrite orb_true_iff, !Rleb_true. split.
      * intros H; right; split; [lra | exact H].
      * intros [[H1 H2] | [H1 H2]]; [lra | exact H2].
  - intros point center sa ea rot Hp Hs He.
    unfold isPointWithinArcAngles; cbv zeta. rewrite Hp, Hs, He. rsimpl. reflexivity.
  - intros point center sa ea rot Hp Hs He.
    unfold isPointWithinArcAngles; cbv zeta. rewrite Hp, Hs, He. rsimpl. reflexivity.
Qed.

Lemma isPointWithinArcAngles_wraparound_witness :
  pointAngleDeg point350 origin = 350 /\
  effectiveAngle 340 0 = 340 /\ effectiveAngle 20 0 = 20 /\
  isPointWithinArcAngles point350 origin 340 20 0 = true /\
  isPointWithinArcAngles point350 origin 20 340 0 = false.
Proof.
  assert (Hp := pointAngle_350).
  assert (H340 : effectiveAngle 340 0 = 340) by (apply effectiveAngle_small; lra).
  assert (H20 : effectiveAngle 20 0 = 20) by (apply effectiveAngle_small; lra).
  destruct isPointWithinArcAngles_wraparound as [_ [Hin Hout]].
  split; [exact Hp | split; [exact H340 | split; [exact H20 | split]]].
  - exact (Hin point350 origin 340 20 0 Hp H340 H20).
  - exact (Hout point350 origin 20 340 0 Hp H20 H340).
Defined.

(** ** C1 *)

(** (C1, as corrected) With a velocity of non-negligible magnitude, a ball
    that does not start overlapping [point] and whose path comes within
    [ballRadius] of [point] at some [t0] in [0, dt_max] gets a hit whose
    [toi] lies in (0, t0]: the centre is exactly [ballRadius] from
    [point] at [toi], and farther than that at every earlier time. *)
Theorem sweptBallToStaticPointCollision_first_contact :
  forall point ballPos ballVel ballRadius dt_max t0,
    EPSILON2 <= Vector2LengthSqr ballVel ->
    ballRadius * ballRadius < Vector2LengthSqr (Vector2Subtract ballPos point) ->
    0 <= t0 <= dt_max ->
    Vector2LengthSqr (Vector2Subtract (Vector2Add ballPos (Vector2Scale ballVel t0)) point)
      <= ballRadius * ballRadius ->
    exists toi normal,
      sweptBallToStaticPointCollision point ballPos ballVel ballRadius dt_max = Some (toi, normal) /\
      0 < toi <= t0 /\
      Vector2LengthSqr (Vector2Subtract (Vector2Add ballPos (Vector2Scale ballVel toi)) point)
        = ballRadius * ballRadius /\
      (forall t, 0 <= t < toi ->
        ballRadius * ballRadius <
          Vector2LengthSqr (Vector2Subtract (Vector2Add ballPos (Vector2Scale ballVel t)) point)).
Proof.
  intros point ballPos ballVel ballRadius dt_max t0 Ha Hc Ht0 Hf.
  assert (HE : 0 < EPSILON2) by (unfold EPSILON2; lra).
  set (a := Vector2DotProduct ballVel ballVel).
  set (b := 2 * Vector2DotProduct (Vector2Subtract ballPos point) ballVel).
  set (c := Vector2DotProduct (Vector2Subtract ballPos point) (Vector2Subtract ballPos point)
            - ballRadius * ballRadius).
  assert (Hpath : forall t,
    Vector2LengthSqr (Vector2Subtract (Vector2Add ballPos (Vector2Scale ballVel t)) point)
      = a * t * t + b * t + c + ballRadius * ballRadius).
  { intro t. unfold a, b, c, Vector2LengthSqr, Vector2Subtract, Vector2Add, Vector2Scale,
      Vector2DotProduct; simpl. ring. }
  assert (Ha' : EPSILON2 <= a) by exact Ha.
  assert (Hc' : 0 < c). { unfold c; unfold Vector2LengthSqr in Hc; unfold Vector2DotProduct. lra. }
  assert (Hf0 : a * t0 * t0 + b * t0 + c <= 0) by (rewrite Hpath in Hf; lra).
  destruct (quad_first_root a b c dt_max t0 Ha' Hc' Ht0 Hf0) as [HD H]; cbv zeta in H.
  set (t1 := (- b - sqrt (b * b - 4 * a * c)) / (2 * a)) in *.
  set (t2 := (- b + sqrt (b * b - 4 * a * c)) / (2 * a)) in *.
  destruct H as [Ht1 [H12 [Hroot Hbefore]]].
  exists t1. eexists. split; [| split; [lra | split]].
  - unfold sweptBallToStaticPointCollision; cbv zeta. fold a b c. fold t1 t2.
    rewrite (Rabs_right a) by lra. unfold inWindow. rsimpl.
    destruct (Rleb t2 (dt_max + EPSILON2)); cbn [andb orb]; rsimpl; cbn [andb orb]; rsimpl;
      unfold fmaxf; rewrite Rmax_right by lra; reflexivity.
  - rewrite Hpath, Hroot. ring.
  - intros t Ht. rewrite Hpath. specialize (Hbefore t Ht). lra.
Qed.

Lemma sweptBallToStaticPointCollision_first_contact_witness :
  exists toi normal,
    sweptBallToStaticPointCollision origin (mkVector2 (-20) 0) (mkVector2 10 0) 5 2
      = Some (toi, normal) /\
    0 < toi <= 2 /\
    Vector2LengthSqr (Vector2Subtract (Vector2Add (mkVector2 (-20) 0) (Vector2Scale (mkVector2 10 0) toi)) origin)
      = 5 * 5 /\
    (forall t, 0 <= t < toi ->
      5 * 5 < Vector2LengthSqr
                (Vector2Subtract (Vector2Add (mkVector2 (-20) 0) (Vector2Scale (mkVector2 10 0) t)) origin)).
Proof.
  apply (sweptBallToStaticPointCollision_first_contact origin (mkVector2 (-20) 0) (mkVector2 10 0) 5 2 2);
    vnum.
Defined.

(** (C1) A ball that starts on [point] (inside its radius) moving at unit
    speed gets no hit: both roots, -10 and 10, lie outside the window
    [-EPSILON2, 1 + EPSILON2]. *)
Lemma sweptBallToStaticPointCollision_start_inside_miss :
  EPSILON2 <= Vector2LengthSqr (mkVector2 1 0) /\
  Vector2LengthSqr (Vector2Subtract (Vector2Add origin (Vector2Scale (mkVector2 1 0) 0)) origin)
    <= 10 * 10 /\
  sweptBallToStaticPointCollision origin origin (mkVector2 1 0) 10 1 = None.
Proof.
  assert (HE : 0 < EPSILON2) by (unfold EPSILON2; lra).
  split; [unfold Vector2LengthSqr, EPSILON2; simpl; lra |].
  split; [unfold Vector2LengthSqr; simpl; lra |].
  unfold sweptBallToStaticPointCollision; cbv zeta.
  unfold Vector2DotProduct, Vector2Subtract, origin; cbn [x y].
  replace (1 * 1 + 0 * 0) with 1 by ring.
  replace (2 * ((0 - 0) * 1 + (0 - 0) * 0)) with 0 by ring.
  replace ((0 - 0) * (0 - 0) + (0 - 0) * (0 - 0) - 10 * 10) with (-100) by ring.
  replace (0 * 0 - 4 * 1 * -100) with (20 * 20) by ring.
  rewrite sqrt_square by lra.
  replace ((- 0 - 20) / (2 * 1)) with (-10) by field.
  replace ((- 0 + 20) / (2 * 1)) with 10 by field.
  rewrite Rabs_right by lra. unfold inWindow. unfold EPSILON2 in *. rsimpl. cbn [andb orb]. rsimpl.
  reflexivity.
Qed.


(** ** C3 *)

(** (C3) Two interacting balls with the same centre overlap by the sum of
    their radii, yet [handleBallToBallCollisions] leaves both positions
    unchanged: [Vector2Normalize] of the zero centre difference is the
    zero vector, so both position corrections vanish. *)
Theorem handleBallToBallCollisions_coincident_centres : forall dt,
  Vector2Distance (position sampleBall) (position sampleBall) < radius sampleBall + radius sampleBall /\
  map position (handleBallToBallCollisions [sampleBall; sampleBall] dt)
    = map position [sampleBall; sampleBall].
Proof.
  intro dt.
  assert (Hd : Vector2Distance (mkVector2 0 0) (mkVector2 0 0) = 0)
    by (unfold Vector2Distance; cbn [x y]; apply sqrt_zero_sum; ring).
  assert (Hn : Vector2Normalize (Vector2Subtract (mkVector2 0 0) (mkVector2 0 0)) = Vector2Zero).
  { unfold Vector2Normalize, Vector2Subtract; cbn [x y].
    rewrite sqrt_zero_sum by ring. rsimpl. reflexivity. }
  split.
  - unfold sampleBall; cbn [position radius]. rewrite Hd. lra.
  - unfold handleBallToBallCollisions; cbn [length ballToBallLoop ballPairsWith].
    unfold sampleBall; cbn [interactWithOtherBouncingObjects].
    unfold resolveBallPair; cbn [position radius]. rewrite Hd, Hn. rsimpl. cbv zeta.
    cbn [ballToBallLoop ballPairsWith map position set_position set_velocity
         interactWithOtherBouncingObjects mass].
    unfold Vector2Subtract, Vector2Add, Vector2Scale, Vector2Zero; cbn [x y].
    f_equal; [f_equal; ring | f_equal; f_equal; ring].
Qed.


(** ** C4 *)

(** (C4, as corrected) When the collision normal is a unit vector, the
    speed of the ball after [resolveCollision] (main.c, 171-210) is its
    speed before, times |restitution|, times the absolute product of the
    factors of the velocity effects (boost and dampen) of the ball and of
    the obstacle. *)
Theorem resolveCollision_speed_factor : forall w obj n,
  Vector2LengthSqr n = 1 ->
  Vector2Length (velocity (wBall (resolveCollision w obj n))) =
    Rabs (restitution (wBall w) *
          (velocityFactor (onCollisionEffects (wBall w)) * velocityFactor (objOnCollisionEffects obj)))
    * Vector2Length (velocity (wBall w)).
Proof.
  intros w obj n Hn.
  rewrite resolveCollision_velocity by (rewrite Hn; unfold EPSILON2; lra).
  change (Vector2Length ?v) with (sqrt (Vector2LengthSqr v)).
  rewrite !LengthSqr_Scale, LengthSqr_Reflect_unit by exact Hn.
  match goal with
  | |- sqrt (?f * ?f * (?r * ?r * ?l)) = _ =>
      replace (f * f * (r * r * l)) with (Rsqr (r * f) * l) by (unfold Rsqr; ring)
  end.
  rewrite sqrt_mult_alt by apply Rle_0_sqr. rewrite sqrt_Rsqr_abs. reflexivity.
Qed.

Lemma resolveCollision_speed_factor_witness :
  Vector2LengthSqr (mkVector2 (-1) 0) = 1 /\
  Vector2Length (velocity (wBall (resolveCollision dampenedWorld sampleRect (mkVector2 (-1) 0)))) =
    Rabs (restitution (wBall dampenedWorld) *
          (velocityFactor (onCollisionEffects (wBall dampenedWorld)) *
           velocityFactor (objOnCollisionEffects sampleRect)))
    * Vector2Length (velocity (wBall dampenedWorld)).
Proof.
  assert (Hn : Vector2LengthSqr (mkVector2 (-1) 0) = 1) by vnum.
  split; [exact Hn |].
  exact (resolveCollision_speed_factor dampenedWorld sampleRect (mkVector2 (-1) 0) Hn).
Defined.

(** (C4) A ball at unit speed with restitution 1 and a one-shot dampen
    effect of 1/2, bouncing on a unit normal, with no boost effect on
    either side, leaves at speed 1/2, not 1. *)
Lemma resolveCollision_dampened_speed :
  EPSILON2 < Vector2LengthSqr (mkVector2 (-1) 0) /\
  (forall e f, In e (onCollisionEffects dampenedBall ++ objOnCollisionEffects sampleRect) ->
     params e <> EFFECT_VELOCITY_BOOST f) /\
  restitution dampenedBall * Vector2Length (velocity dampenedBall) = 1 /\
  Vector2Length (velocity (wBall (resolveCollision dampenedWorld sampleRect (mkVector2 (-1) 0))))
    = 1 / 2.
Proof.
  split; [vnum|]. split; [|split].
  - intros e f [<- | []]. discriminate.
  - unfold Vector2Length, dampenedBall; cbn [x y velocity restitution].
    replace (1 * 1 + 0 * 0) with 1 by ring. rewrite sqrt_1. ring.
  - rewrite resolveCollision_velocity by vnum.
    unfold Vector2Length, dampenedWorld, dampenedBall, sampleRect, velocityFactor,
      effectVelocityFactor, Vector2Scale, Vector2Reflect;
      cbn [wBall velocity restitution onCollisionEffects objOnCollisionEffects fold_right params x y].
    match goal with
    | |- sqrt ?e = _ => replace e with ((1 / 2) * (1 / 2)) by field
    end.
    apply sqrt_square. lra.
Qed.


(** ** C5 *)

(** (C5, as corrected) A hit of [sweptBallToStaticSegmentCollision] either
    comes from the line sub-case, with [toi = max 0 t] for a time [t]
    whose contact projection lies in [-EPSILON2, length + EPSILON2], or
    is the hit of one of the two endpoint point sweeps, whose contact
    projection is not bounded. *)
Theorem sweptBallToStaticSegmentCollision_contact_source :
  forall segP1 segP2 ballPos ballVel ballRadius dt_max toi normal,
    sweptBallToStaticSegmentCollision segP1 segP2 ballPos ballVel ballRadius dt_max
      = Some (toi, normal) ->
    (exists t, toi = fmaxf 0 t /\ - EPSILON2 <= t /\
       - EPSILON2 <= contactProjection segP1 segP2 ballPos ballVel t
         <= sqrt (Vector2LengthSqr (Vector2Subtract segP2 segP1)) + EPSILON2) \/
    (exists n', sweptBallToStaticPointCollision segP1 ballPos ballVel ballRadius dt_max
                  = Some (toi, n') \/
                sweptBallToStaticPointCollision segP2 ballPos ballVel ballRadius dt_max
                  = Some (toi, n')).
Proof.
  intros segP1 segP2 ballPos ballVel ballRadius dt_max toi normal H.
  unfold sweptBallToStaticSegmentCollision in H; cbv zeta in H.
  remember (keepEarlier (sweptBallToStaticPointCollision segP2 ballPos ballVel ballRadius dt_max)
             (keepEarlier (sweptBallToStaticPointCollision segP1 ballPos ballVel ballRadius dt_max)
                (dt_max + EPSILON2, false, Vector2Zero))) as acc2 eqn:Eacc.
  destruct acc2 as [[m2 c2] n2].
  assert (Hsrc : c2 = true -> exists n', 
     sweptBallToStaticPointCollision segP1 ballPos ballVel ballRadius dt_max = Some (m2, n') \/
     sweptBallToStaticPointCollision segP2 ballPos ballVel ballRadius dt_max = Some (m2, n')).
  { intros ->. symmetry in Eacc. apply keepEarlier_source in Eacc. eauto. }
  assert (Hearly : earlyExit (m2, c2, n2) = Some (toi, normal) ->
     exists n', sweptBallToStaticPointCollision segP1 ballPos ballVel ballRadius dt_max
                  = Some (toi, n') \/
                sweptBallToStaticPointCollision segP2 ballPos ballVel ballRadius dt_max
                  = Some (toi, n')).
  { unfold earlyExit. destruct c2; [|discriminate]. intro E; injection E as <- _. auto. }
  destruct (Rltb (Vector2LengthSqr (Vector2Subtract segP2 segP1)) EPSILON2); [right; auto|].
  match type of H with
  | context [if Rltb (Rabs ?v) EPSILON2 then _ else _] => destruct (Rltb (Rabs v) EPSILON2)
  end; [right; auto|].
  cbv beta iota in H.
  match type of H with
  | context [if (Rleb (- EPSILON2) ?t && Rltb ?t m2)%bool then _ else _] =>
      destruct (Rleb (- EPSILON2) t && Rltb t m2) eqn:Ec
  end; cbv beta iota in H.
  - match type of H with
    | context [if (Rleb (- EPSILON2) ?p && Rleb ?p ?ub)%bool then _ else _] =>
        destruct (Rleb (- EPSILON2) p && Rleb p ub) eqn:Ep
    end; cbv beta iota in H.
    + left. rcmp. injection H as <- _. eexists; split; [reflexivity | split; [assumption|]].
      split; assumption.
    + right. destruct c2; [|discriminate]. injection H as <- _.
      destruct (Hsrc eq_refl) as [n' Hn']. exists n'.
      assert (0 <= m2) by (destruct Hn' as [Hn' | Hn']; eapply pointSweep_nonneg; exact Hn').
      unfold fmaxf; rewrite Rmax_right by assumption. exact Hn'.
  - right. destruct c2; [|discriminate]. injection H as <- _.
    destruct (Hsrc eq_refl) as [n' Hn']. exists n'.
    assert (0 <= m2) by (destruct Hn' as [Hn' | Hn']; eapply pointSweep_nonneg; exact Hn').
    unfold fmaxf; rewrite Rmax_right by assumption. exact Hn'.
Qed.

Lemma sweptBallToStaticSegmentCollision_contact_source_witness :
  exists n,
    sweptBallToStaticSegmentCollision origin (mkVector2 10 0) (mkVector2 (-20) 0) (mkVector2 10 0) 5 2
      = Some (3 / 2, n) /\
    ((exists t, 3 / 2 = fmaxf 0 t /\ - EPSILON2 <= t /\
       - EPSILON2 <= contactProjection origin (mkVector2 10 0) (mkVector2 (-20) 0) (mkVector2 10 0) t
         <= sqrt (Vector2LengthSqr (Vector2Subtract (mkVector2 10 0) origin)) + EPSILON2) \/
     (exists n', sweptBallToStaticPointCollision origin (mkVector2 (-20) 0) (mkVector2 10 0) 5 2
                   = Some (3 / 2, n') \/
                 sweptBallToStaticPointCollision (mkVector2 10 0) (mkVector2 (-20) 0) (mkVector2 10 0) 5 2
                   = Some (3 / 2, n'))).
Proof.
  destruct segment_endpoint_hit as [n Hn]. exists n. split; [exact Hn |].
  exact (sweptBallToStaticSegmentCollision_contact_source _ _ _ _ _ _ _ _ Hn).
Defined.

(** (C5) A ball moving along the segment line towards the endpoint
    [origin] of the segment from [origin] to (10, 0) hits that endpoint at
    [toi = 3/2]; the contact projection there is -5, outside
    [-EPSILON2, 10 + EPSILON2]. *)
Lemma sweptBallToStaticSegmentCollision_endpoint_off_segment :
  (exists n,
    sweptBallToStaticSegmentCollision origin (mkVector2 10 0) (mkVector2 (-20) 0) (mkVector2 10 0) 5 2
      = Some (3 / 2, n)) /\
  contactProjection origin (mkVector2 10 0) (mkVector2 (-20) 0) (mkVector2 10 0) (3 / 2) = -5 /\
  -5 < - EPSILON2.
Proof.
  split; [exact segment_endpoint_hit | split; [exact contactProjection_endpoint |]].
  unfold EPSILON2; lra.
Qed.

(** * Further properties *)

(** ** Helpers *)

Ltac rcases :=
  repeat (match goal with
          | |- context [Rltb ?a ?b] =>
              assert_fails (idtac; match a with context [if _ then _ else _] => idtac end);
              assert_fails (idtac; match b with context [if _ then _ else _] => idtac end);
              destruct (Rltb a b) eqn:?
          end; rcmp; cbn [x y andb orb position velocity radius set_position set_velocity Vector2Scale] in *).

Lemma screenWrap_band : forall p, onScreenBand (screenWrap p).
Proof.
  intros p; unfold screenWrap, onScreenBand, SCREEN_WIDTH, SCREEN_HEIGHT; cbv zeta.
  rcases; cbn; lra.
Qed.

Lemma screenWrap_id : forall p, onScreenBand p -> screenWrap p = p.
Proof.
  intros [px py] H; unfold screenWrap, onScreenBand, SCREEN_WIDTH, SCREEN_HEIGHT in *; cbv zeta; cbn in *.
  rcases; try lra; reflexivity.
Qed.

Lemma rotationDown_ok : forall n r, r <= 360 * (INR n + 1) ->
  rotationDownLoop n r <= 360 /\ (0 <= r -> 0 <= rotationDownLoop n r) /\
  exists k : nat, rotationDownLoop n r = r - 360 * INR k.
Proof.
  induction n as [|n IH]; intros r Hr; cbn [rotationDownLoop].
  - cbn in Hr. split; [lra|]. split; [lra|]. exists O; cbn; ring.
  - destruct (Rltb 360 r) eqn:E; rcmp.
    + rewrite S_INR in Hr. destruct (IH (r - 360)) as [H1 [H2 [k Hk]]]; [lra|].
      split; [exact H1|]. split; [intros; apply H2; lra|].
      exists (S k); rewrite Hk, S_INR; ring.
    + split; [lra|]. split; [lra|]. exists O; cbn; ring.
Qed.

Lemma rotationUp_ok : forall n r, - 360 * INR n <= r ->
  0 <= rotationUpLoop n r /\ (r <= 360 -> rotationUpLoop n r <= 360) /\
  exists k : nat, rotationUpLoop n r = r + 360 * INR k.
Proof.
  induction n as [|n IH]; intros r Hr; cbn [rotationUpLoop].
  - cbn in Hr. split; [lra|]. split; [lra|]. exists O; cbn; ring.
  - destruct (Rltb r 0) eqn:E; rcmp.
    + rewrite S_INR in Hr. destruct (IH (r + 360)) as [H1 [H2 [k Hk]]]; [lra|].
      split; [exact H1|]. split; [intros; apply H2; lra|].
      exists (S k); rewrite Hk, S_INR; ring.
    + split; [lra|]. split; [lra|]. exists O; cbn; ring.
Qed.

Lemma rotationFuel_bound : forall r, Rabs r <= 360 * INR (rotationFuel r).
Proof.
  intros r; unfold rotationFuel.
  destruct (archimed (Rabs r / 360)) as [H1 _].
  assert (Hp : (0 <= up (Rabs r / 360))%Z).
  { apply le_IZR. pose proof (Rabs_pos r). lra. }
  rewrite INR_IZR_INZ, Z2Nat.id by exact Hp. lra.
Qed.

Ltac no_if t := assert_fails (idtac; match t with context [if _ then _ else _] => idtac end).

Ltac rdestr_in H :=
  repeat (match type of H with
          | context [Rltb ?a ?b] => no_if a; no_if b; destruct (Rltb a b) eqn:?
          | context [Rleb ?a ?b] => no_if a; no_if b; destruct (Rleb a b) eqn:?
          end; cbn [andb orb] in H); rcmp.

Ltac rbranch_in H :=
  repeat (match type of H with
          | context [if ?c then _ else _] =>
              no_if c;
              match c with
              | context [Rltb ?a ?b] => destruct (Rltb a b) eqn:?
              | context [Rleb ?a ?b] => destruct (Rleb a b) eqn:?
              end
          end; cbn [andb orb] in H; cbv beta iota in H); rcmp.

Lemma Normalize_unit : forall v, 0 < Vector2LengthSqr v ->
  Vector2LengthSqr (Vector2Normalize v) = 1.
Proof.
  intros [a b] Hv; unfold Vector2Normalize, Vector2LengthSqr in *; cbn [x y] in *.
  assert (Hs : 0 < sqrt (a * a + b * b)) by (apply sqrt_lt_R0; exact Hv).
  rewrite (proj2 (Rltb_true _ _) Hs); cbn [x y].
  assert (Hss : sqrt (a * a + b * b) * sqrt (a * a + b * b) = a * a + b * b)
    by (apply sqrt_sqrt; lra).
  replace (a * (1 / sqrt (a * a + b * b)) * (a * (1 / sqrt (a * a + b * b))) +
           b * (1 / sqrt (a * a + b * b)) * (b * (1 / sqrt (a * a + b * b))))
    with ((a * a + b * b) / (sqrt (a * a + b * b) * sqrt (a * a + b * b))) by (field; lra).
  rewrite Hss; field; lra.
Qed.

Lemma Normalize_unit_or_zero : forall v,
  Vector2Normalize v = Vector2Zero \/ Vector2LengthSqr (Vector2Normalize v) = 1.
Proof.
  intros v. destruct (Rlt_dec 0 (Vector2LengthSqr v)) as [H|H].
  - right; apply Normalize_unit; exact H.
  - left. destruct v as [a b]; unfold Vector2LengthSqr in H; cbn [x y] in H.
    assert (a * a + b * b = 0) by nra.
    unfold Vector2Normalize; cbn [x y]. rewrite H0, sqrt_0.
    rewrite (proj2 (Rltb_false _ _)) by lra. reflexivity.
Qed.

Lemma ifDegenerate_unit : forall n fb,
  (n = Vector2Zero \/ Vector2LengthSqr n = 1) -> Vector2LengthSqr fb = 1 ->
  Vector2LengthSqr (ifDegenerate n fb) = 1.
Proof.
  intros n fb Hn Hfb; unfold ifDegenerate.
  destruct (Rltb _ _) eqn:E; rcmp; auto.
  destruct Hn as [-> | Hn]; auto.
  unfold Vector2LengthSqr, Vector2Zero, EPSILON2 in E; cbn [x y] in E; lra.
Qed.

Lemma ifDegenerate_keep : forall n fb, Vector2LengthSqr n = 1 ->
  Vector2LengthSqr (ifDegenerate n fb) = 1.
Proof.
  intros n fb Hn; unfold ifDegenerate; rewrite Hn, (proj2 (Rltb_false _ _)); auto.
  unfold EPSILON2; lra.
Qed.

Lemma defaultNormal_unit : Vector2LengthSqr defaultNormal = 1.
Proof. unfold Vector2LengthSqr, defaultNormal; cbn [x y]; ring. Qed.

Lemma sweep_normal_unit : forall u v,
  Vector2LengthSqr (ifDegenerate (Vector2Normalize u)
    (ifDegenerate (Vector2Normalize v) defaultNormal)) = 1.
Proof.
  intros u v; apply ifDegenerate_unit; [apply Normalize_unit_or_zero|].
  apply ifDegenerate_unit; [apply Normalize_unit_or_zero|apply defaultNormal_unit].
Qed.

Lemma fmaxf_window : forall t dt, 0 <= dt -> t <= dt + EPSILON2 ->
  0 <= fmaxf 0 t <= dt + EPSILON2.
Proof.
  intros t dt Hdt Ht; unfold fmaxf, EPSILON2 in *; split;
    [apply Rmax_l | apply Rmax_lub; lra].
Qed.

Lemma pointSweep_bounds : forall point ballPos ballVel r dt toi n,
  0 <= dt ->
  sweptBallToStaticPointCollision point ballPos ballVel r dt = Some (toi, n) ->
  0 <= toi <= dt + EPSILON2 /\ Vector2LengthSqr n = 1.
Proof.
  intros point ballPos ballVel r dt toi n Hdt H.
  unfold sweptBallToStaticPointCollision, inWindow in H; cbv zeta in H.
  rdestr_in H; try discriminate; injection H as <- <-;
    (split; [|apply sweep_normal_unit]);
    first [unfold EPSILON2; lra | apply fmaxf_window; unfold EPSILON2 in *; lra].
Qed.

Lemma segPerpDir_unit : forall p1 p2, EPSILON2 <= Vector2LengthSqr (Vector2Subtract p2 p1) ->
  Vector2LengthSqr (segPerpDir p1 p2) = 1.
Proof.
  intros p1 p2 H; unfold segPerpDir, segDirNormalized.
  pose proof (Normalize_unit (Vector2Subtract p2 p1)) as Hn.
  unfold Vector2LengthSqr in *; cbn [x y]. rewrite <- Hn by (unfold EPSILON2 in H; lra). ring.
Qed.

Lemma Negate_unit : forall v, Vector2LengthSqr v = 1 -> Vector2LengthSqr (Vector2Negate v) = 1.
Proof. intros v H; unfold Vector2LengthSqr, Vector2Negate in *; cbn [x y]; lra. Qed.

Lemma segmentSweep_bounds : forall p1 p2 ballPos ballVel r dt toi n,
  0 <= dt ->
  sweptBallToStaticSegmentCollision p1 p2 ballPos ballVel r dt = Some (toi, n) ->
  0 <= toi <= dt + EPSILON2 /\ Vector2LengthSqr n = 1.
Proof.
  intros p1 p2 ballPos ballVel r dt toi n Hdt H.
  unfold sweptBallToStaticSegmentCollision, inWindow in H; cbv zeta in H.
  destruct (sweptBallToStaticPointCollision p1 ballPos ballVel r dt) as [[t1 n1]|] eqn:Hp1;
  [destruct (pointSweep_bounds _ _ _ _ _ _ _ Hdt Hp1) as [Ht1 Hn1]|];
  (destruct (sweptBallToStaticPointCollision p2 ballPos ballVel r dt) as [[t2 n2]|] eqn:Hp2;
  [destruct (pointSweep_bounds _ _ _ _ _ _ _ Hdt Hp2) as [Ht2 Hn2]|]);
  cbn [keepEarlier] in H; unfold earlyExit in H;
  rbranch_in H; try discriminate;
  injection H as <- <-; (split; [first [lra | apply fmaxf_window; [exact Hdt | unfold EPSILON2 in *; lra]]|]);
  first [ assumption
        | apply ifDegenerate_keep; assumption
        | apply ifDegenerate_keep; apply ifDegenerate_unit;
          [apply Normalize_unit_or_zero
          | first [apply segPerpDir_unit | apply Negate_unit, segPerpDir_unit]; lra]].
Qed.

Lemma segmentsCollision_bounds : forall segs ballPos v r dt toi n,
  0 <= dt -> segmentsCollision segs ballPos v r dt = Collision toi n ->
  0 <= toi <= dt + EPSILON2 /\ Vector2LengthSqr n = 1.
Proof.
  intros segs ballPos v r dt toi n Hdt H; unfold segmentsCollision in H.
  set (P := fun acc : SweepAcc => let '(m, c, nn) := acc in
              m <= dt + EPSILON2 /\ (c = true -> 0 <= m /\ Vector2LengthSqr nn = 1)).
  assert (HP : P (fold_left
      (fun (acc : SweepAcc) (seg : Vector2 * Vector2) =>
         let '(m, _, _) := acc in
         match sweptBallToStaticSegmentCollision (fst seg) (snd seg) ballPos v r dt with
         | Some (t, n) => if Rleb (- EPSILON2) t && Rltb t m then (t, true, n) else acc
         | None => acc
         end) segs (dt + EPSILON2, false, Vector2Zero))).
  { apply fold_left_invariant.
    - intros [[m c] nn] seg Hacc; cbv beta iota.
      destruct (sweptBallToStaticSegmentCollision _ _ _ _ _ _) as [[t nt]|] eqn:Hs; auto.
      destruct (segmentSweep_bounds _ _ _ _ _ _ _ _ Hdt Hs) as [Ht Hnt].
      destruct (Rleb _ _ && Rltb _ _) eqn:E; auto.
      cbn; split; [lra | intros _; split; [lra | exact Hnt]].
    - cbn; split; [lra | discriminate]. }
  destruct (fold_left _ _ _) as [[m c] nn]; cbn in HP.
  destruct c; [|discriminate]. injection H as <- <-.
  destruct HP as [H1 H2]; destruct (H2 eq_refl); auto.
Qed.

Lemma segmentsCollision_not_unset : forall segs ballPos v r dt,
  segmentsCollision segs ballPos v r dt <> CollisionOutUnset.
Proof.
  intros; unfold segmentsCollision.
  destruct (fold_left _ _ _) as [[m c] nn]; destruct c; discriminate.
Qed.

Lemma Vector2_eq : forall u v, x u = x v -> y u = y v -> u = v.
Proof. intros [a b] [c d]; cbn; intros -> ->; reflexivity. Qed.

Lemma sameBody_refl : forall b, sameBody b b.
Proof. intros [p v r c m e i d l]; reflexivity. Qed.

Lemma resolveBallPair_bodies : forall b1 b2,
  sameBody b1 (fst (resolveBallPair b1 b2)) /\ sameBody b2 (snd (resolveBallPair b1 b2)).
Proof.
  intros b1 b2; unfold resolveBallPair; cbv zeta.
  destruct (Rltb _ _); split; try apply sameBody_refl; reflexivity.
Qed.

Lemma resolveBallPair_momentum : forall b1 b2, 0 < mass b1 -> 0 < mass b2 ->
  let '(c1, c2) := resolveBallPair b1 b2 in
  Vector2Add (momentum c1) (momentum c2) = Vector2Add (momentum b1) (momentum b2) /\
  Vector2Add (massMoment c1) (massMoment c2) = Vector2Add (massMoment b1) (massMoment b2).
Proof.
  intros b1 b2 H1 H2; unfold resolveBallPair; cbv zeta.
  destruct (Rltb _ _); [|split; reflexivity].
  unfold momentum, massMoment; cbn.
  split; apply Vector2_eq; cbn; field; lra.
Qed.

Lemma resolveBallPair_energy : forall b1 b2, 0 < mass b1 -> 0 < mass b2 ->
  -1 <= restitution b1 * restitution b2 <= 1 ->
  let '(c1, c2) := resolveBallPair b1 b2 in
  kineticEnergy c1 + kineticEnergy c2 <= kineticEnergy b1 + kineticEnergy b2 /\
  (restitution b1 * restitution b2 = 1 ->
   kineticEnergy c1 + kineticEnergy c2 = kineticEnergy b1 + kineticEnergy b2).
Proof.
  intros b1 b2 H1 H2 He; unfold resolveBallPair; cbv zeta.
  destruct (Rltb _ _); [|split; [lra | reflexivity]].
  unfold kineticEnergy, Vector2LengthSqr; cbn.
  set (n := Vector2Normalize (Vector2Subtract (position b2) (position b1))).
  set (e := restitution b1 * restitution b2).
  set (m1 := mass b1) in *; set (m2 := mass b2) in *.
  set (v1 := velocity b1); set (v2 := velocity b2).
  unfold Vector2DotProduct, Vector2Subtract; cbn [x y].
  set (d := (x v1 - x v2) * x n + (y v1 - y v2) * y n).
  set (S := 1 / m1 + 1 / m2).
  assert (HS : 0 < S) by (unfold S; apply Rplus_lt_0_compat; apply Rdiv_lt_0_compat; lra).
  set (J := - (1 + e) * d / S).
  assert (Hdiff : forall N, N = x n * x n + y n * y n ->
    m1 * ((x v1 + x n * (J / m1)) * (x v1 + x n * (J / m1)) +
          (y v1 + y n * (J / m1)) * (y v1 + y n * (J / m1))) / 2 +
    m2 * ((x v2 - x n * (J / m2)) * (x v2 - x n * (J / m2)) +
          (y v2 - y n * (J / m2)) * (y v2 - y n * (J / m2))) / 2 -
    (m1 * (x v1 * x v1 + y v1 * y v1) / 2 + m2 * (x v2 * x v2 + y v2 * y v2) / 2)
    = J * d + J * J * S * N / 2).
  { intros N ->. unfold J, S, d. field. lra. }
  destruct (Normalize_unit_or_zero (Vector2Subtract (position b2) (position b1))) as [Hn | Hn];
    fold n in Hn.
  - rewrite Hn in *; cbn [x y Vector2Zero] in *.
    specialize (Hdiff 0 ltac:(cbn; ring)).
    assert (Hd : d = 0) by (unfold d; rewrite Hn; cbn; ring).
    assert (HJ : J = 0) by (unfold J; rewrite Hd; field; lra).
    rewrite HJ in Hdiff. split; [|intros _]; lra.
  - unfold Vector2LengthSqr in Hn.
    specialize (Hdiff 1 ltac:(rewrite Hn; reflexivity)).
    assert (HJ : J * d + J * J * S * 1 / 2 = (1 + e) * (e - 1) * (d * d) / (2 * S))
      by (unfold J; field; lra).
    assert (Hsign : (1 + e) * (e - 1) * (d * d) / (2 * S) <= 0).
    { assert (0 <= d * d) by apply Rle_0_sqr.
      assert (0 <= (1 + e) * (1 - e)) by (apply Rmult_le_pos; unfold e in *; lra).
      assert (0 <= - ((1 + e) * (e - 1) * (d * d))).
      { replace (- ((1 + e) * (e - 1) * (d * d))) with ((1 + e) * (1 - e) * (d * d)) by ring.
        apply Rmult_le_pos; assumption. }
      assert (0 <= - ((1 + e) * (e - 1) * (d * d)) * / (2 * S))
        by (apply Rmult_le_pos; [lra | left; apply Rinv_0_lt_compat; lra]).
      unfold Rdiv. rewrite Ropp_mult_distr_l_reverse in H4. lra. }
    split; [lra|]. intros He1. rewrite He1 in HJ.
    replace ((1 + 1) * (1 - 1) * (d * d) / (2 * S)) with 0 in HJ by (field; lra). lra.
Qed.

Lemma sameBody_fields : forall b b', sameBody b b' ->
  radius b' = radius b /\ color b' = color b /\ mass b' = mass b /\
  restitution b' = restitution b /\
  interactWithOtherBouncingObjects b' = interactWithOtherBouncingObjects b /\
  markedForDeletion b' = markedForDeletion b /\ onCollisionEffects b' = onCollisionEffects b.
Proof. intros b b' H; rewrite H; cbn; repeat split. Qed.

Lemma sameBody_trans : forall a b c, sameBody a b -> sameBody b c -> sameBody a c.
Proof.
  intros [p v r cl m e i d l] b c H1 H2; unfold sameBody in *; rewrite H2, H1; reflexivity.
Qed.

Lemma ballPairsWith_bodies : forall l b1,
  sameBody b1 (fst (ballPairsWith b1 l)) /\ Forall2 pairedBody l (snd (ballPairsWith b1 l)).
Proof.
  induction l as [|b2 l IH]; intros b1; cbn.
  - split; [apply sameBody_refl | constructor].
  - destruct (interactWithOtherBouncingObjects b2) eqn:Ei.
    + pose proof (resolveBallPair_bodies b1 b2) as [Hc1 Hc2].
      destruct (resolveBallPair b1 b2) as [c1 c2]; cbn in Hc1, Hc2.
      specialize (IH c1). destruct (ballPairsWith c1 l) as [c1' l']; cbn in *.
      destruct IH as [IH1 IH2]. split; [eapply sameBody_trans; eauto|].
      constructor; [split; [exact Hc2 | congruence] | exact IH2].
    + specialize (IH b1). destruct (ballPairsWith b1 l) as [c1' l']; cbn in *.
      destruct IH as [IH1 IH2]. split; [exact IH1|].
      constructor; [split; [apply sameBody_refl | reflexivity] | exact IH2].
Qed.

Lemma Forall_pairedBody : forall (P : BouncingObject -> Prop) l l',
  (forall b b', sameBody b b' -> P b -> P b') ->
  Forall P l -> Forall2 pairedBody l l' -> Forall P l'.
Proof.
  intros P l l' HP Hl H2; induction H2; inversion Hl; subst; constructor; eauto.
  destruct H; eauto.
Qed.


Ltac vcomp H := pose proof (f_equal x H); pose proof (f_equal y H); clear H.

Lemma ballPairsWith_momentum : forall l b1, 0 < mass b1 -> Forall (fun b => 0 < mass b) l ->
  let '(b1', l') := ballPairsWith b1 l in
  Vector2Add (momentum b1') (totalMomentum l') = Vector2Add (momentum b1) (totalMomentum l) /\
  Vector2Add (massMoment b1') (totalMassMoment l') =
  Vector2Add (massMoment b1) (totalMassMoment l).
Proof.
  induction l as [|b2 l IH]; intros b1 Hm1 Hl; cbn [ballPairsWith]; [split; reflexivity|].
  inversion Hl as [|? ? Hm2 Hl']; subst.
  destruct (interactWithOtherBouncingObjects b2) eqn:Ei.
  - pose proof (resolveBallPair_momentum b1 b2 Hm1 Hm2) as Hp.
    pose proof (resolveBallPair_bodies b1 b2) as [Hc1 _].
    destruct (resolveBallPair b1 b2) as [c1 c2]; cbn in Hc1.
    assert (Hmc1 : 0 < mass c1) by (rewrite (proj1 (proj2 (proj2 (sameBody_fields _ _ Hc1)))); exact Hm1).
    specialize (IH c1 Hmc1 Hl'). destruct (ballPairsWith c1 l) as [c1' l'].
    destruct Hp as [Hp1 Hp2]; destruct IH as [IH1 IH2].
    vcomp Hp1; vcomp Hp2; vcomp IH1; vcomp IH2.
    unfold totalMomentum, totalMassMoment in *; cbn [fold_right] in *.
    split; apply Vector2_eq; cbn [Vector2Add x y] in *; lra.
  - specialize (IH b1 Hm1 Hl'). destruct (ballPairsWith b1 l) as [c1' l'].
    destruct IH as [IH1 IH2]; vcomp IH1; vcomp IH2.
    unfold totalMomentum, totalMassMoment in *; cbn [fold_right] in *.
    split; apply Vector2_eq; cbn [Vector2Add x y] in *; lra.
Qed.

Lemma mass_pos_paired : forall l l', Forall (fun b => 0 < mass b) l ->
  Forall2 pairedBody l l' -> Forall (fun b => 0 < mass b) l'.
Proof.
  intros l l'; apply Forall_pairedBody.
  intros b b' H Hm; rewrite (proj1 (proj2 (proj2 (sameBody_fields _ _ H)))); exact Hm.
Qed.

Lemma ballToBallLoop_momentum : forall fuel l, Forall (fun b => 0 < mass b) l ->
  totalMomentum (ballToBallLoop fuel l) = totalMomentum l /\
  totalMassMoment (ballToBallLoop fuel l) = totalMassMoment l.
Proof.
  induction fuel as [|fuel IH]; intros l Hl; [split; reflexivity|].
  destruct l as [|b1 rest]; [split; reflexivity|]. cbn [ballToBallLoop].
  inversion Hl as [|? ? Hm1 Hrest]; subst.
  destruct (interactWithOtherBouncingObjects b1) eqn:Ei.
  - pose proof (ballPairsWith_momentum rest b1 Hm1 Hrest) as Hp.
    pose proof (ballPairsWith_bodies rest b1) as [_ H2].
    destruct (ballPairsWith b1 rest) as [c1 rest']; cbn in H2.
    destruct (IH rest' (mass_pos_paired _ _ Hrest H2)) as [IH1 IH2].
    destruct Hp as [Hp1 Hp2]; vcomp Hp1; vcomp Hp2; vcomp IH1; vcomp IH2.
    unfold totalMomentum, totalMassMoment in *; cbn [fold_right] in *.
    split; apply Vector2_eq; cbn [Vector2Add x y] in *; lra.
  - destruct (IH rest Hrest) as [IH1 IH2].
    unfold totalMomentum, totalMassMoment in *; cbn [fold_right] in *.
    rewrite IH1, IH2; split; reflexivity.
Qed.

Lemma physicalBall_same : forall b b', sameBody b b' -> physicalBall b -> physicalBall b'.
Proof.
  intros b b' H [H1 H2]; destruct (sameBody_fields _ _ H) as (_ & _ & Hm & He & _).
  split; [rewrite Hm | rewrite He]; assumption.
Qed.

Lemma ballPairsWith_energy : forall l b1, physicalBall b1 -> Forall physicalBall l ->
  let '(b1', l') := ballPairsWith b1 l in
  kineticEnergy b1' + totalKineticEnergy l' <= kineticEnergy b1 + totalKineticEnergy l /\
  (restitution b1 = 1 -> Forall (fun b => restitution b = 1) l ->
   kineticEnergy b1' + totalKineticEnergy l' = kineticEnergy b1 + totalKineticEnergy l).
Proof.
  induction l as [|b2 l IH]; intros b1 Hb1 Hl; cbn [ballPairsWith]; [split; [lra | reflexivity]|].
  inversion Hl as [|? ? Hb2 Hl']; subst.
  destruct (interactWithOtherBouncingObjects b2) eqn:Ei.
  - assert (He : -1 <= restitution b1 * restitution b2 <= 1)
      by (destruct Hb1 as [_ [? ?]], Hb2 as [_ [? ?]]; split; nra).
    pose proof (resolveBallPair_energy b1 b2 (proj1 Hb1) (proj1 Hb2) He) as Hp.
    pose proof (resolveBallPair_bodies b1 b2) as [Hc1 Hc2].
    destruct (resolveBallPair b1 b2) as [c1 c2]; cbn in Hc1, Hc2.
    specialize (IH c1 (physicalBall_same _ _ Hc1 Hb1) Hl'). destruct (ballPairsWith c1 l) as [c1' l'].
    destruct Hp as [Hp1 Hp2]; destruct IH as [IH1 IH2].
    unfold totalKineticEnergy in *; cbn [fold_right] in *.
    split; [lra|]. intros Hr1 Hrl. inversion Hrl as [|? ? Hr2 Hrl']; subst.
    assert (restitution c1 = 1)
      by (rewrite (proj1 (proj2 (proj2 (proj2 (sameBody_fields _ _ Hc1))))); exact Hr1).
    specialize (IH2 H Hrl'). specialize (Hp2 ltac:(rewrite Hr1, Hr2; ring)). lra.
  - specialize (IH b1 Hb1 Hl'). destruct (ballPairsWith b1 l) as [c1' l'].
    destruct IH as [IH1 IH2].
    unfold totalKineticEnergy in *; cbn [fold_right] in *.
    split; [lra|]. intros Hr1 Hrl. inversion Hrl; subst. specialize (IH2 Hr1 H2). lra.
Qed.

Lemma restitution_one_paired : forall l l', Forall (fun b => restitution b = 1) l ->
  Forall2 pairedBody l l' -> Forall (fun b => restitution b = 1) l'.
Proof.
  intros l l'; apply Forall_pairedBody.
  intros b b' H Hr; rewrite (proj1 (proj2 (proj2 (proj2 (sameBody_fields _ _ H))))); exact Hr.
Qed.

Lemma ballToBallLoop_energy : forall fuel l, Forall physicalBall l ->
  totalKineticEnergy (ballToBallLoop fuel l) <= totalKineticEnergy l /\
  (Forall (fun b => restitution b = 1) l ->
   totalKineticEnergy (ballToBallLoop fuel l) = totalKineticEnergy l).
Proof.
  induction fuel as [|fuel IH]; intros l Hl; [cbn [ballToBallLoop]; split; [lra | reflexivity]|].
  destruct l as [|b1 rest]; [cbn [ballToBallLoop]; split; [lra | reflexivity]|]. cbn [ballToBallLoop].
  inversion Hl as [|? ? Hb1 Hrest]; subst.
  destruct (interactWithOtherBouncingObjects b1) eqn:Ei.
  - pose proof (ballPairsWith_energy rest b1 Hb1 Hrest) as Hp.
    pose proof (ballPairsWith_bodies rest b1) as [_ H2].
    destruct (ballPairsWith b1 rest) as [c1 rest']; cbn in H2.
    destruct (IH rest' (Forall_pairedBody _ _ _ physicalBall_same Hrest H2)) as [IH1 IH2].
    destruct Hp as [Hp1 Hp2].
    unfold totalKineticEnergy in *; cbn [fold_right] in *.
    split; [lra|]. intros Hr. inversion Hr as [|? ? Hr1 Hrl]; subst.
    specialize (Hp2 Hr1 Hrl). specialize (IH2 (restitution_one_paired _ _ Hrl H2)). lra.
  - destruct (IH rest Hrest) as [IH1 IH2].
    unfold totalKineticEnergy in *; cbn [fold_right] in *.
    split; [lra|]. intros Hr; inversion Hr; subst. specialize (IH2 H2). lra.
Qed.

Lemma applyBallEffect_frame : forall ong st e,
  let '(b, s) := st in let '(b', s') := applyBallEffect ong st e in
  position b' = position b /\ mass b' = mass b /\ restitution b' = restitution b /\
  interactWithOtherBouncingObjects b' = interactWithOtherBouncingObjects b /\
  onCollisionEffects b' = onCollisionEffects b /\
  (markedForDeletion b = true -> markedForDeletion b' = true) /\
  (radius b' = radius b \/ 2 <= radius b' <= 100) /\
  s' = s ++ map ToggleSound (soundsOf (firedEffects ong [e])).
Proof.
  intros ong [b s] e; unfold applyBallEffect, firedEffects, soundsOf; cbn [filter flat_map].
  destruct ong, (continuous e); cbn [andb negb orb filter flat_map];
  destruct (params e); cbn;
    repeat split; auto; try (left; reflexivity); try (rewrite app_nil_r; reflexivity);
    right; unfold Clamp; cbv zeta;
    destruct (Rltb _ 2) eqn:E1; destruct (Rltb 100 _) eqn:E2; rcmp; lra.
Qed.

Lemma applyObjectEffect_frame : forall ong st e,
  let '(b, s) := st in let '(b', s') := applyObjectEffect ong st e in
  position b' = position b /\ mass b' = mass b /\ restitution b' = restitution b /\
  interactWithOtherBouncingObjects b' = interactWithOtherBouncingObjects b /\
  onCollisionEffects b' = onCollisionEffects b /\
  (markedForDeletion b = true -> markedForDeletion b' = true) /\
  (radius b' = radius b \/ 2 <= radius b' <= 100) /\
  s' = s ++ map PlaySound (soundsOf (firedEffects ong [e])).
Proof.
  intros ong [b s] e; unfold applyObjectEffect, firedEffects, soundsOf; cbn [filter].
  destruct ong, (continuous e); cbn [andb negb orb filter flat_map];
  destruct (params e); cbn;
    repeat split; auto; try (left; reflexivity); try (rewrite app_nil_r; reflexivity);
    right; unfold Clamp; cbv zeta;
    destruct (Rltb _ 2) eqn:E1; destruct (Rltb 100 _) eqn:E2; rcmp; lra.
Qed.

Lemma effectFrame_refl : forall b, effectFrame b b.
Proof. intros b; repeat split; auto. Qed.

Lemma effectFrame_trans : forall a b c, effectFrame a b -> effectFrame b c -> effectFrame a c.
Proof.
  intros a b c (H1 & H2 & H3 & H4 & H5 & H6 & H7) (G1 & G2 & G3 & G4 & G5 & G6 & G7).
  repeat split; try congruence; auto.
  destruct G7 as [G7|G7]; [rewrite G7|]; auto.
Qed.

Lemma soundsOf_cons : forall ong e l,
  soundsOf (firedEffects ong (e :: l)) =
  soundsOf (firedEffects ong [e]) ++ soundsOf (firedEffects ong l).
Proof.
  intros ong e l; unfold firedEffects, soundsOf; cbn [filter].
  destruct (negb ong || continuous e); cbn [flat_map]; rewrite ?app_nil_r; auto.
Qed.

Lemma fold_ball_frame : forall ong l b s,
  let '(b', s') := fold_left (applyBallEffect ong) l (b, s) in
  effectFrame b b' /\ s' = s ++ map ToggleSound (soundsOf (firedEffects ong l)).
Proof.
  intros ong; induction l as [|e l IH]; intros b s; cbn [fold_left].
  - split; [apply effectFrame_refl | cbn; rewrite app_nil_r; reflexivity].
  - pose proof (applyBallEffect_frame ong (b, s) e) as He.
    destruct (applyBallEffect ong (b, s) e) as [b1 s1].
    specialize (IH b1 s1). destruct (fold_left _ l (b1, s1)) as [b2 s2].
    destruct He as (H1 & H2 & H3 & H4 & H5 & H6 & H7 & H8). destruct IH as [IH1 IH2].
    split.
    + eapply effectFrame_trans; [|exact IH1]. repeat split; auto.
    + rewrite IH2, H8, (soundsOf_cons ong e l), map_app, app_assoc. reflexivity.
Qed.

Lemma fold_object_frame : forall ong l b s,
  let '(b', s') := fold_left (applyObjectEffect ong) l (b, s) in
  effectFrame b b' /\ s' = s ++ map PlaySound (soundsOf (firedEffects ong l)).
Proof.
  intros ong; induction l as [|e l IH]; intros b s; cbn [fold_left].
  - split; [apply effectFrame_refl | cbn; rewrite app_nil_r; reflexivity].
  - pose proof (applyObjectEffect_frame ong (b, s) e) as He.
    destruct (applyObjectEffect ong (b, s) e) as [b1 s1].
    specialize (IH b1 s1). destruct (fold_left _ l (b1, s1)) as [b2 s2].
    destruct He as (H1 & H2 & H3 & H4 & H5 & H6 & H7 & H8). destruct IH as [IH1 IH2].
    split.
    + eapply effectFrame_trans; [|exact IH1]. repeat split; auto.
    + rewrite IH2, H8, (soundsOf_cons ong e l), map_app, app_assoc. reflexivity.
Qed.

Lemma allocEffect_spec : forall h eff,
  allocEffect h eff = (match fst (malloc h) with None => None | Some _ => Some eff end,
                       snd (malloc h)).
Proof. intros h eff; unfold allocEffect; destruct (malloc h) as [[a|] h1]; reflexivity. Qed.

Lemma velocityFactor_unit_interval : forall l,
  Forall (fun e => 0 <= effectVelocityFactor e <= 1) l -> 0 <= velocityFactor l <= 1.
Proof.
  induction l as [|e l IH]; intros H; cbn [velocityFactor fold_right]; [lra|].
  inversion H as [|? ? He Hl]; subst. fold (velocityFactor l).
  specialize (IH Hl). split; [apply Rmult_le_pos; lra|].
  rewrite <- (Rmult_1_r 1). apply Rmult_le_compat; lra.
Qed.

Lemma createVelocityDampenEffect_range : forall h f c eff h',
  createVelocityDampenEffect h f c = (Some eff, h') ->
  exists k, params eff = EFFECT_VELOCITY_DAMPEN k /\ 1 / 100 <= k <= 99 / 100.
Proof.
  intros h f c eff h'; unfold createVelocityDampenEffect; rewrite allocEffect_spec.
  destruct (malloc h) as [[a|] h1]; cbn [fst snd]; [|discriminate].
  intros E; injection E as <- _. eexists; split; [reflexivity|].
  unfold Clamp; cbv zeta.
  destruct (Rltb f (1 / 100)) eqn:E1; [destruct (Rltb (99 / 100) (1 / 100)) eqn:E2 |
    destruct (Rltb (99 / 100) f) eqn:E2]; rcmp; lra.
Qed.

Lemma dampen_built_factor : forall e,
  (effectVelocityFactor e = 1 \/
   exists h f c h', createVelocityDampenEffect h f c = (Some e, h')) ->
  0 <= effectVelocityFactor e <= 1.
Proof.
  intros e [He | (h & f & c & h' & E)]; [lra|].
  destruct (createVelocityDampenEffect_range h f c e h' E) as (k & Hk & Hr).
  unfold effectVelocityFactor; rewrite Hk; lra.
Qed.

Lemma dampen_half : createVelocityDampenEffect (mkHeap [] 1 []) (1 / 2) false =
  (Some (mkEffect (EFFECT_VELOCITY_DAMPEN (1 / 2)) false), mkHeap [1%nat] 2 []).
Proof.
  unfold createVelocityDampenEffect, allocEffect, malloc; cbn [mallocOutcomes live nextAddr].
  replace (Clamp (1 / 2) (1 / 100) (99 / 100)) with (1 / 2); [reflexivity|].
  unfold Clamp; cbv zeta.
  destruct (Rltb (1 / 2) (1 / 100)) eqn:E1; rcmp; [lra|].
  destruct (Rltb (99 / 100) (1 / 2)) eqn:E2; rcmp; lra.
Qed.

Lemma speedValues_range : Forall (fun v => 0 <= v <= 10) speedValues.
Proof. unfold speedValues; repeat apply Forall_cons; try apply Forall_nil; lra. Qed.

Lemma speedAt_range : forall i, 0 <= speedAt i <= 10.
Proof.
  intros i; unfold speedAt.
  destruct (Nat.lt_ge_cases (Z.to_nat i) (length speedValues)) as [Hl|Hl].
  - pose proof (nth_In speedValues 0 Hl) as Hin.
    pose proof speedValues_range as Hr. rewrite Forall_forall in Hr. exact (Hr _ Hin).
  - rewrite nth_overflow by exact Hl. lra.
Qed.

Lemma speedControllerFrame_invariant : forall s d i,
  speedInvariant s -> speedInvariant (speedControllerFrame s d i).
Proof.
  assert (Hn : numSpeedValues = 36%Z) by reflexivity.
  intros s d i Hs; unfold speedControllerFrame.
  assert (Hdec : speedInvariant (decreaseSpeed s)).
  { unfold decreaseSpeed; destruct (Z.gtb_spec (currentSpeedIndex s) 0); [|exact Hs].
    destruct Hs as [Hr _]; split; cbn; [lia | reflexivity]. }
  assert (Hinc : forall s, speedInvariant s -> speedInvariant (increaseSpeed s)).
  { intros s0 H0; unfold increaseSpeed.
    destruct (Z.ltb_spec (currentSpeedIndex s0) (numSpeedValues - 1)); [|exact H0].
    destruct H0 as [Hr _]; split; cbn; [lia | reflexivity]. }
  destruct d, i; auto.
Qed.

Lemma normalizeRotation_ok : forall r,
  let r1 := rotationDownLoop (rotationFuel r) r in
  let r2 := rotationUpLoop (rotationFuel r1) r1 in
  0 <= r2 <= 360 /\ exists k : Z, r2 = r + 360 * IZR k.
Proof.
  intros r r1 r2.
  pose proof (rotationFuel_bound r) as Hf. pose proof (Rle_abs r).
  destruct (rotationDown_ok (rotationFuel r) r) as (Hd1 & Hd2 & kd & Hkd); [lra|].
  fold r1 in Hd1, Hd2, Hkd.
  pose proof (rotationFuel_bound r1) as Hf1.
  assert (Hm' : - r1 <= Rabs r1) by (rewrite <- Rabs_Ropp; apply Rle_abs).
  destruct (rotationUp_ok (rotationFuel r1) r1) as (Hu1 & Hu2 & ku & Hku); [lra|].
  fold r2 in Hu1, Hu2, Hku.
  split; [split; [exact Hu1 | apply Hu2, Hd1]|].
  exists (Z.of_nat ku - Z.of_nat kd)%Z. rewrite Hku, Hkd, minus_IZR, <- !INR_IZR_INZ. ring.
Qed.

Lemma updateGenericMovingObject_spec : forall o dt,
  let o' := updateGenericMovingObject o dt in
  objVelocity o' = objVelocity o /\ isStatic o' = isStatic o /\
  objOnCollisionEffects o' = objOnCollisionEffects o /\
  objMarkedForDeletion o' = objMarkedForDeletion o /\
  shapeData o' = shapeData o /\
  (isStatic o = true -> o' = o) /\
  (isStatic o = false ->
     let p := Vector2Add (objPosition o) (Vector2Scale (objVelocity o) dt) in
     onScreenBand (objPosition o') /\ (onScreenBand p -> objPosition o' = p)).
Proof.
  intros o dt o'; subst o'; unfold updateGenericMovingObject.
  destruct (isStatic o) eqn:Hs.
  - repeat split; try reflexivity; intros; congruence.
  - cbn. do 5 (split; [first [reflexivity | exact Hs]|]).
    split; [discriminate|]. intros _. split; [apply screenWrap_band | intros Hb; apply screenWrap_id, Hb].
Qed.

Lemma updateArcCircleObj_fields : forall self dt data,
  shapeData self = SHAPE_CIRCLE_ARC data ->
  let o := updateArcCircleObj self dt in
  exists rot,
    o = mkGameObject
          (screenWrap (if isStatic self then objPosition self
                       else Vector2Add (objPosition self) (Vector2Scale (objVelocity self) dt)))
          (objVelocity self) (SHAPE_CIRCLE_ARC (set_rotation data rot))
          (isStatic self) (objOnCollisionEffects self) (objMarkedForDeletion self) /\
    0 <= rot <= 360 /\
    (exists k : Z, rot = rotation data + rotationSpeed data * dt + 360 * IZR k) /\
    onScreenBand (objPosition o).
Proof.
  intros self dt data Hd o. subst o. unfold updateArcCircleObj. rewrite Hd. cbv zeta.
  destruct (normalizeRotation_ok (rotation data + rotationSpeed data * dt)) as [Hr Hk].
  eexists; split; [reflexivity|]. split; [exact Hr|]. split; [exact Hk|].
  cbn [objPosition]. apply screenWrap_band.
Qed.

Section LinkedFacts.
Context {A : Type}.
Local Open Scope nat_scope.
Import Linked.
Implicit Types (s : Store A) (l : list A) (n : Node A).


Lemma lseg_frame : forall s s' p ps l, lseg s p ps l ->
  (forall q, In q ps -> s' q = s q) -> lseg s' p ps l.
Proof.
  intros s s' p ps l H; induction H as [|p n ps l Hp Hs Hl IH]; intros Hf.
  - constructor.
  - constructor; auto.
    + rewrite Hf; [exact Hs | left; reflexivity].
    + apply IH; intros q Hq; apply Hf; right; exact Hq.
Qed.

Lemma lseg_det : forall s p ps l ps' l', lseg s p ps l -> lseg s p ps' l' -> ps = ps' /\ l = l'.
Proof.
  intros s p ps l ps' l' H; revert ps' l'; induction H as [|p n ps l Hp Hs Hl IH];
    intros ps' l' H'; inversion H'; subst.
  - split; reflexivity.
  - congruence.
  - congruence.
  - match goal with H1 : s p = Some ?m |- _ => rewrite Hs in H1; injection H1 as <- end.
    destruct (IH _ _ ltac:(eassumption)) as [-> ->]. split; reflexivity.
Qed.

Lemma lseg_length : forall s p ps l, lseg s p ps l -> length ps = length l.
Proof. intros s p ps l H; induction H; cbn; auto. Qed.

Lemma lseg_NULL : forall s ps l, lseg s NULL ps l -> ps = [] /\ l = [].
Proof. intros s ps l H; inversion H; subst; [split; reflexivity | congruence]. Qed.

Lemma lseg_suffix : forall s p ps l q, lseg s p ps l -> In q ps ->
  exists ps1 l1, lseg s q ps1 l1 /\ length ps1 <= length ps /\ In q ps1.
Proof.
  intros s p ps l q H; induction H as [|p n ps l Hp Hs Hl IH]; intros Hq; [destruct Hq|].
  destruct Hq as [<-|Hq].
  - exists (p :: ps), (val n :: l); split; [constructor; auto | split; [lia | left; reflexivity]].
  - destruct (IH Hq) as (ps1 & l1 & H1 & Hlen & Hin). exists ps1, l1; cbn; split; [auto|split; [lia|auto]].
Qed.

Lemma lseg_NoDup : forall s p ps l, lseg s p ps l -> NoDup ps.
Proof.
  intros s p ps l H; induction H as [|p n ps l Hp Hs Hl IH]; constructor; auto.
  intros Hin. destruct (lseg_suffix _ _ _ _ _ Hl Hin) as (ps1 & l1 & H1 & Hlen & _).
  assert (Hp' : lseg s p (p :: ps) (val n :: l)) by (constructor; auto).
  destruct (lseg_det _ _ _ _ _ _ H1 Hp') as [-> _]. cbn in Hlen. lia.
Qed.

Lemma lseg_live : forall s p ps l q, lseg s p ps l -> In q ps -> q <> NULL /\ exists n, s q = Some n.
Proof.
  intros s p ps l q H; induction H as [|p n ps l Hp Hs Hl IH]; intros Hq; [destruct Hq|].
  destruct Hq as [<-|Hq]; [split; [exact Hp | exists n; exact Hs] | auto].
Qed.

Lemma lseg_NULL_inv : forall s cur ps, lseg s cur ps [] -> cur = NULL /\ ps = [].
Proof. intros s cur ps H; inversion H; subst; split; reflexivity. Qed.

Lemma lseg_cons_inv : forall s cur ps a l, lseg s cur ps (a :: l) ->
  exists p n ps0, cur = p /\ ps = p :: ps0 /\ val n = a /\ p <> NULL /\ s p = Some n /\
    lseg s (next n) ps0 l.
Proof.
  intros s cur ps a l H; inversion H; subst. eexists _, _, _; repeat split; eauto.
Qed.

Lemma upd_eq : forall s p v, upd s p v p = v.
Proof. intros; unfold upd; rewrite Nat.eqb_refl; reflexivity. Qed.

Lemma upd_neq : forall s p v q, q <> p -> upd s p v q = s q.
Proof. intros; unfold upd; destruct (Nat.eqb_spec q p); [contradiction | reflexivity]. Qed.

Lemma set_next_neq : forall s p nxt q, q <> p -> set_next s p nxt q = s q.
Proof. intros; unfold set_next; destruct (s p); [apply upd_neq; assumption | reflexivity]. Qed.

Lemma node_eta : forall n, n = mkNode (val n) (next n).
Proof. intros [v nx]; reflexivity. Qed.

Variable marked : A -> bool.

Lemma removeMarkedLoop_spec : forall l s cur ps, lseg s cur ps l ->
  forall fuel head prev released,
  length l < fuel -> ~ In prev ps ->
  (prev = NULL -> head = cur) ->
  (prev <> NULL -> exists v, s prev = Some (mkNode v cur)) ->
  exists head' s' k ps',
    removeMarkedLoop marked fuel head cur prev s released =
      Some (head', s', released ++ filter marked l) /\
    lseg s' k ps' (filter (fun v => negb (marked v)) l) /\ incl ps' ps /\
    (prev = NULL -> head' = k) /\
    (prev <> NULL -> head' = head /\
       forall v, s prev = Some (mkNode v cur) -> s' prev = Some (mkNode v k)) /\
    (forall q, ~ In q ps -> q <> prev -> s' q = s q) /\
    (forall q n, In q ps -> s q = Some n -> marked (val n) = true -> s' q = None).
Proof.
  induction l as [|a l IH]; intros s cur ps H fuel head prev released Hfuel Hprev Hhead Hprevn;
    (destruct fuel as [|fuel]; [cbn in Hfuel; lia|]).
  - apply lseg_NULL_inv in H. destruct H as [-> ->].
    exists head, s, NULL, []; cbn. rewrite app_nil_r. split; [reflexivity|].
    split; [constructor|]. split; [intros q []|].
    split; [exact Hhead|]. split; [|split; [reflexivity | intros q n []]].
    intros Hpv; split; [reflexivity | intros v Hv; exact Hv].
  - apply lseg_cons_inv in H. destruct H as (p & n & ps0 & -> & -> & <- & Hp & Hs & Hl).
    rename ps0 into ps, p into cur.
    rename cur into p.
    cbn [removeMarkedLoop]. destruct (Nat.eqb_spec p NULL) as [E|_]; [contradiction|].
    rewrite Hs. cbv zeta. cbn in Hfuel.
    assert (Hnd : NoDup (p :: ps)).
    { apply (lseg_NoDup s p _ (val n :: l)); constructor; auto. }
    inversion Hnd as [|? ? Hpn Hnd']; subst.
    assert (Hprev' : prev <> p) by (intros ->; apply Hprev; left; reflexivity).
    assert (Hprevps : ~ In prev ps) by (intros Hi; apply Hprev; right; exact Hi).
    cbn [filter]. destruct (marked (val n)) eqn:Hm; cbn [negb].
    + destruct (Nat.eqb_spec prev NULL) as [Hpz|Hpz].
      * (* removing the head of the list *)
        set (s1 := freeNode s p).
        assert (Hl1 : lseg s1 (next n) ps l).
        { apply (lseg_frame s); [exact Hl|]. intros q Hq; unfold s1, freeNode.
          apply upd_neq; intros ->; contradiction. }
        destruct (IH s1 (next n) ps Hl1 fuel (next n) prev (released ++ [val n]) ltac:(lia) Hprevps
                    (fun _ => eq_refl) (fun Hn => False_ind _ (Hn Hpz)))
          as (head' & s' & k & ps' & Hrun & Hk & Hinc & Hh & _ & Hfr & Hmk).
        exists head', s', k, ps'. rewrite <- app_assoc in Hrun. split; [exact Hrun|].
        split; [exact Hk|]. split; [intros q Hq; right; apply Hinc, Hq|].
        split; [exact Hh|]. split; [intros Hn; contradiction|]. split.
        { intros q Hq Hqp. rewrite Hfr; [|intros Hi; apply Hq; right; exact Hi | exact Hqp].
          unfold s1, freeNode; apply upd_neq; intros ->; apply Hq; left; reflexivity. }
        { intros q m [<-|Hq] Hsq Hmq.
          - rewrite Hfr; [|exact Hpn|intros E; apply Hp; congruence]. unfold s1, freeNode; apply upd_eq.
          - apply (Hmk q m Hq); [|exact Hmq]. unfold s1, freeNode. rewrite upd_neq; [exact Hsq|].
            intros ->; contradiction. }
      * (* unlinking after [prev] *)
        destruct (Hprevn Hpz) as [v Hv].
        set (s1 := freeNode (set_next s prev (next n)) p).
        assert (Hs1q : forall q, q <> p -> q <> prev -> s1 q = s q).
        { intros q H1 H2; unfold s1, freeNode; rewrite upd_neq by exact H1; apply set_next_neq; exact H2. }
        assert (Hs1p : s1 prev = Some (mkNode v (next n))).
        { unfold s1, freeNode; rewrite upd_neq by exact Hprev'. unfold set_next; rewrite Hv.
          apply upd_eq. }
        assert (Hl1 : lseg s1 (next n) ps l).
        { apply (lseg_frame s); [exact Hl|]. intros q Hq; apply Hs1q.
          - intros ->; contradiction.
          - intros ->; contradiction. }
        destruct (IH s1 (next n) ps Hl1 fuel head prev (released ++ [val n]) ltac:(lia) Hprevps
                    (fun E => False_ind _ (Hpz E)) (fun _ => ex_intro _ v Hs1p))
          as (head' & s' & k & ps' & Hrun & Hk & Hinc & _ & Hh & Hfr & Hmk).
        exists head', s', k, ps'. rewrite <- app_assoc in Hrun. split; [exact Hrun|].
        split; [exact Hk|]. split; [intros q Hq; right; apply Hinc, Hq|].
        split; [intros E; contradiction|]. split.
        { intros _; destruct (Hh Hpz) as [Hhd Hsp]; split; [exact Hhd|].
          intros v' Hv'. rewrite Hv in Hv'. injection Hv' as <-. apply Hsp, Hs1p. }
        split.
        { intros q Hq Hqp. rewrite Hfr; [|intros Hi; apply Hq; right; exact Hi | exact Hqp].
          apply Hs1q; [intros ->; apply Hq; left; reflexivity | exact Hqp]. }
        { intros q m [<-|Hq] Hsq Hmq.
          - rewrite Hfr; [|exact Hpn|exact (not_eq_sym Hprev')]. unfold s1, freeNode; apply upd_eq.
          - apply (Hmk q m Hq); [|exact Hmq]. rewrite Hs1q; [exact Hsq| |].
            + intros ->; contradiction.
            + intros ->; contradiction. }
    + (* [current] is kept and becomes [prev] *)
      destruct (IH s (next n) ps Hl fuel head p released ltac:(lia) Hpn
                  (fun E => False_ind _ (Hp E)) (fun _ => ex_intro _ (val n) (eq_trans Hs (f_equal Some (node_eta n)))))
        as (head' & s' & k & ps' & Hrun & Hk & Hinc & _ & Hh & Hfr & Hmk).
      destruct (Hh Hp) as [Hhd Hsp].
      exists head', s', p, (p :: ps'). split; [exact Hrun|].
      split; [refine (lseg_cons s' p (mkNode (val n) k) ps' _ Hp _ Hk); apply Hsp; rewrite <- node_eta; exact Hs|].
      split; [intros q [<-|Hq]; [left; reflexivity | right; apply Hinc, Hq]|].
      split; [intros E; rewrite Hhd; apply Hhead, E|].
      split.
      { intros Hpz; split; [exact Hhd|]. intros v Hv. rewrite Hfr; [exact Hv|exact Hprevps|exact Hprev']. }
      split.
      { intros q Hq Hqp. apply Hfr; [intros Hi; apply Hq; right; exact Hi|].
        intros ->; apply Hq; left; reflexivity. }
      { intros q m [<-|Hq] Hsq Hmq.
        - rewrite Hs in Hsq; injection Hsq as <-; congruence.
        - exact (Hmk q m Hq Hsq Hmq). }
Qed.


Lemma lseg_not_NULL : forall s p ps l, lseg s p ps l -> ~ In NULL ps.
Proof. intros s p ps l H Hin. destruct (lseg_live _ _ _ _ _ H Hin) as [E _]. apply E; reflexivity. Qed.

Lemma removeMarked_spec : forall s head ps l fuel,
  lseg s head ps l -> length l < fuel ->
  exists head' s' ps',
    removeMarked marked fuel s head = Some (head', s', filter marked l) /\
    lseg s' head' ps' (filter (fun v => negb (marked v)) l) /\ incl ps' ps /\
    (forall q, q <> NULL -> ~ In q ps -> s' q = s q) /\
    (forall q n, In q ps -> s q = Some n -> marked (val n) = true -> s' q = None).
Proof.
  intros s head ps l fuel H Hf.
  destruct (removeMarkedLoop_spec l s head ps H fuel head NULL [] Hf (lseg_not_NULL _ _ _ _ H)
              (fun _ => eq_refl) (fun E => False_ind _ (E eq_refl)))
    as (head' & s' & k & ps' & Hrun & Hk & Hinc & Hh & _ & Hfr & Hmk).
  exists head', s', ps'. rewrite (Hh eq_refl). unfold removeMarked. rewrite Hrun, (Hh eq_refl).
  split; [reflexivity|]. split; [exact Hk|]. split; [exact Hinc|].
  split; [intros q Hq Hn; apply Hfr; assumption | exact Hmk].
Qed.

Lemma freeListLoop_spec : forall l s cur ps, lseg s cur ps l ->
  forall fuel released, length l < fuel ->
  exists s', freeListLoop fuel cur s released = Some (s', released ++ l) /\
    (forall q, In q ps -> s' q = None) /\ (forall q, ~ In q ps -> s' q = s q).
Proof.
  induction l as [|a l IH]; intros s cur ps H fuel released Hf;
    (destruct fuel as [|fuel]; [cbn in Hf; lia|]).
  - apply lseg_NULL_inv in H; destruct H as [-> ->].
    exists s; cbn; rewrite app_nil_r; split; [reflexivity|split; [intros q []|reflexivity]].
  - apply lseg_cons_inv in H. destruct H as (p & n & ps0 & -> & -> & <- & Hp & Hs & Hl).
    assert (Hnd : NoDup (p :: ps0)).
    { apply (lseg_NoDup s p _ (val n :: l)); constructor; auto. }
    inversion Hnd as [|? ? Hpn _]; subst.
    cbn [freeListLoop]. destruct (Nat.eqb_spec p NULL) as [E|_]; [contradiction|]. rewrite Hs.
    assert (Hl1 : lseg (freeNode s p) (next n) ps0 l).
    { apply (lseg_frame s); [exact Hl|]. intros q Hq; unfold freeNode; apply upd_neq.
      intros ->; contradiction. }
    cbn in Hf.
    destruct (IH _ _ _ Hl1 fuel (released ++ [val n]) ltac:(lia)) as (s' & Hrun & Hfreed & Hfr).
    exists s'. rewrite <- app_assoc in Hrun. split; [exact Hrun|]. split.
    + intros q [<-|Hq]; [|apply Hfreed, Hq]. rewrite Hfr by exact Hpn. apply upd_eq.
    + intros q Hq. rewrite Hfr by (intros Hi; apply Hq; right; exact Hi).
      apply upd_neq; intros ->; apply Hq; left; reflexivity.
Qed.

Lemma freeList_spec : forall s head ps l fuel,
  lseg s head ps l -> length l < fuel ->
  exists s', freeList fuel s head = Some (NULL, s', l) /\
    (forall q, In q ps -> s' q = None) /\ (forall q, ~ In q ps -> s' q = s q).
Proof.
  intros s head ps l fuel H Hf.
  destruct (freeListLoop_spec l s head ps H fuel [] Hf) as (s' & Hrun & H1 & H2).
  exists s'; unfold freeList; rewrite Hrun; split; [reflexivity | split; assumption].
Qed.



Lemma addToList_spec : forall s head ps l newObject,
  lseg s head ps l ->
  (newObject = NULL -> addToList s head newObject = (head, s)) /\
  (forall n, newObject <> NULL -> s newObject = Some n -> ~ In newObject ps ->
     let '(head', s') := addToList s head newObject in
     head' = newObject /\ lseg s' head' (newObject :: ps) (val n :: l)).
Proof.
  intros s head ps l o H; split.
  - intros ->; reflexivity.
  - intros n Ho Hs Hin. unfold addToList. destruct (Nat.eqb_spec o NULL) as [E|_]; [contradiction|].
    split; [reflexivity|].
    refine (lseg_cons _ o (mkNode (val n) head) ps l Ho _ _).
    + unfold set_next; rewrite Hs; apply upd_eq.
    + apply (lseg_frame s); [exact H|]. intros q Hq. apply set_next_neq. intros ->; contradiction.
Qed.

End LinkedFacts.

Lemma randomComponent_range : forall m s,
  (0 <= m)%Z ->
  let v := IZR (100 + m mod 200) * (if Z.eqb (s mod 2) 0 then 1 else -1) in
  100 <= Rabs v <= 299.
Proof.
  intros m s Hm v. subst v.
  pose proof (Z.mod_pos_bound m 200 ltac:(lia)) as Hb.
  assert (H1 : 100 <= IZR (100 + m mod 200) <= 299) by (split; apply IZR_le; lia).
  destruct (Z.eqb (s mod 2) 0).
  - rewrite Rmult_1_r, Rabs_right by lra; lra.
  - replace (IZR (100 + m mod 200) * -1) with (- IZR (100 + m mod 200)) by ring.
    rewrite Rabs_Ropp, Rabs_right by lra; lra.
Qed.

Lemma spawnBall_fields : forall h mousePos d,
  validDraws d ->
  match fst (spawnBall h mousePos d) with
  | Some b =>
      position b = mousePos /\ 10 <= radius b <= 29 /\
      100 <= Rabs (x (velocity b)) <= 299 /\ 100 <= Rabs (y (velocity b)) <= 299 /\
      1 / 2 <= mass b <= 3 /\ restitution b = 1 /\
      interactWithOtherBouncingObjects b = true /\ markedForDeletion b = false /\
      onCollisionEffects b = []
  | None => True
  end.
Proof.
  intros h pos d Hd.
  unfold validDraws in Hd. repeat (apply Forall_cons_iff in Hd; destruct Hd as [? Hd]).
  unfold spawnBall, createBouncingObject.
  destruct (malloc h) as [[a|] h1]; [|exact I]. cbn [fst position radius velocity mass restitution
    interactWithOtherBouncingObjects markedForDeletion onCollisionEffects randomVelocity x y].
  assert (Hmd : 0 <= IZR (drawMass d) / IZR RAND_MAX <= 1).
  { unfold RAND_MAX in *. split.
    - apply Rmult_le_pos; [apply IZR_le; lia | left; apply Rinv_0_lt_compat; apply IZR_lt; lia].
    - apply Rmult_le_reg_r with (IZR 2147483647); [apply IZR_lt; lia|].
      unfold Rdiv; rewrite Rmult_assoc, Rinv_l, Rmult_1_r, Rmult_1_l by (apply not_0_IZR; lia).
      apply IZR_le; lia. }
  destruct (Rltb 0 _) eqn:Em; rcmp; [|lra].
  pose proof (Z.mod_pos_bound (drawRadius d) 20 ltac:(lia)).
  split; [reflexivity|]. split; [split; apply IZR_le; lia|].
  split; [apply randomComponent_range; lia|]. split; [apply randomComponent_range; lia|].
  split; [lra|]. split.
  { rewrite Clamp_unit. rewrite Rmax_right, Rmin_left; lra. }
  repeat split; reflexivity.
Qed.

Lemma sampleDraws_valid : validDraws sampleDraws.
Proof. unfold validDraws, sampleDraws, RAND_MAX; cbn. repeat constructor; lia. Qed.

Lemma sampleSpawned_spawnBall :
  fst (spawnBall (mkHeap [] 1 []) origin sampleDraws) = Some sampleSpawned.
Proof.
  unfold spawnBall, createBouncingObject, malloc; cbn [mallocOutcomes fst].
  rewrite (proj2 (Rltb_true _ _)) by (unfold sampleDraws, RAND_MAX; cbn [drawMass]; lra).
  unfold sampleSpawned. f_equal. f_equal; cbn; try reflexivity. lra.
Qed.

Lemma sampleSpawned_spawned : spawnedBall sampleSpawned.
Proof.
  exists (mkHeap [] 1 []), origin, sampleDraws.
  exact (conj sampleDraws_valid sampleSpawned_spawnBall).
Qed.


(** ** Extra properties of the code *)

(** (X1) [applyScreenBoundaryCollisions] keeps the radius and, for a ball of
    nonnegative radius whose diameter plus [EPSILON2] fits in the screen
    height, leaves the centre at least one radius inside every screen
    edge. *)

Theorem applyScreenBoundaryCollisions_keeps_inside : forall b, 0 <= radius b -> 2 * radius b + EPSILON2 <= SCREEN_HEIGHT ->
  let b' := applyScreenBoundaryCollisions b in
  radius b' = radius b /\
  radius b <= x (position b') <= SCREEN_WIDTH - radius b /\
  radius b <= y (position b') <= SCREEN_HEIGHT - radius b.
Proof.
  intros b Hr Hh; unfold applyScreenBoundaryCollisions; cbv zeta.
  unfold SCREEN_WIDTH, SCREEN_HEIGHT, EPSILON2 in *.
  rcases; cbn; lra.
Qed.

Lemma applyScreenBoundaryCollisions_keeps_inside_witness :
  radius sampleBall <= x (position (applyScreenBoundaryCollisions sampleBall)) <=
    SCREEN_WIDTH - radius sampleBall.
Proof.
  exact (proj1 (proj2 (applyScreenBoundaryCollisions_keeps_inside sampleBall
    ltac:(cbn; lra) ltac:(unfold SCREEN_HEIGHT, EPSILON2; cbn; lra)))).
Defined.

(** (X2) [applyScreenBoundaryCollisions] never increases the magnitude of
    either velocity component, hence never increases the speed. *)

Theorem applyScreenBoundaryCollisions_never_speeds_up : forall b, let b' := applyScreenBoundaryCollisions b in
  Rabs (x (velocity b')) <= Rabs (x (velocity b)) /\
  Rabs (y (velocity b')) <= Rabs (y (velocity b)) /\
  Vector2LengthSqr (velocity b') <= Vector2LengthSqr (velocity b).
Proof.
  intros b; unfold applyScreenBoundaryCollisions, Vector2LengthSqr; cbv zeta.
  rcases; cbn; repeat split; try split_Rabs; nra.
Qed.

(** (X3) A ball whose centre is at least one radius inside every screen
    edge is returned unchanged by [applyScreenBoundaryCollisions]. *)

Theorem applyScreenBoundaryCollisions_inside_noop : forall b, radius b <= x (position b) <= SCREEN_WIDTH - radius b ->
  radius b <= y (position b) <= SCREEN_HEIGHT - radius b ->
  applyScreenBoundaryCollisions b = b.
Proof.
  intros [[px py] [vx vy] r c m e i d l] Hx Hy; cbn in *.
  unfold applyScreenBoundaryCollisions; cbv zeta; cbn.
  rcases; try lra; reflexivity.
Qed.

Lemma applyScreenBoundaryCollisions_inside_noop_witness :
  applyScreenBoundaryCollisions (set_position sampleBall (mkVector2 540 360)) =
  set_position sampleBall (mkVector2 540 360).
Proof.
  apply applyScreenBoundaryCollisions_inside_noop; unfold SCREEN_WIDTH, SCREEN_HEIGHT; cbn; lra.
Defined.

(** (X4) After [applyScreenBoundaryCollisions], a ball crossing the left
    (top) edge moves right (down) or not at all along that axis, and a ball
    crossing only the right (bottom) edge moves left (up) or not at all. *)

Theorem applyScreenBoundaryCollisions_direction : forall b, let b' := applyScreenBoundaryCollisions b in
  (x (position b) - radius b < 0 -> 0 <= x (velocity b')) /\
  (0 <= x (position b) - radius b -> SCREEN_WIDTH < x (position b) + radius b ->
   x (velocity b') <= 0) /\
  (y (position b) - radius b < 0 -> 0 <= y (velocity b')) /\
  (0 <= y (position b) - radius b -> SCREEN_HEIGHT < y (position b) + radius b ->
   y (velocity b') <= 0).
Proof.
  intros b; unfold applyScreenBoundaryCollisions; cbv zeta.
  rcases; cbn; repeat split; intros; lra.
Qed.

(** (X5) [updateArcCircleObj] on an arc changes only the position (moved
    unless static, then wrapped into the screen band) and the rotation,
    which ends in [0, 360] and differs from [rotation + rotationSpeed * dt]
    by a whole number of turns. *)

Theorem updateArcCircleObj_spec : forall self dt data,
  shapeData self = SHAPE_CIRCLE_ARC data ->
  let o := updateArcCircleObj self dt in
  exists rot,
    o = mkGameObject
          (screenWrap (if isStatic self then objPosition self
                       else Vector2Add (objPosition self) (Vector2Scale (objVelocity self) dt)))
          (objVelocity self) (SHAPE_CIRCLE_ARC (set_rotation data rot))
          (isStatic self) (objOnCollisionEffects self) (objMarkedForDeletion self) /\
    0 <= rot <= 360 /\
    (exists k : Z, rot = rotation data + rotationSpeed data * dt + 360 * IZR k) /\
    onScreenBand (objPosition o).
Proof.
  intros self dt data Hd o. subst o. unfold updateArcCircleObj. rewrite Hd. cbv zeta.
  destruct (normalizeRotation_ok (rotation data + rotationSpeed data * dt)) as [Hr Hk].
  eexists; split; [reflexivity|]. split; [exact Hr|]. split; [exact Hk|].
  cbn [objPosition]. apply screenWrap_band.
Qed.

Lemma updateArcCircleObj_spec_witness :
  exists rot, shapeData (updateArcCircleObj sampleArc 1) =
    SHAPE_CIRCLE_ARC (set_rotation sampleArcData rot) /\ 0 <= rot <= 360.
Proof.
  pose proof (updateArcCircleObj_spec sampleArc 1 sampleArcData eq_refl) as H.
  cbv zeta in H. destruct H as (rot & Ho & Hr & _).
  exists rot. rewrite Ho. split; [reflexivity | exact Hr].
Defined.

(** (X6) [updateObjectList] maps every object to its update: velocity,
    static flag, effects and deletion mark are kept; an arc keeps its shape
    but its rotation, which ends in [0, 360], and its position lies in the
    screen band; a rectangle or diamond keeps its shape, is unchanged if
    static and otherwise moves by [velocity * dt] and is wrapped into the
    screen band (not wrapped if already inside it). *)

Theorem updateObjectList_spec : forall head dt,
  Forall2 (fun o o' =>
    objVelocity o' = objVelocity o /\ isStatic o' = isStatic o /\
    objOnCollisionEffects o' = objOnCollisionEffects o /\
    objMarkedForDeletion o' = objMarkedForDeletion o /\
    match shapeData o with
    | SHAPE_CIRCLE_ARC data =>
        exists rot, shapeData o' = SHAPE_CIRCLE_ARC (set_rotation data rot) /\ 0 <= rot <= 360 /\
          onScreenBand (objPosition o')
    | _ =>
        shapeData o' = shapeData o /\
        (isStatic o = true -> o' = o) /\
        (isStatic o = false ->
           let p := Vector2Add (objPosition o) (Vector2Scale (objVelocity o) dt) in
           onScreenBand (objPosition o') /\ (onScreenBand p -> objPosition o' = p))
    end)
    head (updateObjectList head dt).
Proof.
  intros head dt; unfold updateObjectList; induction head as [|o l IH]; cbn [map]; constructor; [|exact IH].
  unfold updateObject. destruct (shapeData o) as [w h c|hw hh c|data] eqn:Hd.
  1,2: cbv beta iota; pose proof (updateGenericMovingObject_spec o dt) as (H1 & H2 & H3 & H4 & H5 & H6 & H7);
    cbv zeta in H7; rewrite Hd in H5; exact (conj H1 (conj H2 (conj H3 (conj H4 (conj H5 (conj H6 H7)))))). 
  destruct (updateArcCircleObj_fields o dt data Hd) as (rot & Ho & Hr & _ & Hb).
  rewrite Ho in Hb |- *. cbn. repeat split; try reflexivity. exists rot; auto.
Qed.

(** (X7) [updateBouncingObjectList] changes only the positions of the
    balls: each new position is in the screen band, and it is
    [position + velocity * dt] whenever that point is in the band. *)

Theorem updateBouncingObjectList_spec : forall head dt,
  Forall2 (fun b b' =>
    let p := Vector2Add (position b) (Vector2Scale (velocity b) dt) in
    b' = set_position b (position b') /\ onScreenBand (position b') /\
    (onScreenBand p -> position b' = p))
    head (updateBouncingObjectList head dt).
Proof.
  intros head dt; unfold updateBouncingObjectList; induction head as [|b l IH]; cbn [map]; constructor; [|exact IH].
  cbv zeta. split; [destruct b; reflexivity|]. cbn [position set_position].
  split; [apply screenWrap_band | apply screenWrap_id].
Qed.

(** (X8) For [dt >= 0], a collision reported by
    [checkCollisionRectangleObj] or [checkCollisionDiamondObj] has its time
    of impact in [0, dt + EPSILON2] and a unit normal, and neither function
    ever answers [CollisionOutUnset]. *)

Theorem polygon_collision_bounds : forall obj b dt, 0 <= dt ->
  (forall w h toi n, checkCollisionRectangleObj obj w h b dt = Collision toi n ->
     0 <= toi <= dt + EPSILON2 /\ Vector2LengthSqr n = 1) /\
  (forall hw hh toi n, checkCollisionDiamondObj obj hw hh b dt = Collision toi n ->
     0 <= toi <= dt + EPSILON2 /\ Vector2LengthSqr n = 1) /\
  (forall w h, checkCollisionRectangleObj obj w h b dt <> CollisionOutUnset) /\
  (forall hw hh, checkCollisionDiamondObj obj hw hh b dt <> CollisionOutUnset).
Proof.
  intros obj b dt Hdt; repeat split; intros;
    solve [ eapply segmentsCollision_bounds; eauto
          | apply segmentsCollision_not_unset ].
Qed.

Lemma polygon_collision_bounds_witness :
  0 <= 0 /\ checkCollisionRectangleObj sampleRect 20 20 sampleBall 0 <> CollisionOutUnset.
Proof.
  split; [lra|].
  exact (proj1 (proj2 (proj2 (polygon_collision_bounds sampleRect sampleBall 0 (Rle_refl 0)))) 20 20).
Defined.

(** (X9) [handleBallToBallCollisions] changes only positions and velocities,
    and only of interacting balls; with positive masses it conserves the
    total momentum and the total mass moment; with nonnegative masses and
    restitutions in [0, 1] it never increases the kinetic energy, and keeps
    it when all restitutions are 1. *)


(** (X10) A ball spawned on a click (main.c) with draws of [rand()] in
    [0, RAND_MAX] sits at the mouse, has radius in [10, 29], velocity
    components of magnitude in [100, 299], mass in [1/2, 3], restitution 1,
    interacts with other balls, is unmarked and carries no effect. *)

Theorem spawnBall_spec : forall h mousePos d,
  validDraws d ->
  match fst (spawnBall h mousePos d) with
  | Some b =>
      position b = mousePos /\ 10 <= radius b <= 29 /\
      100 <= Rabs (x (velocity b)) <= 299 /\ 100 <= Rabs (y (velocity b)) <= 299 /\
      1 / 2 <= mass b <= 3 /\ restitution b = 1 /\
      interactWithOtherBouncingObjects b = true /\ markedForDeletion b = false /\
      onCollisionEffects b = []
  | None => True
  end.
Proof.
  intros h pos d Hd.
  unfold validDraws in Hd. repeat (apply Forall_cons_iff in Hd; destruct Hd as [? Hd]).
  unfold spawnBall, createBouncingObject.
  destruct (malloc h) as [[a|] h1]; [|exact I]. cbn [fst position radius velocity mass restitution
    interactWithOtherBouncingObjects markedForDeletion onCollisionEffects randomVelocity x y].
  assert (Hmd : 0 <= IZR (drawMass d) / IZR RAND_MAX <= 1).
  { unfold RAND_MAX in *. split.
    - apply Rmult_le_pos; [apply IZR_le; lia | left; apply Rinv_0_lt_compat; apply IZR_lt; lia].
    - apply Rmult_le_reg_r with (IZR 2147483647); [apply IZR_lt; lia|].
      unfold Rdiv; rewrite Rmult_assoc, Rinv_l, Rmult_1_r, Rmult_1_l by (apply not_0_IZR; lia).
      apply IZR_le; lia. }
  destruct (Rltb 0 _) eqn:Em; rcmp; [|lra].
  pose proof (Z.mod_pos_bound (drawRadius d) 20 ltac:(lia)).
  split; [reflexivity|]. split; [split; apply IZR_le; lia|].
  split; [apply randomComponent_range; lia|]. split; [apply randomComponent_range; lia|].
  split; [lra|]. split.
  { rewrite Clamp_unit. rewrite Rmax_right, Rmin_left; lra. }
  repeat split; reflexivity.
Qed.

Lemma spawnBall_spec_witness :
  validDraws sampleDraws /\ 10 <= radius sampleSpawned <= 29 /\ 1 / 2 <= mass sampleSpawned <= 3.
Proof.
  pose proof (spawnBall_spec (mkHeap [] 1 []) origin sampleDraws sampleDraws_valid) as H.
  rewrite sampleSpawned_spawnBall in H. destruct H as (_ & Hr & _ & _ & Hm & _).
  split; [exact sampleDraws_valid | split; assumption].
Defined.

(** (X11) On balls spawned by clicks, [handleBallToBallCollisions] conserves
    the kinetic energy, the momentum and the mass moment. *)

Theorem spawned_balls_elastic : forall l dt,
  Forall spawnedBall l ->
  totalKineticEnergy (handleBallToBallCollisions l dt) = totalKineticEnergy l /\
  totalMomentum (handleBallToBallCollisions l dt) = totalMomentum l /\
  totalMassMoment (handleBallToBallCollisions l dt) = totalMassMoment l.
Proof.
  intros l dt Hl.
  assert (Hf : forall b, spawnedBall b -> 1 / 2 <= mass b <= 3 /\ restitution b = 1).
  { intros b (h & pos & d & Hd & Hb). pose proof (spawnBall_fields h pos d Hd) as Hs.
    rewrite Hb in Hs. destruct Hs as (_ & _ & _ & _ & Hm & Hr & _). split; assumption. }
  assert (Hphys : Forall physicalBall l).
  { eapply Forall_impl; [|exact Hl]. intros b Hb; destruct (Hf b Hb) as [Hm Hr]. split; lra. }
  assert (Hmass : Forall (fun b => 0 < mass b) l).
  { eapply Forall_impl; [|exact Hl]. intros b Hb; destruct (Hf b Hb) as [Hm Hr]. lra. }
  assert (Hrest : Forall (fun b => restitution b = 1) l).
  { eapply Forall_impl; [|exact Hl]. intros b Hb; apply (Hf b Hb). }
  unfold handleBallToBallCollisions.
  destruct (ballToBallLoop_energy (length l) l Hphys) as [_ HE].
  destruct (ballToBallLoop_momentum (length l) l Hmass) as [HM HMM].
  split; [apply HE, Hrest|]. split; assumption.
Qed.

Lemma spawned_balls_elastic_witness :
  Forall spawnedBall [sampleSpawned; sampleSpawned] /\
  totalKineticEnergy (handleBallToBallCollisions [sampleSpawned; sampleSpawned] 0) =
  totalKineticEnergy [sampleSpawned; sampleSpawned].
Proof.
  split.
  - repeat constructor; apply sampleSpawned_spawned.
  - apply (spawned_balls_elastic [sampleSpawned; sampleSpawned] 0).
    repeat constructor; apply sampleSpawned_spawned.
Defined.

(** (X12) [applyEffects] changes only the ball's velocity, radius, colour
    and deletion mark: position, mass, restitution, interaction flag and
    effect list are kept. *)

Theorem applyEffects_frame : forall b g ong snd,
  effectFrame b (fst (applyEffects b g ong snd)).
Proof.
  intros b g ong snd; unfold applyEffects.
  pose proof (fold_ball_frame ong (onCollisionEffects b) b snd) as Hb.
  destruct (fold_left _ _ (b, snd)) as [b1 s1]. destruct Hb as [Hb _].
  destruct g as [g|]; [|exact Hb].
  pose proof (fold_object_frame ong (objOnCollisionEffects g) b1 s1) as Hg.
  destruct (fold_left _ _ (b1, s1)) as [b2 s2]. destruct Hg as [Hg _].
  eapply effectFrame_trans; eauto.
Qed.

(** (X13) The sound calls of [applyEffects] are, in order, a toggle for each
    fired sound effect of the ball, then a play for each fired sound effect
    of the obstacle; one-shot effects do not fire during an ongoing
    collision. *)

Theorem applyEffects_sounds : forall b g ong log,
  snd (applyEffects b g ong log) =
  log ++ map ToggleSound (soundsOf (firedEffects ong (onCollisionEffects b))) ++
  match g with
  | Some g => map PlaySound (soundsOf (firedEffects ong (objOnCollisionEffects g)))
  | None => []
  end.
Proof.
  intros b g ong log; unfold applyEffects.
  pose proof (fold_ball_frame ong (onCollisionEffects b) b log) as Hb.
  destruct (fold_left _ _ (b, log)) as [b1 s1]. destruct Hb as [_ Hb].
  destruct g as [g|]; [|cbn; rewrite Hb, app_nil_r; reflexivity].
  pose proof (fold_object_frame ong (objOnCollisionEffects g) b1 s1) as Hg.
  destruct (fold_left _ _ (b1, s1)) as [b2 s2]. destruct Hg as [_ Hg].
  cbn; rewrite Hg, Hb, app_assoc; reflexivity.
Qed.

(** (X14) A boost built by [createVelocityBoostEffect] has a factor above 1
    and a dampen built by [createVelocityDampenEffect] a factor in
    [1/100, 99/100], each with the requested [continuous] flag; when
    [malloc] fails both return [NULL] and leave the heap as [malloc] left
    it. *)


(** (X15) With a unit normal and a nonnegative restitution, if every effect
    of the ball and the obstacle is either without velocity factor or a
    dampen built by [createVelocityDampenEffect], the response of
    [resolveCollision] leaves the ball no faster than [restitution] times
    its speed. *)

Theorem dampen_effects_never_speed_up : forall w obj n,
  Vector2LengthSqr n = 1 -> 0 <= restitution (wBall w) ->
  Forall (fun e => effectVelocityFactor e = 1 \/
                   exists h f c h', createVelocityDampenEffect h f c = (Some e, h'))
    (onCollisionEffects (wBall w) ++ objOnCollisionEffects obj) ->
  Vector2Length (velocity (wBall (resolveCollision w obj n))) <=
    restitution (wBall w) * Vector2Length (velocity (wBall w)).
Proof.
  intros w obj n Hn He Hall.
  apply Forall_app in Hall as [Hb Ho].
  pose proof (velocityFactor_unit_interval _ (Forall_impl _ dampen_built_factor Hb)) as Fb.
  pose proof (velocityFactor_unit_interval _ (Forall_impl _ dampen_built_factor Ho)) as Fo.
  rewrite resolveCollision_velocity by (rewrite Hn; unfold EPSILON2; lra).
  change (Vector2Length ?v) with (sqrt (Vector2LengthSqr v)).
  rewrite !LengthSqr_Scale, LengthSqr_Reflect_unit by exact Hn.
  set (F := velocityFactor (onCollisionEffects (wBall w)) * velocityFactor (objOnCollisionEffects obj)).
  set (r := restitution (wBall w)) in *. set (L := Vector2LengthSqr (velocity (wBall w))).
  assert (HF : 0 <= F <= 1) by (unfold F; split; [apply Rmult_le_pos; lra|];
    rewrite <- (Rmult_1_r 1); apply Rmult_le_compat; lra).
  replace (F * F * (r * r * L)) with (Rsqr (r * F) * L) by (unfold Rsqr; ring).
  rewrite sqrt_mult_alt by apply Rle_0_sqr. rewrite sqrt_Rsqr by (apply Rmult_le_pos; lra).
  pose proof (sqrt_pos L).
  replace (r * sqrt L) with (r * 1 * sqrt L) by ring.
  apply Rmult_le_compat_r; [lra|]. apply Rmult_le_compat_l; lra.
Qed.

Lemma dampen_effects_never_speed_up_witness :
  Vector2Length (velocity (wBall (resolveCollision dampenedWorld sampleRect (mkVector2 1 0)))) <=
    restitution (wBall dampenedWorld) * Vector2Length (velocity (wBall dampenedWorld)).
Proof.
  apply dampen_effects_never_speed_up.
  - unfold Vector2LengthSqr; cbn; lra.
  - cbn; lra.
  - cbn [wBall dampenedWorld dampenedBall onCollisionEffects objOnCollisionEffects sampleRect app].
    constructor; [|constructor]. right.
    exists (mkHeap [] 1 []), (1 / 2), false, (mkHeap [1%nat] 2 []).
    rewrite dampen_half. reflexivity.
Defined.

(** (X16) With a unit normal [n], [resolveCollision] reverses the normal
    component of the velocity and keeps the tangential one, both scaled by
    [restitution] times the product of the velocity factors of the effects
    of the ball and the obstacle. *)

Theorem resolveCollision_normal_component : forall w obj n,
  Vector2LengthSqr n = 1 ->
  let v := velocity (wBall w) in
  let v' := velocity (wBall (resolveCollision w obj n)) in
  let k := restitution (wBall w) *
           (velocityFactor (onCollisionEffects (wBall w)) * velocityFactor (objOnCollisionEffects obj)) in
  Vector2DotProduct v' n = - k * Vector2DotProduct v n /\
  Vector2DotProduct v' (mkVector2 (- y n) (x n)) = k * Vector2DotProduct v (mkVector2 (- y n) (x n)).
Proof.
  intros w obj n Hn v v' k; unfold v'.
  rewrite resolveCollision_velocity by (rewrite Hn; unfold EPSILON2; lra).
  fold v. unfold k. clearbody v.
  set (F := velocityFactor (onCollisionEffects (wBall w)) * velocityFactor (objOnCollisionEffects obj)).
  set (r := restitution (wBall w)).
  destruct n as [nx ny]; destruct v as [vx vy].
  unfold Vector2DotProduct, Vector2Scale, Vector2Reflect, Vector2LengthSqr in *; cbn [x y] in *.
  split.
  - transitivity (- (r * F) * (vx * nx + vy * ny)
                  + 2 * r * F * (vx * nx + vy * ny) * (1 - (nx * nx + ny * ny))); [ring|].
    rewrite Hn; ring.
  - ring.
Qed.

Lemma resolveCollision_normal_component_witness :
  Vector2DotProduct (velocity (wBall (resolveCollision dampenedWorld sampleRect (mkVector2 1 0))))
    (mkVector2 1 0) =
  - (restitution (wBall dampenedWorld) *
     (velocityFactor (onCollisionEffects (wBall dampenedWorld)) *
      velocityFactor (objOnCollisionEffects sampleRect))) *
    Vector2DotProduct (velocity (wBall dampenedWorld)) (mkVector2 1 0).
Proof.
  exact (proj1 (resolveCollision_normal_component dampenedWorld sampleRect (mkVector2 1 0)
    ltac:(unfold Vector2LengthSqr; cbn; lra))).
Defined.

(** (X17) [addCollisionCallbackToArcCircle] and
    [addEscapeCallbackToArcCircle] do nothing on a [NULL] or non-arc object
    or a [NULL] callback; if [malloc] fails they return the object unchanged
    and allocate nothing; otherwise they push the callback at the front of
    the arc's respective list. *)

Theorem arc_callback_registration : forall h arc cb,
  ((match arc with Some o => isArc o | None => false end = false \/ cb = None) ->
     addCollisionCallbackToArcCircle h arc cb = (arc, h) /\
     addEscapeCallbackToArcCircle h arc cb = (arc, h)) /\
  (fst (malloc h) = None ->
     fst (addCollisionCallbackToArcCircle h arc cb) = arc /\
     fst (addEscapeCallbackToArcCircle h arc cb) = arc /\
     live (snd (addCollisionCallbackToArcCircle h arc cb)) = live h /\
     live (snd (addEscapeCallbackToArcCircle h arc cb)) = live h) /\
  (forall o data c, arc = Some o -> shapeData o = SHAPE_CIRCLE_ARC data -> cb = Some c ->
     fst (malloc h) <> None ->
     fst (addCollisionCallbackToArcCircle h arc cb) =
       Some (set_shapeData o (SHAPE_CIRCLE_ARC
               (set_onCollisionCallbacks data (c :: onCollisionCallbacks data)))) /\
     fst (addEscapeCallbackToArcCircle h arc cb) =
       Some (set_shapeData o (SHAPE_CIRCLE_ARC
               (set_onEscapeCallbacks data (c :: onEscapeCallbacks data))))).
Proof.
  intros h arc cb; split; [|split].
  - intros H; unfold addCollisionCallbackToArcCircle, addEscapeCallbackToArcCircle.
    destruct arc as [o|]; [|split; reflexivity].
    destruct cb as [c|]; [|split; reflexivity].
    destruct H as [H|H]; [|discriminate].
    unfold isArc in H; destruct (shapeData o); [split; reflexivity..|discriminate].
  - intros Hm; unfold addCollisionCallbackToArcCircle, addEscapeCallbackToArcCircle.
    destruct arc as [o|]; [|repeat split; reflexivity].
    destruct cb as [c|]; [|repeat split; reflexivity].
    destruct (shapeData o); try (repeat split; reflexivity).
    destruct h as [l a outs]; unfold malloc in *; cbn in *.
    destruct outs as [|[|] outs]; cbn in *; try discriminate. repeat split; reflexivity.
  - intros o data c -> Hd -> Hm; unfold addCollisionCallbackToArcCircle, addEscapeCallbackToArcCircle.
    rewrite Hd. destruct (malloc h) as [[a|] h1]; cbn in *; [split; reflexivity | congruence].
Qed.

(** (X18) [closestPointOnSegment p a b] is [a] when the segment is shorter
    than [sqrt EPSILON2]; otherwise it is a point [a + t (b - a)] with
    [t] in [0, 1] that is at least as close to [p] as every point of the
    segment. *)

Theorem closestPointOnSegment_closest : forall p a b,
  let q := closestPointOnSegment p a b in
  (Vector2LengthSqr (Vector2Subtract b a) < EPSILON2 -> q = a) /\
  (EPSILON2 <= Vector2LengthSqr (Vector2Subtract b a) ->
     exists t, 0 <= t <= 1 /\ q = Vector2Add a (Vector2Scale (Vector2Subtract b a) t) /\
     forall s, 0 <= s <= 1 ->
       Vector2LengthSqr (Vector2Subtract p q) <=
       Vector2LengthSqr (Vector2Subtract p (Vector2Add a (Vector2Scale (Vector2Subtract b a) s)))).
Proof.
  intros p a b q; subst q; unfold closestPointOnSegment; cbv zeta.
  assert (Hd : Vector2DotProduct (Vector2Subtract b a) (Vector2Subtract b a) =
               Vector2LengthSqr (Vector2Subtract b a)) by reflexivity.
  rewrite Hd. split.
  - intros H. destruct (Rltb _ EPSILON2) eqn:E; [reflexivity|]. rcmp. lra.
  - intros H. destruct (Rltb _ EPSILON2) eqn:E; [rcmp; lra|].
    set (ab := Vector2Subtract b a) in *. set (ap := Vector2Subtract p a) in *.
    set (S := Vector2LengthSqr ab) in *.
    assert (HS : 0 < S) by (unfold EPSILON2 in H; lra).
    set (u := Vector2DotProduct ap ab / S).
    exists (Clamp u 0 1). rewrite Clamp_unit.
    split; [split; [apply Rmin_glb; [lra | apply Rmax_l] | apply Rmin_l] |].
    split; [reflexivity|].
    intros s Hs.
    assert (Hf : forall t, Vector2LengthSqr (Vector2Subtract p (Vector2Add a (Vector2Scale ab t)))
                  = Vector2LengthSqr ap - 2 * t * (u * S) + t * t * S).
    { intros t. assert (HuS : u * S = Vector2DotProduct ap ab) by (unfold u; field; lra).
      rewrite HuS. unfold S, ap, ab, Vector2LengthSqr, Vector2DotProduct; cbn. ring. }
    rewrite !Hf.
    set (t := Rmin 1 (Rmax 0 u)).
    assert (Hp : 0 <= (s - t) * (s + t - 2 * u)).
    { unfold t. destruct (Rle_lt_dec u 0).
      - rewrite Rmax_left by lra. rewrite Rmin_right by lra. nra.
      - rewrite Rmax_right by lra. destruct (Rle_lt_dec u 1).
        + rewrite Rmin_right by lra.
          replace ((s - u) * (s + u - 2 * u)) with ((s - u) * (s - u)) by ring.
          apply Rle_0_sqr.
        + rewrite Rmin_left by lra. nra. }
    assert (HSp : 0 <= S * ((s - t) * (s + t - 2 * u))) by (apply Rmult_le_pos; lra).
    nra.
Qed.

(** (X19) Whatever the sequence of button presses, the speed controller's
    index stays in [0, 35], [timeMultiplier] is [speedValues[index]] and
    lies in [0, 10], so the scaled frame time is nonnegative. *)

Theorem speedController_bounds : forall inputs frameTime,
  let s := runSpeedController inputs in
  (0 <= currentSpeedIndex s <= 35)%Z /\
  timeMultiplier s = speedAt (currentSpeedIndex s) /\
  0 <= timeMultiplier s <= 10 /\
  (0 <= frameTime -> 0 <= frameTime * timeMultiplier s).
Proof.
  intros inputs ft s.
  assert (Hs : speedInvariant s).
  { subst s; unfold runSpeedController.
    apply fold_left_invariant with (P := speedInvariant).
    - intros acc [d i] H. apply speedControllerFrame_invariant, H.
    - split; [cbn; change numSpeedValues with 36%Z; lia | reflexivity]. }
  destruct Hs as [Hr Ht]. assert (Hn : numSpeedValues = 36%Z) by reflexivity.
  pose proof (speedAt_range (currentSpeedIndex s)).
  split; [lia|]. split; [exact Ht|]. rewrite Ht. split; [assumption|].
  intros; apply Rmult_le_pos; lra.
Qed.

(** (X20) On a well-formed list, [removeMarkedBouncingObjects] and
    [removeMarkedGameObjects] release the marked elements in order, leave
    the unmarked ones linked in order from the new head, free every marked
    node and touch no other address. *)

Theorem removeMarked_lists :
  (forall (s : Linked.Store BouncingObject) head ps l fuel,
     Linked.lseg s head ps l -> (length l < fuel)%nat ->
     removedMarked markedForDeletion s ps l (Linked.removeMarkedBouncingObjects fuel s head)) /\
  (forall (s : Linked.Store GameObject) head ps l fuel,
     Linked.lseg s head ps l -> (length l < fuel)%nat ->
     removedMarked objMarkedForDeletion s ps l (Linked.removeMarkedGameObjects fuel s head)).
Proof.
  split; intros s head ps l fuel H Hf.
  - exact (removeMarked_spec markedForDeletion s head ps l fuel H Hf).
  - exact (removeMarked_spec objMarkedForDeletion s head ps l fuel H Hf).
Qed.

(** (X21) On a well-formed list, [freeBouncingObjectList], [freeObjectList],
    [freeEffectList] and [freeArcCircleCallbackList] release every element
    in order, free every node, touch no other address and set the head to
    [NULL]. *)

Theorem free_lists :
  (forall (s : Linked.Store BouncingObject) head ps l fuel,
     Linked.lseg s head ps l -> (length l < fuel)%nat ->
     freedAll s ps l (Linked.freeBouncingObjectList fuel s head)) /\
  (forall (s : Linked.Store GameObject) head ps l fuel,
     Linked.lseg s head ps l -> (length l < fuel)%nat ->
     freedAll s ps l (Linked.freeObjectList fuel s head)) /\
  (forall (s : Linked.Store CollisionEffect) head ps l fuel,
     Linked.lseg s head ps l -> (length l < fuel)%nat ->
     freedAll s ps l (Linked.freeEffectList fuel s head)) /\
  (forall (s : Linked.Store ArcCircleCallback) head ps l fuel,
     Linked.lseg s head ps l -> (length l < fuel)%nat ->
     freedAll s ps l (Linked.freeArcCircleCallbackList fuel s head)).
Proof.
  split; [|split; [|split]]; intros s head ps l fuel H Hf; apply freeList_spec; assumption.
Qed.

(** (X22) On a well-formed list, [Count_BouncingObjects] and
    [Count_GameObjects] return the length of the list. *)


(** (X23) [addBouncingObjectToList], [addObjectToList] and [addEffectToList]
    do nothing for [NULL]; otherwise a node not in the list becomes the
    new head, linked in front of the old list. *)

Theorem push_lists :
  (forall (s : Linked.Store BouncingObject) head ps l newObject,
     Linked.lseg s head ps l ->
     pushedOnto s head ps l newObject (Linked.addBouncingObjectToList s head newObject)) /\
  (forall (s : Linked.Store GameObject) head ps l newObject,
     Linked.lseg s head ps l ->
     pushedOnto s head ps l newObject (Linked.addObjectToList s head newObject)) /\
  (forall (s : Linked.Store CollisionEffect) head ps l newEffect,
     Linked.lseg s head ps l ->
     pushedOnto s head ps l newEffect (Linked.addEffectToList s head newEffect)).
Proof.
  assert (G : forall A (s : Linked.Store A) head ps l o, Linked.lseg s head ps l ->
            pushedOnto s head ps l o (Linked.addToList s head o)).
  { intros A s head ps l o H. destruct (addToList_spec s head ps l o H) as [H1 H2]. split; [exact H1|].
    intros n Ho Hs Hi. specialize (H2 n Ho Hs Hi). destruct (Linked.addToList s head o); cbn; destruct H2 as [-> H2]; split; [reflexivity | exact H2]. }
  split; [|split]; intros s head ps l o H; apply G; exact H.
Qed.

(** (X24) The main loop's [removeMarkedBouncingObjects] followed by
    [Count_BouncingObjects] gives the old count minus the number of
    released balls, all of which were marked. *)


